(** * Chunked time-series storage: [mark_storage.py]

    A shallow embedding of the storage writer ([ChunkWriter.add_packet],
    [ChunkWriter.flush], [cmd_write]) and of the range-query reader
    ([cmd_read]), followed by the properties of the storage design that
    hold, or fail, on that code.

    Modelling choices.
    - Timestamps are IEEE doubles in the source.  The storage engine only
      compares them, takes minima and maxima, and prints the first one of a
      chunk into a file name; they are taken from [Z] here: finite, totally
      ordered values whose printed form is injective.  NaN is the one thing
      kept from the floating-point world: it is what pandas puts into the
      cells that an axis-1 concatenation has no value for, and is modelled
      by [None] in a data-frame cell.
    - Matrix cells are int32 values that are only moved around: [Z].
    - An array is the list of its items along the first axis.  What numpy
      checks of the trailing dimensions when it concatenates arrays is
      checked here on the items; an array without items has none, which is
      why the properties about Records ask for at least one particle and
      for blocks of at least one row.
    - The storage directory is a finite map from file names to Parquet
      tables, together with the optional content of [index.csv].
    - A Python method mutates [self] and may raise: it is a function from
      the object's state to an outcome and the state left behind. *)

From stdpp Require Import gmap strings list fin_maps pretty.
From Stdlib Require Import Strings.Byte.

Open Scope Z_scope.

(** ** Exceptions and the state-and-exception monad *)

Inductive exn : Type :=
  | FileNotFoundError (path : string)
  | KeyError (column : string)
  | AttributeError (attribute : string)
  | IndexError
  | ValueError.

Inductive result (A : Type) : Type :=
  | Ok (a : A)
  | Raise (e : exn).
Arguments Ok {A} a.
Arguments Raise {A} e.

Definition M (S A : Type) : Type := S → result A * S.

Definition ret {S A} (a : A) : M S A := λ s, (Ok a, s).

Definition bind {S A B} (m : M S A) (k : A → M S B) : M S B :=
  λ s, match m s with
       | (Ok a, s') => k a s'
       | (Raise e, s') => (Raise e, s')
       end.

Definition lift {S A} (r : result A) : M S A := λ s, (r, s).
Definition get {S} : M S S := λ s, (Ok s, s).
Definition modify {S} (f : S → S) : M S unit := λ s, (Ok tt, f s).

Declare Scope m_scope.
Delimit Scope m_scope with M.
Notation "'do' x <- m ; k" := (bind m (λ x, k))
  (at level 10, x name, m at level 100, k at level 200) : m_scope.
Notation "m ;; k" := (bind m (λ _, k))
  (at level 100, k at level 200, right associativity) : m_scope.
Open Scope m_scope.

(** ** Data model *)

(** One particle's block of a measurement array: [R] rows of [C] cells. *)
Abbreviation matrix := (list (list Z)) (only parsing).

(** A packet is the dictionary the producer sends: [timestamps] of shape
    [(N,)], [scattering] of shape [(N, 64, 16)], [spectral] of shape
    [(N, 32, 16)].  Nothing in the storage code checks that the three
    leading dimensions agree. *)
Record Packet : Type := {
  timestamps : list Z;
  scattering : list matrix;
  spectral : list matrix
}.

(** [a.shape[0]] *)
Definition shape0 {A} (a : list A) : Z := Z.of_nat (length a).

(** The writer's [_buffer]: three lists of arrays, one array per packet. *)
Record Buffer : Type := {
  buf_timestamps : list (list Z);
  buf_scattering : list (list matrix);
  buf_spectral : list (list matrix)
}.

(** [dict(timestamps = [], scattering = [], spectral = [])] *)
Definition empty_buffer : Buffer :=
  {| buf_timestamps := []; buf_scattering := []; buf_spectral := [] |}.

(** A row of a chunk table: column [ts_0], columns [scat_0 ..], columns
    [spec_0 ..].  A cell group is [None] where pandas filled in NaN. *)
Record Row : Type := {
  ts_0 : option Z;
  scat : option (list Z);
  spec : option (list Z)
}.

Abbreviation DataFrame := (list Row) (only parsing).

(** A data row of [index.csv]. *)
Record IndexRow : Type := {
  filename : string;
  min_ts : Z;
  max_ts : Z
}.

Record Csv : Type := {
  csv_header : list string;
  csv_rows : list IndexRow
}.

(** The storage directory: the Parquet files by name, and [index.csv]
    ([None] while the file does not exist). *)
Record Disk : Type := {
  files : gmap string DataFrame;
  index_csv : option Csv
}.

Definition empty_disk : Disk := {| files := ∅; index_csv := None |}.

(** The state of a [ChunkWriter] object; [output_path] stands for the
    content of the directory the path names. *)
Record ChunkWriter : Type := {
  _buffer : Buffer;
  _particle_counter : Z;
  output_path : Disk
}.

#[global] Instance Row_eq_dec : EqDecision Row.
Proof. solve_decision. Defined.
#[global] Instance IndexRow_eq_dec : EqDecision IndexRow.
Proof. solve_decision. Defined.

(** ** numpy and pandas operations used by the code *)

(** The shape of the items of an array, that is its trailing dimensions:
    none for a number, the lengths of its rows for a block. *)
Class Shaped (A : Type) : Type := item_shape : A → list nat.

#[global] Instance number_shaped : Shaped Z := λ _, [].
#[global] Instance block_shaped : Shaped (list (list Z)) := λ block, map length block.

(** All items have the shape of the first. *)
Definition same_shape `{Shaped A} (items : list A) : Prop :=
  match items with
  | [] => True
  | x :: rest => Forall (λ y, item_shape y = item_shape x) rest
  end.

#[global] Instance same_shape_dec `{Shaped A} (items : list A) :
  Decision (same_shape items).
Proof. destruct items; apply _. Defined.

(** [np.concatenate(arrays)], along the first axis: a [ValueError] for an
    empty list of arrays, and for arrays that differ in a trailing
    dimension.  An array being the list of its items, an array without
    items has no trailing dimension here and goes with any other. *)
Definition np_concatenate `{Shaped A} (arrays : list (list A)) : result (list A) :=
  match arrays with
  | [] => Raise ValueError
  | _ => if decide (same_shape (concat arrays)) then Ok (concat arrays)
         else Raise ValueError
  end.

(** [a.reshape(a.shape[0], -1)]: every particle's block is flattened into
    one row; numpy cannot infer the [-1] of an array of size 0. *)
Definition reshape_rows (a : list matrix) : result (list (list Z)) :=
  match a with
  | [] => Raise ValueError
  | _ => Ok (map (λ block, concat block) a)
  end.

(** Two tables side by side, aligned on their row numbers; the shorter
    one is padded (outer join on the default index). *)
Fixpoint pad_zip {A B} (l : list A) (k : list B) : list (option A * option B) :=
  match l, k with
  | [], _ => map (λ b, (None, Some b)) k
  | _, [] => map (λ a, (Some a, None)) l
  | a :: l', b :: k' => (Some a, Some b) :: pad_zip l' k'
  end.

(** [pd.concat([df_ts, df_scat, df_spec], axis = 1)] *)
Definition pd_concat_axis1 (ts : list Z) (sc sp : list (list Z)) : DataFrame :=
  map (λ c, {| ts_0 := c.1; scat := c.2 ≫= fst; spec := c.2 ≫= snd |})
      (pad_zip ts (pad_zip sc sp)).

(** [a[0]] *)
Definition item0 {A} (a : list A) : result A :=
  match a with
  | [] => Raise IndexError
  | x :: _ => Ok x
  end.

(** [a.min()] and [a.max()] of a numpy array *)
Definition np_min (a : list Z) : result Z :=
  match a with
  | [] => Raise ValueError
  | x :: a' => Ok (foldl Z.min x a')
  end.

Definition np_max (a : list Z) : result Z :=
  match a with
  | [] => Raise ValueError
  | x :: a' => Ok (foldl Z.max x a')
  end.

(** [str(t)] of a timestamp.  Python prints a float ([5.0]), [pretty] an
    integer ([5]); what the storage relies on is that equal timestamps
    print alike and different ones differently. *)
Definition str (t : Z) : string := pretty t.

(** [series >= x] and [series <= x] on a column with NaN cells, [m1 & m2],
    and [df[mask]]. *)
Definition series_ge (col : list (option Z)) (x : Z) : list bool :=
  map (λ v, match v with Some t => x <=? t | None => false end) col.

Definition series_le (col : list (option Z)) (x : Z) : list bool :=
  map (λ v, match v with Some t => t <=? x | None => false end) col.

Definition mask_and (m1 m2 : list bool) : list bool := zip_with andb m1 m2.

Fixpoint select {A} (df : list A) (mask : list bool) : list A :=
  match df, mask with
  | r :: df', b :: mask' => if b then r :: select df' mask' else select df' mask'
  | _, _ => []
  end.

(** ** The writer *)

Definition index_columns : list string := ["filename"; "min_ts"; "max_ts"].

(** [df.to_parquet(self.output_path / filename)]: creates or overwrites. *)
Definition to_parquet (df : DataFrame) (name : string) : M ChunkWriter unit :=
  modify (λ w,
    {| _buffer := _buffer w;
       _particle_counter := _particle_counter w;
       output_path := {| files := <[name := df]> (files (output_path w));
                         index_csv := index_csv (output_path w) |} |}).

(** [csv_df.to_csv(self.index_path, mode = "a",
                   header = not self.index_path.exists(), index = False)] *)
Definition to_csv (row : IndexRow) : M ChunkWriter unit :=
  modify (λ w,
    {| _buffer := _buffer w;
       _particle_counter := _particle_counter w;
       output_path :=
         {| files := files (output_path w);
            index_csv :=
              Some match index_csv (output_path w) with
                   | None => {| csv_header := index_columns; csv_rows := [row] |}
                   | Some c => {| csv_header := csv_header c;
                                  csv_rows := csv_rows c ++ [row] |}
                   end |} |}).

Definition reset : M ChunkWriter unit :=
  modify (λ w,
    {| _buffer := empty_buffer;
       _particle_counter := 0;
       output_path := output_path w |}).

(** [ChunkWriter.__init__]: an empty buffer over the directory as it is
    ([mkdir(parents=True, exist_ok=True)] keeps what is there). *)
Definition ChunkWriter_init (d : Disk) : ChunkWriter :=
  {| _buffer := empty_buffer; _particle_counter := 0; output_path := d |}.

Definition flush : M ChunkWriter unit :=
  do w <- get;
  if decide (_particle_counter w = 0) then ret tt else
  do timestamp_buffer <- lift (np_concatenate (buf_timestamps (_buffer w)));
  do scat_buffer <- lift (np_concatenate (buf_scattering (_buffer w)));
  do spec_buffer <- lift (np_concatenate (buf_spectral (_buffer w)));
  do scat_buffer <- lift (reshape_rows scat_buffer);
  do spec_buffer <- lift (reshape_rows spec_buffer);
  let df := pd_concat_axis1 timestamp_buffer scat_buffer spec_buffer in
  do t0 <- lift (item0 timestamp_buffer);
  let name := str t0 +:+ ".parquet" in
  to_parquet df name ;;
  do lo <- lift (np_min timestamp_buffer);
  do hi <- lift (np_max timestamp_buffer);
  to_csv {| filename := name; min_ts := lo; max_ts := hi |} ;;
  reset.

(** The three [append]s and the counter update of [add_packet]. *)
Definition buffer_packet (packet : Packet) : M ChunkWriter unit :=
  modify (λ w,
    {| _buffer :=
         {| buf_timestamps := buf_timestamps (_buffer w) ++ [timestamps packet];
            buf_scattering := buf_scattering (_buffer w) ++ [scattering packet];
            buf_spectral := buf_spectral (_buffer w) ++ [spectral packet] |};
       _particle_counter := _particle_counter w + shape0 (scattering packet);
       output_path := output_path w |}).

Definition add_packet (packet : Packet) : M ChunkWriter unit :=
  buffer_packet packet ;;
  do w <- get;
  if decide (200000 ≤ _particle_counter w) then flush else ret tt.

(** The ingestion loop of [cmd_write] on the packets decoded from the
    stream. *)
Fixpoint add_packets (packets : list Packet) : M ChunkWriter unit :=
  match packets with
  | [] => ret tt
  | packet :: rest => add_packet packet ;; add_packets rest
  end.

(** [cmd_write]: a writer on the storage directory, every packet of the
    stream, then the final explicit flush. *)
Definition cmd_write (packets : list Packet) (d : Disk) : result unit * ChunkWriter :=
  (add_packets packets ;; flush) (ChunkWriter_init d).

(** ** The reader *)

(** What [cmd_read] reports and returns: ["Found nothing in that
    timestamp"] with no value, or ["Found n particles."] with the table. *)
Inductive outcome : Type :=
  | Found_nothing
  | Found (df : DataFrame).

(** The reader's state is the list of chunk files it has opened. *)
Definition read_parquet (d : Disk) (name : string) : M (list string) DataFrame :=
  λ opened,
    (match files d !! name with
     | Some df => Ok df
     | None => Raise (FileNotFoundError name)
     end, opened ++ [name]).

(** [pd.read_csv(Path(args.storage_dir) / "index.csv")] *)
Definition read_csv (d : Disk) : result Csv :=
  match index_csv d with
  | Some c => Ok c
  | None => Raise (FileNotFoundError "index.csv")
  end.

(** [index_df[name]] *)
Definition column {A} (c : Csv) (name : string) (f : IndexRow → A) : result (list A) :=
  if decide (name ∈ csv_header c) then Ok (map f (csv_rows c)) else Raise (KeyError name).

(** [row.filename] of a named tuple of the index table *)
Definition row_filename (c : Csv) (row : IndexRow) : result string :=
  if decide ("filename" ∈ csv_header c) then Ok (filename row)
  else Raise (AttributeError "filename").

(** The [for row in index_df[mask].itertuples()] loop; [results] is the
    list the loop appends to. *)
Fixpoint read_chunks (d : Disk) (c : Csv) (start_ts stop_ts : Z)
    (rows : list IndexRow) (results : list DataFrame)
  : M (list string) (list DataFrame) :=
  match rows with
  | [] => ret results
  | row :: rows' =>
      do name <- lift (row_filename c row);
      do chunk_df <- read_parquet d name;
      let time_mask :=
        mask_and (series_ge (map ts_0 chunk_df) start_ts)
                 (series_le (map ts_0 chunk_df) stop_ts) in
      read_chunks d c start_ts stop_ts rows' (results ++ [select chunk_df time_mask])
  end.

Definition cmd_read (d : Disk) (start_ts stop_ts : Z) : M (list string) outcome :=
  do index_df <- lift (read_csv d);
  do max_col <- lift (column index_df "max_ts" max_ts);
  do min_col <- lift (column index_df "min_ts" min_ts);
  let mask := mask_and (series_ge (map Some max_col) start_ts)
                       (series_le (map Some min_col) stop_ts) in
  do results <- read_chunks d index_df start_ts stop_ts
                  (select (csv_rows index_df) mask) [];
  match results with
  | [] => ret Found_nothing
  | _ => ret (Found (concat results))
  end.

(** ** Specification vocabulary *)

(** The table a flush builds from a buffer. *)
Definition chunk_table (b : Buffer) : DataFrame :=
  pd_concat_axis1 (concat (buf_timestamps b))
    (map (λ block, concat block) (concat (buf_scattering b)))
    (map (λ block, concat block) (concat (buf_spectral b))).

(** The index row of a chunk whose timestamps are [t0 :: ts]. *)
Definition chunk_entry (t0 : Z) (ts : list Z) : IndexRow :=
  {| filename := str t0 +:+ ".parquet";
     min_ts := foldl Z.min t0 ts;
     max_ts := foldl Z.max t0 ts |}.

Definition append_row (row : IndexRow) (index : option Csv) : Csv :=
  match index with
  | None => {| csv_header := index_columns; csv_rows := [row] |}
  | Some c => {| csv_header := csv_header c; csv_rows := csv_rows c ++ [row] |}
  end.

(** The writer after a flush that wrote the chunk with timestamps
    [t0 :: ts]. *)
Definition flushed (w : ChunkWriter) (t0 : Z) (ts : list Z) : ChunkWriter :=
  {| _buffer := empty_buffer;
     _particle_counter := 0;
     output_path :=
       {| files := <[filename (chunk_entry t0 ts) := chunk_table (_buffer w)]>
                     (files (output_path w));
          index_csv := Some (append_row (chunk_entry t0 ts)
                                        (index_csv (output_path w))) |} |}.

(** The writer after the appends and the counter update of [add_packet]. *)
Definition buffered (p : Packet) (w : ChunkWriter) : ChunkWriter :=
  {| _buffer :=
       {| buf_timestamps := buf_timestamps (_buffer w) ++ [timestamps p];
          buf_scattering := buf_scattering (_buffer w) ++ [scattering p];
          buf_spectral := buf_spectral (_buffer w) ++ [spectral p] |};
     _particle_counter := _particle_counter w + shape0 (scattering p);
     output_path := output_path w |}.

(** The rows of the index file, none while the file does not exist. *)
Definition index_rows (d : Disk) : list IndexRow :=
  from_option csv_rows [] (index_csv d).

(** The interval-overlap test on an index row. *)
Definition overlaps (start_ts stop_ts : Z) (r : IndexRow) : Prop :=
  start_ts ≤ max_ts r ∧ min_ts r ≤ stop_ts.

(** The per-row test: the row has a timestamp, and it lies in the window. *)
Definition in_window (start_ts stop_ts : Z) (row : Row) : Prop :=
  match ts_0 row with
  | Some t => start_ts ≤ t ∧ t ≤ stop_ts
  | None => False
  end.

#[global] Instance overlaps_dec s e r : Decision (overlaps s e r).
Proof. unfold overlaps. apply _. Defined.

#[global] Instance in_window_dec s e row : Decision (in_window s e row).
Proof. unfold in_window. destruct (ts_0 row); apply _. Defined.

(** The content of a chunk file, empty for a name the directory lacks. *)
Definition chunk (d : Disk) (name : string) : DataFrame :=
  default [] (files d !! name).

(** The rows of an outcome. *)
Definition outcome_rows (o : outcome) : DataFrame :=
  match o with
  | Found_nothing => []
  | Found df => df
  end.

(** A call on a writer, and a sequence of calls: the sequence stops at
    the first call that raises. *)
Inductive op : Type :=
  | AddPacket (p : Packet)
  | Flush.

Definition call (o : op) : M ChunkWriter unit :=
  match o with
  | AddPacket p => add_packet p
  | Flush => flush
  end.

Fixpoint calls (os : list op) : M ChunkWriter unit :=
  match os with
  | [] => ret tt
  | o :: os' => call o ;; calls os'
  end.

(** A record is shape-consistent when its three arrays share the leading
    dimension. *)
Definition shape_consistent (p : Packet) : Prop :=
  length (scattering p) = length (timestamps p) ∧
  length (spectral p) = length (timestamps p).

#[global] Instance shape_consistent_dec p : Decision (shape_consistent p).
Proof. unfold shape_consistent. apply _. Defined.

(** The two matrices of [p] are those of the data model, for blocks of
    [A] and of [B] rows by columns: neither array is empty, every
    scattering block has [A.1] rows of [A.2] cells, every spectral block
    [B.1] rows of [B.2] cells, and a block has at least one row.  For such
    arrays the list of blocks tells the trailing dimensions. *)
Definition matrices_of (A B : nat * nat) (p : Packet) : Prop :=
  (0 < A.1)%nat ∧ (0 < B.1)%nat ∧
  scattering p ≠ [] ∧ spectral p ≠ [] ∧
  Forall (λ block, item_shape block = replicate A.1 A.2) (scattering p) ∧
  Forall (λ block, item_shape block = replicate B.1 B.2) (spectral p).

(** A Record of the data model: [N ≥ 1] particles, three arrays of leading
    dimension [N], matrices of the fixed shapes [A] and [B]. *)
Definition record_of (A B : nat * nat) (p : Packet) : Prop :=
  shape_consistent p ∧ matrices_of A B p.

#[global] Instance matrices_of_dec A B p : Decision (matrices_of A B p).
Proof. unfold matrices_of. apply _. Defined.

#[global] Instance record_of_dec A B p : Decision (record_of A B p).
Proof. unfold record_of. apply _. Defined.

(** The buffer that holds the packets [ps], oldest first. *)
Definition buffer_of (ps : list Packet) : Buffer :=
  {| buf_timestamps := map timestamps ps;
     buf_scattering := map scattering ps;
     buf_spectral := map spectral ps |}.

(** The sum of the leading dimensions of the buffered scattering arrays. *)
Definition buffered_particles (b : Buffer) : Z :=
  foldr (λ a n, shape0 a + n) 0 (buf_scattering b).

(** The rows a shape-consistent record stands for: particle by particle,
    its timestamp and its two flattened blocks. *)
Definition particle_rows (p : Packet) : DataFrame :=
  zip_with (λ t ab, {| ts_0 := Some t;
                       scat := Some (concat ab.1);
                       spec := Some (concat ab.2) |})
           (timestamps p) (zip (scattering p) (spectral p)).

Definition ingested_rows (ps : list Packet) : DataFrame :=
  concat (map particle_rows ps).

(** The values of column [ts_0] that are not NaN. *)
Definition ts_column (df : DataFrame) : list Z := omap ts_0 df.

(** [m] is the least, respectively the greatest, value of [l]. *)
Definition is_min (m : Z) (l : list Z) : Prop := m ∈ l ∧ ∀ x, x ∈ l → m ≤ x.
Definition is_max (m : Z) (l : list Z) : Prop := m ∈ l ∧ ∀ x, x ∈ l → x ≤ m.

(** The counter agrees with the buffer. *)
Definition counted (w : ChunkWriter) : Prop :=
  _particle_counter w = buffered_particles (_buffer w).

(** A writer whose buffer holds Records of the data model, of one shape,
    and whose counter agrees with it. *)
Definition consistent_writer (A B : nat * nat) (w : ChunkWriter) : Prop :=
  counted w ∧ ∃ ps, Forall (record_of A B) ps ∧ _buffer w = buffer_of ps.

(** ** Concrete records *)

Module Examples.

(** One particle at time 5. *)
Definition one_at_5 : Packet :=
  {| timestamps := [5]; scattering := [[[2]]]; spectral := [[[3]]] |}.

(** Two particles, at times 5 and 7. *)
Definition two_at_5_7 : Packet :=
  {| timestamps := [5; 7];
     scattering := [[[1; 2]]; [[3; 4]]];
     spectral := [[[5]]; [[6]]] |}.

(** One particle at time 9. *)
Definition one_at_9 : Packet :=
  {| timestamps := [9]; scattering := [[[8; 8]]]; spectral := [[[9]]] |}.

(** One timestamp but two particles in both matrices. *)
Definition mismatched : Packet :=
  {| timestamps := [1];
     scattering := [[[7]]; [[8]]];
     spectral := [[[9]]; [[10]]] |}.

(** A record that reaches the threshold on its own: 200,000 particles,
    all at time 5. *)
Definition full_at_5 : Packet :=
  {| timestamps := repeat 5 (Z.to_nat 200000);
     scattering := repeat [[1]] (Z.to_nat 200000);
     spectral := repeat [[1]] (Z.to_nat 200000) |}.

(** The directory after two explicit flushes: chunk [5.parquet] with the
    particles at 5 and 7, chunk [9.parquet] with the particle at 9. *)
Definition two_chunks : Disk :=
  output_path
    (calls [AddPacket two_at_5_7; Flush; AddPacket one_at_9; Flush]
           (ChunkWriter_init empty_disk)).2.

Definition two_chunks_index : Csv :=
  {| csv_header := ["filename"; "min_ts"; "max_ts"];
     csv_rows := [ {| filename := "5.parquet"; min_ts := 5; max_ts := 7 |};
                   {| filename := "9.parquet"; min_ts := 9; max_ts := 9 |} ] |}.

(** The writer after the record of 200,000 particles: the automatic flush
    has written [5.parquet] and the first row of the index. *)
Definition after_automatic_flush : ChunkWriter :=
  (add_packet full_at_5 (ChunkWriter_init empty_disk)).2.

Definition one_chunk_index : Csv :=
  {| csv_header := ["filename"; "min_ts"; "max_ts"];
     csv_rows := [ {| filename := "5.parquet"; min_ts := 5; max_ts := 5 |} ] |}.

(** One particle at time 9 whose blocks have one cell, as those of
    [one_at_5] and [full_at_5]. *)
Definition one_cell_at_9 : Packet :=
  {| timestamps := [9]; scattering := [[[8]]]; spectral := [[[9]]] |}.

End Examples.

(** The particles of a list of records, as [add_packet] counts them. *)
Definition particles (ps : list Packet) : Z :=
  foldr (λ p n, shape0 (scattering p) + n) 0 ps.

(** Index/chunk consistency of a directory: every index row has
    [min_ts <= max_ts], and a row that is the last one to name its chunk
    file records the least and the greatest timestamp of that file. *)
Definition index_consistent (d : Disk) : Prop :=
  ∀ i e, index_rows d !! i = Some e →
    min_ts e ≤ max_ts e ∧
    (filename e ∉ map filename (drop (S i) (index_rows d)) →
     ∃ df, files d !! filename e = Some df ∧
           is_min (min_ts e) (ts_column df) ∧
           is_max (max_ts e) (ts_column df)).

(** The directory holds the rows [rows]: the index file exists as soon as
    there are rows, has the columns the writer gives it and at least one
    row; and when no two index rows share a file name, the chunk files
    read in index order make up [rows], each chunk being non-empty and
    within the range its index row records. *)
Definition stored (d : Disk) (rows : DataFrame) : Prop :=
  (index_csv d = None → rows = []) ∧
  (∀ c, index_csv d = Some c → csv_header c = index_columns ∧ csv_rows c ≠ []) ∧
  (NoDup (map filename (index_rows d)) →
   concat (map (λ r, chunk d (filename r)) (index_rows d)) = rows ∧
   Forall (λ r, is_Some (files d !! filename r) ∧
                chunk d (filename r) ≠ [] ∧
                Forall (in_window (min_ts r) (max_ts r)) (chunk d (filename r)))
          (index_rows d)).

(** The writer has taken in the records [taken]: their rows are those the
    directory holds followed by those of the buffered records, Records of
    the data model. *)
Definition taken_in (A B : nat * nat) (taken : list Packet) (w : ChunkWriter) : Prop :=
  ∃ buf flushed_rows,
    Forall (record_of A B) buf ∧
    _buffer w = buffer_of buf ∧
    counted w ∧
    stored (output_path w) flushed_rows ∧
    ingested_rows taken = flushed_rows ++ ingested_rows buf.

(** The directory can be queried: when the index file exists it has the
    writer's header, and every row names an existing chunk file. *)
Definition readable (d : Disk) : Prop :=
  ∀ c, index_csv d = Some c →
    csv_header c = index_columns ∧
    Forall (λ r, is_Some (files d !! filename r)) (csv_rows c).

(** ** Vocabulary of the further properties *)

(** No timestamp occurs in two different records of [ps]. *)
Definition distinct_times (ps : list Packet) : Prop :=
  ∀ i j p q t,
    ps !! i = Some p → ps !! j = Some q →
    t ∈ timestamps p → t ∈ timestamps q → i = j.

(** The writer has taken the records [taken]: the last ones are those in
    its buffer, and the chunk names in the index are pairwise distinct,
    each printed from a timestamp of the records before those. *)
Definition named (taken : list Packet) (w : ChunkWriter) : Prop :=
  ∃ fl buf,
    taken = fl ++ buf ∧
    _buffer w = buffer_of buf ∧
    NoDup (map filename (index_rows (output_path w))) ∧
    ∀ r, r ∈ index_rows (output_path w) →
         ∃ t, t ∈ concat (map timestamps fl) ∧ filename r = str t +:+ ".parquet".

(** The directory [d'] extends [d]: the index has kept its header and its
    rows and gained rows at the end, every file is still there, and a file
    that none of the new rows names has kept its content. *)
Definition grows (d d' : Disk) : Prop :=
  (∃ new, index_rows d' = index_rows d ++ new ∧
          ∀ name df, files d !! name = Some df →
                     name ∉ map filename new → files d' !! name = Some df) ∧
  (∀ name, is_Some (files d !! name) → is_Some (files d' !! name)) ∧
  (∀ c, index_csv d = Some c →
        ∃ c', index_csv d' = Some c' ∧ csv_header c' = csv_header c).

(** ** The wire: length-prefixed frames on a byte stream *)

(** A byte stream is what is still to be read, cut into the segments in
    which the successive reads find it: a read returns at most one segment.
    A pipe delivers non-empty segments; an empty one is a read that returns
    [b""] though more may follow. *)
Abbreviation stream := (list (list byte)) (only parsing).

(** [stream.read(k)] *)
Definition stream_read (k : nat) : M stream (list byte) :=
  λ s, match s with
       | [] => (Ok [], [])
       | seg :: rest =>
           if decide (length seg ≤ k)%nat then (Ok seg, rest)
           else (Ok (take k seg), drop k seg :: rest)
       end.

(** The [while len(data) < n] loop of [read_exact].  Every round adds at
    least one byte to [data] or returns, so [n] rounds are enough; the
    branch for no rounds left is never taken from [read_exact] (see
    [read_exact_loop_spec]). *)
Fixpoint read_exact_loop (rounds n : nat) (data : list byte) : M stream (list byte) :=
  if decide (length data < n)%nat then
    match rounds with
    | O => ret data
    | S rounds' =>
        do chunk <- stream_read (n - length data);
        match chunk with
        | [] => ret []
        | _ => read_exact_loop rounds' n (data ++ chunk)
        end
    end
  else ret data.

Definition read_exact (n : nat) : M stream (list byte) := read_exact_loop n n [].

Definition byte_to_Z (b : byte) : Z := Z.of_N (Byte.to_N b).

Definition byte_of_Z (z : Z) : byte :=
  default Byte.x00 (Byte.of_N (Z.to_N (z mod 256))).

(** [struct.unpack(">I", header)]: the big-endian value of the bytes. *)
Definition struct_unpack_I (header : list byte) : Z :=
  foldl (λ acc b, acc * 256 + byte_to_Z b) 0 header.

(** [struct.pack(">I", n)]; [None] stands for [struct.error], raised when
    [n] is not an unsigned 32-bit value. *)
Definition struct_pack_I (n : Z) : option (list byte) :=
  if decide (0 ≤ n < 2 ^ 32)
  then Some [byte_of_Z (n / 2 ^ 24); byte_of_Z (n / 2 ^ 16);
             byte_of_Z (n / 2 ^ 8); byte_of_Z n]
  else None.

(** A process that reads its standard input and owns a writer. *)
Definition on_stdin {A} (m : M stream A) : M (stream * ChunkWriter) A :=
  λ sw, let (r, s') := m sw.1 in (r, (s', sw.2)).

Definition on_writer {A} (m : M ChunkWriter A) : M (stream * ChunkWriter) A :=
  λ sw, let (r, w') := m sw.2 in (r, (sw.1, w')).

Section Pickle.

(** [pickle.loads] and [pickle.dumps] are the library's: any decoder and
    encoder of records. *)
Variable pickle_loads : list byte → result Packet.
Variable pickle_dumps : Packet → list byte.

(** [get_packet_from_stream]; the first component is [None] for the
    [b""] that signals the end of the stream. *)
Definition get_packet_from_stream : M stream (option Packet * Z) :=
  do header <- read_exact 4;
  match header with
  | [] => ret (None, 0)
  | _ =>
      let length := struct_unpack_I header in
      do payload <- read_exact (Z.to_nat length);
      match payload with
      | [] => lift (Raise ValueError)
      | _ =>
          do packet <- lift (pickle_loads payload);
          ret (Some packet, shape0 payload + 4)
      end
  end.

(** The [while True] loop of [cmd_write], with its two counters.  A round
    that goes on has taken at least five bytes from the stream, so one
    round more than the stream has bytes is enough. *)
Fixpoint write_loop (rounds : nat) (total_bytes_received packets_written : Z)
  : M (stream * ChunkWriter) (Z * Z) :=
  match rounds with
  | O => ret (packets_written, total_bytes_received)
  | S rounds' =>
      do got <- on_stdin get_packet_from_stream;
      match got.1 with
      | None => ret (packets_written, total_bytes_received)
      | Some packet =>
          on_writer (add_packet packet) ;;
          write_loop rounds' (total_bytes_received + got.2) (packets_written + 1)
      end
  end.

(** [cmd_write] on its standard input: the loop, the final flush, and the
    two numbers of the closing message, packets written and bytes
    received. *)
Definition cmd_write_stream (stdin : stream) (d : Disk)
  : result (Z * Z) * (stream * ChunkWriter) :=
  (do counts <- write_loop (S (length (concat stdin))) 0 0;
   on_writer flush ;;
   ret counts) (stdin, ChunkWriter_init d).

(** The frame the generator writes for a record: the length of the
    pickled record on four bytes, then the pickled record. *)
Definition frame (p : Packet) : option (list byte) :=
  let payload := pickle_dumps p in
  header ← struct_pack_I (shape0 payload);
  Some (header ++ payload).

End Pickle.

(** A codec for the witnesses: records without matrix cells, whose
    timestamps fit a byte each. *)
Definition tiny_packet (ts : list Z) : Packet :=
  {| timestamps := ts;
     scattering := map (λ _, []) ts;
     spectral := map (λ _, []) ts |}.

Definition tiny_dumps (p : Packet) : list byte := map byte_of_Z (timestamps p).

Definition tiny_loads (payload : list byte) : result Packet :=
  Ok (tiny_packet (map byte_to_Z payload)).

(** ** The record generator and the playground *)

(** What one call of [generate_packet] draws from its surroundings: the
    number of particles, the clock, and the cells of the two arrays. *)
Record Draw : Type := {
  draw_n : Z;
  draw_now : Z;
  draw_scattering : nat → nat → nat → Z;
  draw_spectral : nat → nat → nat → Z
}.

(** What numpy promises of the draws: [randint(1, 1001)] lies from 1 to
    1000, and [randint(low = iinfo(int32).min, high = iinfo(int32).max)]
    from the least int32 to the greatest but one. *)
Definition valid_draw (r : Draw) : Prop :=
  1 ≤ draw_n r ≤ 1000 ∧
  (∀ i j k, - 2 ^ 31 ≤ draw_scattering r i j k < 2 ^ 31 - 1) ∧
  (∀ i j k, - 2 ^ 31 ≤ draw_spectral r i j k < 2 ^ 31 - 1).

(** An array of shape [(n, rows, cols)] with the given cells. *)
Definition array3 (n rows cols : nat) (cell : nat → nat → nat → Z)
  : list (list (list Z)) :=
  map (λ i, map (λ j, map (λ k, cell i j k) (seq 0 cols)) (seq 0 rows)) (seq 0 n).

(** [generate_packet]; [np.ones(n) * now] is the array of [n] ones, each
    multiplied by the clock. *)
Definition generate_packet (r : Draw) : Packet :=
  let n := Z.to_nat (draw_n r) in
  {| timestamps := map (λ one, one * draw_now r) (repeat 1 n);
     scattering := array3 n 64 16 (draw_scattering r);
     spectral := array3 n 32 16 (draw_spectral r) |}.

Section Playground.

(** The script hands its two bounds to [cmd_read] as ISO text:
    [datetime.fromtimestamp(t, tz = timezone.utc).isoformat()], which
    [cmd_read] turns back into a timestamp with [datetime.fromisoformat]
    and [timestamp()].  The text carries whole microseconds and four-digit
    years: what comes back is the timestamp rounded to its microsecond,
    and a timestamp outside the calendar raises.  The conversion there and
    back is left open. *)
Variable via_iso : Z → result Z.

(** [playground.py]: a writer on the directory, the generated records,
    the flush, then the query from the least [min_ts] to the greatest
    [max_ts] of the index, and the [shape] of the result, an attribute
    that the [None] of an empty query lacks.  The lines that list the
    directory and print the index and the head of one chunk are left out:
    they read what the later lines read. *)
Definition playground (d : Disk) (draws : list Draw) : result DataFrame * ChunkWriter :=
  match (add_packets (map generate_packet draws) ;; flush) (ChunkWriter_init d) with
  | (Raise e, w) => (Raise e, w)
  | (Ok _, w) =>
      ((do index_df <- lift (read_csv (output_path w));
        do min_col <- lift (column index_df "min_ts" min_ts);
        do min_ts <- lift (np_min min_col);
        do max_col <- lift (column index_df "max_ts" max_ts);
        do max_ts <- lift (np_max max_col);
        do start <- lift (via_iso min_ts);
        do stop <- lift (via_iso max_ts);
        do result_df <- lift (cmd_read (output_path w) start stop []).1;
        match result_df with
        | Found_nothing => lift (Raise (AttributeError "shape"))
        | Found df => ret df
        end) w)
  end.

End Playground.

(** ** The baseline store: [basic_storage.py]

    The store the chunked one replaces: every record is pickled onto the
    end of one file, and a query loads all of it.  Its [read_exact] and
    [get_packet_from_stream] are, line for line, those above. *)

Module basic_storage.

(** [result] as a monad, for code without state. *)
#[export] Instance result_ret : MRet result := λ A a, Ok a.
#[export] Instance result_bind : MBind result :=
  λ A B k r, match r with Ok a => k a | Raise e => Raise e end.

(** [write_to_storage]: [open(output_path, "ab")] creates the file or goes
    to its end, and [pickle.dump] adds one record.  A storage file is the
    list of the records pickled into it, oldest first. *)
Definition write_to_storage (data : Packet) (output_path : string)
  : M (gmap string (list Packet)) unit :=
  modify (λ fs, <[output_path := default [] (fs !! output_path) ++ [data]]> fs).

Definition on_stdin {A} (m : M stream A) : M (stream * gmap string (list Packet)) A :=
  λ sf, let (r, s') := m sf.1 in (r, (s', sf.2)).

Definition on_files {A} (m : M (gmap string (list Packet)) A)
  : M (stream * gmap string (list Packet)) A :=
  λ sf, let (r, fs') := m sf.2 in (r, (sf.1, fs')).

Section Pickle.

Variable pickle_loads : list byte → result Packet.

(** The [while True] loop of [cmd_write]; as in the chunked store, one
    round more than the stream has bytes is enough. *)
Fixpoint write_loop (rounds : nat) (output_path : string)
    (total_bytes_received packets_written : Z)
  : M (stream * gmap string (list Packet)) (Z * Z) :=
  match rounds with
  | O => ret (packets_written, total_bytes_received)
  | S rounds' =>
      do got <- on_stdin (get_packet_from_stream pickle_loads);
      match got.1 with
      | None => ret (packets_written, total_bytes_received)
      | Some packet =>
          on_files (write_to_storage packet output_path) ;;
          write_loop rounds' output_path
                     (total_bytes_received + got.2) (packets_written + 1)
      end
  end.

(** [cmd_write] on its standard input, with the two numbers of its closing
    message, packets written and bytes received. *)
Definition cmd_write (storage_file : string) (stdin : stream)
    (fs : gmap string (list Packet))
  : result (Z * Z) * (stream * gmap string (list Packet)) :=
  write_loop (S (length (concat stdin))) storage_file 0 0 (stdin, fs).

End Pickle.

(** [ts >= x] and [ts <= x] on a numpy array *)
Definition array_ge (ts : list Z) (x : Z) : list bool := map (λ t, x <=? t) ts.
Definition array_le (ts : list Z) (x : Z) : list bool := map (λ t, t <=? x) ts.

(** [np.where(cond)]: the positions at which [cond] holds, ascending. *)
Fixpoint np_where_from (i : nat) (cond : list bool) : list nat :=
  match cond with
  | [] => []
  | b :: cond' =>
      if b then i :: np_where_from (S i) cond' else np_where_from (S i) cond'
  end.

Definition np_where (cond : list bool) : list nat := np_where_from 0 cond.

(** [a[mask]] for the positions [mask]: the rows at these positions; a
    position outside the array is an [IndexError]. *)
Fixpoint take_rows {A} (a : list A) (mask : list nat) : result (list A) :=
  match mask with
  | [] => Ok []
  | i :: mask' =>
      match a !! i with
      | None => Raise IndexError
      | Some row => rows ← take_rows a mask'; Ok (row :: rows)
      end
  end.

(** [a[-1]] *)
Definition item_last {A} (a : list A) : result A :=
  match last a with
  | Some x => Ok x
  | None => Raise IndexError
  end.

Section Calendar.

(** [datetime.fromtimestamp(t, tz = timezone.utc)], which [cmd_read] calls
    on the first and on the last timestamp for a message: it raises for a
    timestamp outside the calendar. *)
Variable fromtimestamp : Z → result unit.

(** [cmd_read]: every record of the file is loaded; the timestamps are
    returned as they are, the two matrices at the positions of the
    timestamps in the window.  [np.hstack] and [np.vstack] are
    concatenations along the first axis. *)
Definition cmd_read (storage_file : string) (fs : gmap string (list Packet))
    (start_ts stop_ts : Z) : result Packet :=
  match fs !! storage_file with
  | None => Raise (FileNotFoundError storage_file)
  | Some records =>
      let scat := map scattering records in
      let spec := map spectral records in
      ts ← np_concatenate (map timestamps records);
      first ← item0 ts;
      _ ← fromtimestamp first;
      last ← item_last ts;
      _ ← fromtimestamp last;
      let mask := np_where (mask_and (array_ge ts start_ts) (array_le ts stop_ts)) in
      scat ← np_concatenate scat;
      scat ← take_rows scat mask;
      spec ← np_concatenate spec;
      spec ← take_rows spec mask;
      Ok {| timestamps := ts; scattering := scat; spectral := spec |}
  end.

End Calendar.

End basic_storage.

(** The particles of shape-consistent arrays: timestamp, scattering block
    and spectral block, position by position. *)
Definition particle_blocks (p : Packet) : list (Z * (matrix * matrix)) :=
  zip (timestamps p) (zip (scattering p) (spectral p)).


(** ** The producer: [main] of [data_generator.py] *)

Module data_generator.

(** What the loop of [main] has done so far: the writes on its standard
    output, and its three counters. *)
Record Sent : Type := {
  stdout : list (list byte);
  total_bytes : Z;
  packet_count : Z;
  particle_count : Z
}.

Definition nothing_sent : Sent :=
  {| stdout := []; total_bytes := 0; packet_count := 0; particle_count := 0 |}.

Section Pickle.

Variable pickle_dumps : Packet → list byte.

(** The [while True] loop of [main].  [draws] are the draws of the rounds
    the process is given the time to run: when they are used up the loop
    is interrupted, between two rounds, and [main] passes over the
    interrupt (one that falls inside a round, between the two writes,
    is not modelled).  [None] is an exception that [main] does not catch:
    [struct.error] for a payload of 4 GiB or more, [IndexError] for the
    first or the last timestamp of a record without timestamps, which the
    messages print.  The rate limit only sleeps. *)
Fixpoint main_loop (max_bytes : Z) (draws : list Draw) (sent : Sent) : option Sent :=
  match draws with
  | [] => Some sent
  | r :: draws' =>
      let packet := generate_packet r in
      let payload := pickle_dumps packet in
      header ← struct_pack_I (shape0 payload);
      let sent' :=
        {| stdout := stdout sent ++ [header; payload];
           total_bytes := total_bytes sent + shape0 header + shape0 payload;
           packet_count := packet_count sent + 1;
           particle_count := particle_count sent + shape0 (timestamps packet) |} in
      _ ← (if decide (packet_count sent' = 1) then head (timestamps packet)
           else Some 0);
      if decide (0 < max_bytes ∧ max_bytes ≤ total_bytes sent') then
        _ ← last (timestamps packet); Some sent'
      else main_loop max_bytes draws' sent'
  end.

(** [main], for [max_bytes] computed from [--max-mb]; 0 is no limit. *)
Definition main (max_bytes : Z) (draws : list Draw) : option Sent :=
  main_loop max_bytes draws nothing_sent.

End Pickle.

End data_generator.

(** ** Lists *)

Lemma elem_of_concat {A} (x : A) (ls : list (list A)) :
  x ∈ concat ls ↔ ∃ l, x ∈ l ∧ l ∈ ls.
Proof.
  rewrite list_elem_of_In, in_concat. split.
  - intros (l & Hl & Hx). exists l. by rewrite !list_elem_of_In.
  - intros (l & Hx & Hl). exists l. by rewrite <- !list_elem_of_In.
Qed.

Lemma elem_of_map {A B} (f : A → B) (l : list A) (y : B) :
  y ∈ map f l ↔ ∃ x, y = f x ∧ x ∈ l.
Proof. apply list_elem_of_fmap. Qed.

(** ** What one call does *)

Lemma concat_cons_inv {A} (ls : list (list A)) x xs :
  concat ls = x :: xs → ls ≠ [].
Proof. by destruct ls. Qed.

Lemma flush_zero w :
  _particle_counter w = 0 → flush w = (Ok tt, w).
Proof.
  intros H. unfold flush, bind, get, ret.
  by destruct (decide (_particle_counter w = 0)).
Qed.

(** ** Concatenation *)

Lemma same_shape_numbers (l : list Z) : same_shape l.
Proof. destruct l as [|x l]; [done|]. simpl. by apply Forall_forall. Qed.

Lemma np_concatenate_ok `{Shaped A} (arrays : list (list A)) :
  concat arrays ≠ [] → same_shape (concat arrays) →
  np_concatenate arrays = Ok (concat arrays).
Proof.
  intros Hne Hsame. unfold np_concatenate.
  destruct arrays; [done|]. by rewrite decide_True.
Qed.

Lemma np_concatenate_numbers (arrays : list (list Z)) :
  arrays ≠ [] → np_concatenate arrays = Ok (concat arrays).
Proof.
  intros Hne. unfold np_concatenate. destruct arrays; [done|].
  rewrite decide_True; [done|apply same_shape_numbers].
Qed.

Lemma np_concatenate_inv `{Shaped A} (arrays : list (list A)) l :
  np_concatenate arrays = Ok l → l = concat arrays ∧ same_shape (concat arrays).
Proof.
  unfold np_concatenate. destruct arrays; [done|].
  case_decide; [|done]. by intros [= <-].
Qed.

Lemma np_concatenate_raises `{Shaped A} (arrays : list (list A)) e :
  np_concatenate arrays = Raise e → e = ValueError.
Proof.
  unfold np_concatenate. destruct arrays; [by intros [= <-]|].
  case_decide; [done|]. by intros [= <-].
Qed.

Lemma flush_ok w t0 ts :
  _particle_counter w ≠ 0 →
  concat (buf_timestamps (_buffer w)) = t0 :: ts →
  concat (buf_scattering (_buffer w)) ≠ [] →
  concat (buf_spectral (_buffer w)) ≠ [] →
  same_shape (concat (buf_scattering (_buffer w))) →
  same_shape (concat (buf_spectral (_buffer w))) →
  flush w = (Ok tt, flushed w t0 ts).
Proof.
  intros Hc Hts Hsc Hsp Hsame_sc Hsame_sp. unfold flush, bind, get, ret, lift.
  destruct (decide (_particle_counter w = 0)) as [|_]; [done|].
  rewrite (np_concatenate_ok (buf_timestamps (_buffer w)))
    by (rewrite ?Hts; first [done|apply same_shape_numbers]).
  rewrite (np_concatenate_ok (buf_scattering (_buffer w))) by done.
  rewrite (np_concatenate_ok (buf_spectral (_buffer w))) by done.
  unfold flushed, chunk_table, reshape_rows.
  destruct (concat (buf_scattering (_buffer w))) as [|x xs] eqn:Es; [done|].
  destruct (concat (buf_spectral (_buffer w))) as [|y ys] eqn:Ep; [done|].
  rewrite Hts. reflexivity.
Qed.

(** A flush either finds the counter at 0 and does nothing, or raises
    before it has touched the writer or the directory, or writes one chunk
    and one index row and resets the writer. *)
Lemma flush_cases w :
  (_particle_counter w = 0 ∧ flush w = (Ok tt, w)) ∨
  (_particle_counter w ≠ 0 ∧ ∃ e, flush w = (Raise e, w)) ∨
  (_particle_counter w ≠ 0 ∧ ∃ t0 ts,
      concat (buf_timestamps (_buffer w)) = t0 :: ts ∧
      flush w = (Ok tt, flushed w t0 ts)).
Proof.
  destruct (decide (_particle_counter w = 0)) as [Hc|Hc].
  { left. split; [done|]. by apply flush_zero. }
  right.
  destruct (np_concatenate (buf_timestamps (_buffer w))) as [tsb|e1] eqn:E1.
  2:{ left. split; [done|]. exists e1. unfold flush, bind, get, ret, lift.
      destruct (decide (_particle_counter w = 0)) as [|_]; [done|]. by rewrite E1. }
  destruct (np_concatenate (buf_scattering (_buffer w))) as [scb|e2] eqn:E2.
  2:{ left. split; [done|]. exists e2. unfold flush, bind, get, ret, lift.
      destruct (decide (_particle_counter w = 0)) as [|_]; [done|].
      by rewrite E1, E2. }
  destruct (np_concatenate (buf_spectral (_buffer w))) as [spb|e3] eqn:E3.
  2:{ left. split; [done|]. exists e3. unfold flush, bind, get, ret, lift.
      destruct (decide (_particle_counter w = 0)) as [|_]; [done|].
      by rewrite E1, E2, E3. }
  apply np_concatenate_inv in E1 as E1'. destruct E1' as [-> _].
  apply np_concatenate_inv in E2 as E2'. destruct E2' as [-> Hsame_sc].
  apply np_concatenate_inv in E3 as E3'. destruct E3' as [-> Hsame_sp].
  destruct (concat (buf_timestamps (_buffer w))) as [|t0 ts] eqn:Hts;
    [|destruct (decide (concat (buf_scattering (_buffer w)) = [])) as [Hsc|Hsc];
      [|destruct (decide (concat (buf_spectral (_buffer w)) = [])) as [Hsp|Hsp]]].
  4:{ right. split; [done|]. exists t0, ts. split; [done|]. by apply flush_ok. }
  all: left; split; [done|].
  all: unfold flush, bind, get, ret, lift;
    destruct (decide (_particle_counter w = 0)) as [|_]; [done|];
    rewrite E1, E2, E3; unfold reshape_rows.
  - destruct (concat (buf_scattering (_buffer w))); [by eexists|].
    destruct (concat (buf_spectral (_buffer w))); [by eexists|].
    by eexists.
  - rewrite Hsc. by eexists.
  - destruct (concat (buf_scattering (_buffer w))); [by eexists|].
    rewrite Hsp. by eexists.
Qed.

Lemma add_packet_unfold p w :
  add_packet p w =
    if decide (200000 ≤ _particle_counter w + shape0 (scattering p))
    then flush (buffered p w)
    else (Ok tt, buffered p w).
Proof.
  unfold add_packet, bind, buffer_packet, modify, get, ret. simpl.
  fold (buffered p w).
  by destruct (decide (200000 ≤ _particle_counter w + shape0 (scattering p))).
Qed.

(** ** The reader: selection by masks is filtering *)

Lemma select_overlaps s e (rows : list IndexRow) :
  select rows (mask_and (series_ge (map Some (map max_ts rows)) s)
                        (series_le (map Some (map min_ts rows)) e))
  = filter (overlaps s e) rows.
Proof.
  induction rows as [|r rows IH]; [done|].
  cbn [map series_ge series_le mask_and zip_with select].
  unfold mask_and, series_ge, series_le in IH. rewrite IH.
  rewrite filter_cons.
  destruct (decide (overlaps s e r)) as [[H1 H2]|Hn].
  - apply Z.leb_le in H1, H2. by rewrite H1, H2.
  - destruct (s <=? max_ts r) eqn:E1; [|done].
    destruct (min_ts r <=? e) eqn:E2; [|done].
    exfalso. apply Hn. split; by apply Z.leb_le.
Qed.

Lemma select_in_window s e (df : DataFrame) :
  select df (mask_and (series_ge (map ts_0 df) s) (series_le (map ts_0 df) e))
  = filter (in_window s e) df.
Proof.
  induction df as [|row df IH]; [done|].
  cbn [map series_ge series_le mask_and zip_with select].
  unfold mask_and, series_ge, series_le in IH. rewrite IH.
  rewrite filter_cons.
  destruct (decide (in_window s e row)) as [Hy|Hn];
    unfold in_window in *; destruct (ts_0 row) as [t|]; try done.
  - destruct Hy as [H1 H2]. apply Z.leb_le in H1, H2. by rewrite H1, H2.
  - destruct (s <=? t) eqn:E1; [|done].
    destruct (t <=? e) eqn:E2; [|done].
    exfalso. apply Hn. split; by apply Z.leb_le.
Qed.

(** The loop over the selected index rows opens their files one after the
    other and appends the filtered tables. *)
Lemma read_chunks_ok d c s e rows results opened :
  "filename" ∈ csv_header c →
  Forall (λ r, is_Some (files d !! filename r)) rows →
  read_chunks d c s e rows results opened =
    (Ok (results ++ map (λ r, filter (in_window s e) (chunk d (filename r))) rows),
     opened ++ map filename rows).
Proof.
  intros Hcol Hall. revert results opened.
  induction Hall as [|r rows [df Hdf] _ IH]; intros results opened; simpl.
  { unfold ret. by rewrite !app_nil_r. }
  unfold bind, lift, row_filename, read_parquet.
  destruct (decide ("filename" ∈ csv_header c)); [|done].
  rewrite Hdf. rewrite IH. unfold chunk. rewrite Hdf. simpl.
  rewrite select_in_window. by rewrite <- !app_assoc.
Qed.

(** A selected row whose chunk file is missing aborts the query. *)
Lemma read_chunks_missing d c s e r rows results opened :
  "filename" ∈ csv_header c →
  files d !! filename r = None →
  read_chunks d c s e (r :: rows) results opened =
    (Raise (FileNotFoundError (filename r)), opened ++ [filename r]).
Proof.
  intros Hcol Hnone. simpl. unfold bind, lift, row_filename, read_parquet.
  destruct (decide ("filename" ∈ csv_header c)); [|done].
  by rewrite Hnone.
Qed.

(** The query on a directory whose index names existing files. *)
Lemma cmd_read_ok d c s e :
  index_csv d = Some c →
  index_columns ⊆ csv_header c →
  Forall (λ r, is_Some (files d !! filename r)) (filter (overlaps s e) (csv_rows c)) →
  cmd_read d s e [] =
    (Ok match filter (overlaps s e) (csv_rows c) with
        | [] => Found_nothing
        | selected =>
            Found (concat (map (λ r, filter (in_window s e) (chunk d (filename r)))
                               selected))
        end,
     map filename (filter (overlaps s e) (csv_rows c))).
Proof.
  intros Hidx Hcols Hfiles.
  assert ("filename" ∈ csv_header c) as Hf by (apply Hcols; set_solver).
  assert ("min_ts" ∈ csv_header c) as Hmin by (apply Hcols; set_solver).
  assert ("max_ts" ∈ csv_header c) as Hmax by (apply Hcols; set_solver).
  unfold cmd_read, bind, lift, read_csv, column. rewrite Hidx.
  destruct (decide ("max_ts" ∈ csv_header c)); [|done].
  destruct (decide ("min_ts" ∈ csv_header c)); [|done].
  rewrite select_overlaps.
  rewrite read_chunks_ok by done. simpl.
  destruct (filter (overlaps s e) (csv_rows c)) as [|r sel]; done.
Qed.


(** C2. On a directory whose index file is there, with the columns the
    reader asks for, and names existing chunk files, the query opens the
    files of exactly the index rows with [max_ts >= start_ts] and
    [min_ts <= stop_ts], in index order and no other file; its rows are the
    rows of those files whose [ts_0] lies in the window, chunk after chunk
    in index order. *)
Theorem range_correctness (d : Disk) (c : Csv) (start_ts stop_ts : Z) :
  index_csv d = Some c →
  index_columns ⊆ csv_header c →
  (∀ r, r ∈ csv_rows c → start_ts ≤ max_ts r → min_ts r ≤ stop_ts →
        is_Some (files d !! filename r)) →
  ∃ o selected,
    cmd_read d start_ts stop_ts [] = (Ok o, map filename selected) ∧
    selected = filter (λ r, start_ts ≤ max_ts r ∧ min_ts r ≤ stop_ts) (csv_rows c) ∧
    outcome_rows o =
      concat (map (λ r, filter (in_window start_ts stop_ts) (chunk d (filename r)))
                  selected) ∧
    (∀ row, row ∈ outcome_rows o ↔
       ∃ r t, r ∈ csv_rows c ∧ start_ts ≤ max_ts r ∧ min_ts r ≤ stop_ts ∧
              row ∈ chunk d (filename r) ∧
              ts_0 row = Some t ∧ start_ts ≤ t ∧ t ≤ stop_ts).
Proof.
  intros Hidx Hcols Hfiles.
  assert (Forall (λ r, is_Some (files d !! filename r))
                 (filter (overlaps start_ts stop_ts) (csv_rows c))) as Hall.
  { apply Forall_forall. intros r [[H1 H2] Hr]%list_elem_of_filter. by apply Hfiles. }
  pose proof (cmd_read_ok d c start_ts stop_ts Hidx Hcols Hall) as Hread.
  eexists _, (filter (overlaps start_ts stop_ts) (csv_rows c)).
  split; [exact Hread|]. split; [done|].
  assert (outcome_rows
            match filter (overlaps start_ts stop_ts) (csv_rows c) with
            | [] => Found_nothing
            | selected =>
                Found (concat (map (λ r, filter (in_window start_ts stop_ts)
                                                (chunk d (filename r))) selected))
            end
          = concat (map (λ r, filter (in_window start_ts stop_ts)
                                     (chunk d (filename r)))
                        (filter (overlaps start_ts stop_ts) (csv_rows c)))) as Hrows.
  { by destruct (filter (overlaps start_ts stop_ts) (csv_rows c)). }
  rewrite Hrows. split; [done|].
  intros row. rewrite elem_of_concat. split.
  - intros (df & Hrow & Hdf). apply elem_of_map in Hdf as (r & -> & Hr).
    apply list_elem_of_filter in Hr as [[H1 H2] Hr].
    apply list_elem_of_filter in Hrow as [Hin Hrow].
    unfold in_window in Hin. destruct (ts_0 row) as [t|] eqn:Et; [|done].
    destruct Hin as [H3 H4]. by exists r, t.
  - intros (r & t & Hr & H1 & H2 & Hrow & Et & H3 & H4).
    exists (filter (in_window start_ts stop_ts) (chunk d (filename r))). split.
    + apply list_elem_of_filter. split; [|done]. unfold in_window. by rewrite Et.
    + apply elem_of_map. exists r. split; [done|].
      apply list_elem_of_filter. by split.
Qed.

(** The query on a directory without index file. *)
Lemma cmd_read_no_index d s e :
  index_csv d = None →
  cmd_read d s e [] = (Raise (FileNotFoundError "index.csv"), []).
Proof. intros Hidx. unfold cmd_read, bind, lift, read_csv. by rewrite Hidx. Qed.

Lemma filter_overlaps_none s e (rows : list IndexRow) :
  (∀ r, r ∈ rows → ¬ overlaps s e r) → filter (overlaps s e) rows = [].
Proof.
  intros Hnone. induction rows as [|r rows IH]; [done|].
  rewrite filter_cons_False by (apply Hnone; left).
  apply IH. intros r' Hr'. apply Hnone. by right.
Qed.

(** No row of the index overlaps the window: nothing is opened, nothing
    is found. *)
Lemma cmd_read_nothing d c s e :
  index_csv d = Some c →
  index_columns ⊆ csv_header c →
  (∀ r, r ∈ csv_rows c → ¬ overlaps s e r) →
  cmd_read d s e [] = (Ok Found_nothing, []).
Proof.
  intros Hidx Hcols Hnone.
  pose proof (filter_overlaps_none s e (csv_rows c) Hnone) as Hsel.
  rewrite (cmd_read_ok d c); [by rewrite Hsel|done|done|].
  rewrite Hsel. constructor.
Qed.

(** C8, counterexample: a writer on an empty directory has taken the
    record at time 9 and not flushed.  There is no index row, so the
    window from 0 to 4 overlaps none; the query does not come back with
    "found nothing": it raises [FileNotFoundError] for [index.csv]. *)
Lemma empty_query_counterexample :
  let d := output_path (add_packets [Examples.one_at_9] (ChunkWriter_init empty_disk)).2 in
  (∀ r, r ∈ index_rows d → ¬ (0 ≤ max_ts r ∧ min_ts r ≤ 4)) ∧
  cmd_read d 0 4 [] = (Raise (FileNotFoundError "index.csv"), []) ∧
  cmd_read d 0 4 [] ≠ (Ok Found_nothing, []).
Proof.
  intros d. split; [|split].
  - intros r Hr. by apply elem_of_nil in Hr.
  - reflexivity.
  - discriminate.
Qed.

(** C8, as amended. When the index file exists and the window overlaps no
    row of it, the query opens no chunk file and returns normally with the
    outcome "found nothing" and no rows; a failure to open a file is a
    raised exception instead: the two cannot be confused.  When the index
    file does not exist, no flush having written it, the query raises
    [FileNotFoundError]. *)
Theorem empty_query_result (d : Disk) (start_ts stop_ts : Z) :
  (∀ r, r ∈ index_rows d → ¬ (start_ts ≤ max_ts r ∧ min_ts r ≤ stop_ts)) →
  (index_csv d = None →
   cmd_read d start_ts stop_ts [] = (Raise (FileNotFoundError "index.csv"), [])) ∧
  (∀ c, index_csv d = Some c →
   index_columns ⊆ csv_header c →
   cmd_read d start_ts stop_ts [] = (Ok Found_nothing, []) ∧
   outcome_rows Found_nothing = [] ∧
   (∀ d' s' e' path opened,
      cmd_read d' s' e' [] = (Raise (FileNotFoundError path), opened) →
      (cmd_read d' s' e' []).1 ≠ (cmd_read d start_ts stop_ts []).1)).
Proof.
  intros Hnone. split; [apply cmd_read_no_index|].
  intros c Hidx Hcols.
  assert (cmd_read d start_ts stop_ts [] = (Ok Found_nothing, [])) as Hread.
  { apply (cmd_read_nothing d c); [done|done|].
    intros r Hr. apply Hnone. unfold index_rows. by rewrite Hidx. }
  split; [done|]. split; [done|].
  intros d' s' e' path opened Hfail. by rewrite Hfail, Hread.
Qed.

Lemma two_chunks_index_eq :
  index_csv Examples.two_chunks = Some Examples.two_chunks_index.
Proof. vm_compute. reflexivity. Qed.

(** Witness of [range_correctness]: the window [6, 9] on the directory
    with the chunks [5.parquet] and [9.parquet]. *)
Lemma range_correctness_witness :
  ∃ o selected,
    cmd_read Examples.two_chunks 6 9 [] = (Ok o, map filename selected) ∧
    selected = filter (λ r, 6 ≤ max_ts r ∧ min_ts r ≤ 9)
                      (csv_rows Examples.two_chunks_index) ∧
    outcome_rows o =
      concat (map (λ r, filter (in_window 6 9)
                               (chunk Examples.two_chunks (filename r)))
                  selected) ∧
    (∀ row, row ∈ outcome_rows o ↔
       ∃ r t, r ∈ csv_rows Examples.two_chunks_index ∧
              6 ≤ max_ts r ∧ min_ts r ≤ 9 ∧
              row ∈ chunk Examples.two_chunks (filename r) ∧
              ts_0 row = Some t ∧ 6 ≤ t ∧ t ≤ 9).
Proof.
  apply (range_correctness Examples.two_chunks Examples.two_chunks_index 6 9).
  - apply two_chunks_index_eq.
  - intros x Hx. exact Hx.
  - intros r Hr _ _.
    apply list_elem_of_In in Hr. simpl in Hr.
    destruct Hr as [<-|[<-|[]]]; vm_compute; eauto.
Defined.

(** Witness of [empty_query_result]: the window [0, 4] lies before both
    chunks; on the empty directory the same query raises. *)
Lemma empty_query_result_witness :
  cmd_read Examples.two_chunks 0 4 [] = (Ok Found_nothing, []) ∧
  outcome_rows Found_nothing = [] ∧
  (cmd_read empty_disk 0 4 []).1 ≠ (cmd_read Examples.two_chunks 0 4 []).1.
Proof.
  destruct (empty_query_result Examples.two_chunks 0 4) as [_ Hsome].
  - intros r Hr. unfold index_rows in Hr. rewrite two_chunks_index_eq in Hr.
    apply list_elem_of_In in Hr. simpl in Hr.
    destruct Hr as [<-|[<-|[]]]; simpl; lia.
  - destruct (Hsome Examples.two_chunks_index) as (Hread & Hrows & Hdiffer).
    + apply two_chunks_index_eq.
    + intros x Hx. exact Hx.
    + split; [exact Hread|]. split; [exact Hrows|].
      apply (Hdiffer empty_disk 0 4 "index.csv" []). reflexivity.
Defined.

(** ** The particle counter *)

Lemma buffered_particles_snoc b p :
  buffered_particles (_buffer (buffered p b)) =
    buffered_particles (_buffer b) + shape0 (scattering p).
Proof.
  unfold buffered_particles. simpl.
  induction (buf_scattering (_buffer b)) as [|a l IH]; simpl; lia.
Qed.

Lemma shape0_nonneg {A} (a : list A) : 0 ≤ shape0 a.
Proof. unfold shape0. lia. Qed.

Lemma buffered_particles_concat b :
  buffered_particles b = shape0 (concat (buf_scattering b)).
Proof.
  unfold buffered_particles, shape0.
  induction (buf_scattering b) as [|a l IH]; simpl; [done|].
  rewrite length_app. unfold shape0 in *. lia.
Qed.

Lemma counted_init d : counted (ChunkWriter_init d).
Proof. done. Qed.

Lemma counted_buffered p w : counted w → counted (buffered p w).
Proof.
  unfold counted. intros H. rewrite buffered_particles_snoc.
  simpl. by rewrite H.
Qed.

Lemma flush_counted w r w' : flush w = (r, w') → counted w → counted w'.
Proof.
  intros Hf Hw.
  destruct (flush_cases w) as [[_ H]|[[_ [e H]]|[_ (t0 & ts & _ & H)]]];
    rewrite H in Hf; by simplify_eq.
Qed.

Lemma add_packet_counted p w r w' :
  add_packet p w = (r, w') → counted w → counted w'.
Proof.
  rewrite add_packet_unfold. intros Ha Hw.
  apply (counted_buffered p) in Hw.
  case_decide; [by eapply flush_counted|by simplify_eq].
Qed.

Lemma call_counted o w r w' : call o w = (r, w') → counted w → counted w'.
Proof. destruct o; [apply add_packet_counted|apply flush_counted]. Qed.

Lemma calls_counted os w r w' : calls os w = (r, w') → counted w → counted w'.
Proof.
  revert w. induction os as [|o os IH]; intros w; simpl.
  { unfold ret. by intros [= _ <-]. }
  unfold bind. destruct (call o w) as [[[]|e] w1] eqn:Ho.
  - intros Hrest Hw. eapply IH; [done|]. by eapply call_counted.
  - intros [= _ <-] Hw. by eapply call_counted.
Qed.

Lemma calls_snoc os o w :
  calls (os ++ [o]) w =
    match calls os w with
    | (Ok _, w1) => call o w1
    | (Raise e, w1) => (Raise e, w1)
    end.
Proof.
  revert w. induction os as [|o' os IH]; intros w; simpl.
  { unfold bind, ret. by destruct (call o w) as [[[]|e] w1]. }
  unfold bind. destruct (call o' w) as [[[]|e] w1]; [apply IH|done].
Qed.

(** When [add_packet] returns, the counter is below the threshold. *)
Lemma add_packet_below p w w' :
  add_packet p w = (Ok tt, w') → _particle_counter w' < 200000.
Proof.
  rewrite add_packet_unfold. case_decide as Hc.
  - intros Hf.
    destruct (flush_cases (buffered p w))
      as [[H0 H]|[[_ [e H]]|[_ (t0 & ts & _ & H)]]];
      rewrite H in Hf; simplify_eq; simpl in *; lia.
  - intros [= <-]. simpl. lia.
Qed.

(** C9. After every call of a sequence of [add_packet] and [flush] calls on
    a fresh writer has returned, the particle counter is the sum of the
    leading dimensions of the buffered scattering arrays; and when the last
    call was an [add_packet], the counter is below 200,000. *)
Theorem counter_invariant (d : Disk) (os : list op) (w : ChunkWriter) :
  calls os (ChunkWriter_init d) = (Ok tt, w) →
  _particle_counter w = buffered_particles (_buffer w) ∧
  (∀ os' p, os = os' ++ [AddPacket p] → _particle_counter w < 200000).
Proof.
  intros Hrun. split.
  - eapply (calls_counted os); [done|apply counted_init].
  - intros os' p ->. rewrite calls_snoc in Hrun.
    destruct (calls os' (ChunkWriter_init d)) as [[[]|e] w1]; [|done].
    by eapply add_packet_below.
Qed.

(** ** Records of the data model never make a call raise *)

Lemma consistent_lengths ps :
  Forall shape_consistent ps →
  length (concat (map scattering ps)) = length (concat (map timestamps ps)) ∧
  length (concat (map spectral ps)) = length (concat (map timestamps ps)).
Proof.
  induction 1 as [|p ps [H1 H2] _ [IH1 IH2]]; simpl; [done|].
  rewrite !length_app. lia.
Qed.

Lemma records_consistent A B ps :
  Forall (record_of A B) ps → Forall shape_consistent ps.
Proof. intros Hps. eapply Forall_impl; [exact Hps|]. by intros p [Hp _]. Qed.

Lemma same_shape_all `{Shaped T} (items : list T) shape :
  Forall (λ x, item_shape x = shape) items → same_shape items.
Proof.
  destruct 1 as [|x items Hx Hitems]; [done|]. simpl.
  eapply Forall_impl; [exact Hitems|]. intros y Hy. by rewrite Hx, Hy.
Qed.

Lemma records_same_shape A B ps :
  Forall (record_of A B) ps →
  same_shape (concat (map scattering ps)) ∧ same_shape (concat (map spectral ps)).
Proof.
  intros Hps.
  split; [apply (same_shape_all _ (replicate A.1 A.2))
         |apply (same_shape_all _ (replicate B.1 B.2))];
    induction Hps as [|p ps (_ & _ & _ & _ & _ & Ha & Hb) _ IH];
    cbn [map concat]; first [done|by apply Forall_app].
Qed.

Lemma consistent_init A B d : consistent_writer A B (ChunkWriter_init d).
Proof. split; [done|]. by exists []. Qed.

Lemma consistent_buffered A B p w :
  record_of A B p → consistent_writer A B w → consistent_writer A B (buffered p w).
Proof.
  intros Hp [Hc (ps & Hps & Hb)]. split; [by apply counted_buffered|].
  exists (ps ++ [p]). split; [apply Forall_app; split; [done|by constructor]|].
  simpl. rewrite Hb. unfold buffer_of. simpl. by rewrite !map_app.
Qed.

Lemma consistent_flushed A B w t0 ts : consistent_writer A B (flushed w t0 ts).
Proof. split; [done|]. by exists []. Qed.

(** A flush of a consistent writer with a counter above 0 goes through. *)
Lemma consistent_flush A B w :
  consistent_writer A B w → _particle_counter w ≠ 0 →
  ∃ t0 ts, concat (buf_timestamps (_buffer w)) = t0 :: ts ∧
           flush w = (Ok tt, flushed w t0 ts).
Proof.
  intros [Hc (ps & Hps & Hb)] Hne.
  unfold counted in Hc. rewrite buffered_particles_concat in Hc.
  destruct (consistent_lengths ps (records_consistent A B ps Hps)) as [H1 H2].
  destruct (records_same_shape A B ps Hps) as [Hsc Hsp].
  rewrite Hb in *. simpl in *. unfold shape0 in Hc.
  destruct (concat (map timestamps ps)) as [|t0 ts] eqn:Hts.
  { simpl in *. lia. }
  exists t0, ts. split; [done|].
  apply flush_ok; rewrite ?Hb; simpl; [done|done|..|done|done];
    intros Hnil; rewrite Hnil in *; simpl in *; lia.
Qed.

Lemma consistent_flush_total A B w :
  consistent_writer A B w →
  ∃ w', flush w = (Ok tt, w') ∧ consistent_writer A B w' ∧ _particle_counter w' = 0.
Proof.
  intros Hw. destruct (decide (_particle_counter w = 0)) as [H0|Hne].
  - exists w. by rewrite flush_zero.
  - destruct (consistent_flush A B w Hw Hne) as (t0 & ts & _ & Hf).
    exists (flushed w t0 ts). split; [done|]. split; [apply consistent_flushed|done].
Qed.

Lemma consistent_add_packet A B p w :
  record_of A B p → consistent_writer A B w →
  ∃ w', add_packet p w = (Ok tt, w') ∧ consistent_writer A B w'.
Proof.
  intros Hp Hw. rewrite add_packet_unfold.
  pose proof (consistent_buffered A B p w Hp Hw) as Hb.
  case_decide.
  - destruct (consistent_flush_total A B _ Hb) as (w' & Hf & Hw' & _). eauto.
  - eauto.
Qed.

Lemma consistent_add_packets A B ps w :
  Forall (record_of A B) ps → consistent_writer A B w →
  ∃ w', add_packets ps w = (Ok tt, w') ∧ consistent_writer A B w'.
Proof.
  intros Hps. revert w. induction Hps as [|p ps Hp _ IH]; intros w Hw; simpl.
  { by exists w. }
  destruct (consistent_add_packet A B p w Hp Hw) as (w1 & Ha & Hw1).
  destruct (IH w1 Hw1) as (w' & Hr & Hw').
  exists w'. unfold bind. by rewrite Ha.
Qed.

Lemma full_at_5_consistent : shape_consistent Examples.full_at_5.
Proof.
  split; unfold Examples.full_at_5; cbn [scattering timestamps spectral];
    by rewrite !repeat_length.
Qed.

Lemma full_at_5_particles : shape0 (scattering Examples.full_at_5) = 200000.
Proof.
  unfold shape0, Examples.full_at_5. cbn [scattering].
  rewrite repeat_length. lia.
Qed.

Lemma full_at_5_record : record_of (1, 1)%nat (1, 1)%nat Examples.full_at_5.
Proof.
  split; [apply full_at_5_consistent|].
  unfold matrices_of, Examples.full_at_5. cbn [scattering spectral fst snd].
  split; [lia|]. split; [lia|]. split; [done|]. split; [done|].
  split; apply Forall_forall; intros x Hx%list_elem_of_In%repeat_spec; by subst.
Qed.

Lemma two_at_5_7_record : record_of (1, 2)%nat (1, 1)%nat Examples.two_at_5_7.
Proof. apply (bool_decide_unpack _). vm_compute. exact I. Qed.

Lemma one_at_9_record : record_of (1, 2)%nat (1, 1)%nat Examples.one_at_9.
Proof. apply (bool_decide_unpack _). vm_compute. exact I. Qed.

Lemma one_at_5_record : record_of (1, 1)%nat (1, 1)%nat Examples.one_at_5.
Proof. apply (bool_decide_unpack _). vm_compute. exact I. Qed.

Lemma one_cell_at_9_record : record_of (1, 1)%nat (1, 1)%nat Examples.one_cell_at_9.
Proof. apply (bool_decide_unpack _). vm_compute. exact I. Qed.

(** C4, counterexample: a writer that holds the record at time 9, whose
    scattering blocks have two cells, is given the record of 200,000
    particles whose blocks have one.  Both records are shape-consistent
    and the counter reaches 200,001, so the flush is called; it raises
    [ValueError] on the concatenation of the two scattering arrays, and
    the call ends with the counter at 200,001 and nothing written. *)
Lemma flush_threshold_counterexample :
  let before := add_packets [Examples.one_at_9] (ChunkWriter_init empty_disk) in
  let run := add_packet Examples.full_at_5 before.2 in
  shape_consistent Examples.one_at_9 ∧ shape_consistent Examples.full_at_5 ∧
  before.1 = Ok tt ∧
  200000 ≤ _particle_counter before.2 + shape0 (scattering Examples.full_at_5) ∧
  run.1 = Raise ValueError ∧
  _particle_counter run.2 = 200001 ∧
  output_path run.2 = empty_disk.
Proof.
  intros before run. split; [by split|]. split; [apply full_at_5_consistent|].
  split; [reflexivity|].
  split; [rewrite full_at_5_particles; vm_compute; discriminate|].
  split; [vm_compute; reflexivity|]. split; vm_compute; reflexivity.
Qed.

(** C4, as amended. Appending Records of the data model, of one shape, to
    a fresh writer never raises; when an [add_packet] brings the counter
    to 200,000 or more, the call is the flush of the writer that has
    buffered the record: it returns with the counter at 0, the buffer
    empty, one chunk written and one row added to the index. *)
Theorem flush_threshold (A B : nat * nat) (d : Disk) (ps : list Packet) (p : Packet) :
  Forall (record_of A B) ps → record_of A B p →
  ∃ w, add_packets ps (ChunkWriter_init d) = (Ok tt, w) ∧
    (200000 ≤ _particle_counter w + shape0 (scattering p) →
     ∃ w' row,
       add_packet p w = (Ok tt, w') ∧
       add_packet p w = flush (buffered p w) ∧
       _particle_counter w' = 0 ∧
       _buffer w' = empty_buffer ∧
       index_rows (output_path w') = index_rows (output_path w) ++ [row] ∧
       is_Some (files (output_path w') !! filename row)).
Proof.
  intros Hps Hp.
  destruct (consistent_add_packets A B ps _ Hps (consistent_init A B d))
    as (w & Hrun & Hw).
  exists w. split; [done|]. intros Hreach.
  rewrite add_packet_unfold. case_decide; [|lia].
  pose proof (consistent_buffered A B p w Hp Hw) as Hb.
  destruct (consistent_flush A B _ Hb) as (t0 & ts & _ & Hf).
  { simpl. lia. }
  exists (flushed (buffered p w) t0 ts), (chunk_entry t0 ts).
  rewrite Hf. repeat split; try done.
  - simpl. unfold index_rows. simpl. by destruct (index_csv (output_path w)).
  - simpl. rewrite lookup_insert_eq. by eexists.
Qed.

(** Witness of [counter_invariant]: a record, a flush, a record. *)
Lemma counter_invariant_witness :
  let os := [AddPacket Examples.two_at_5_7; Flush; AddPacket Examples.one_at_9] in
  let w := (calls os (ChunkWriter_init empty_disk)).2 in
  _particle_counter w = buffered_particles (_buffer w) ∧
  _particle_counter w < 200000.
Proof.
  intros os w.
  destruct (counter_invariant empty_disk os w) as [Hsum Hbelow].
  - vm_compute. reflexivity.
  - split; [exact Hsum|].
    apply (Hbelow [AddPacket Examples.two_at_5_7; Flush] Examples.one_at_9).
    reflexivity.
Defined.

(** Witness of [flush_threshold]: one record of 200,000 particles given to
    a fresh writer. *)
Lemma flush_threshold_witness :
  ∃ w' row,
    add_packet Examples.full_at_5 (ChunkWriter_init empty_disk) = (Ok tt, w') ∧
    add_packet Examples.full_at_5 (ChunkWriter_init empty_disk)
      = flush (buffered Examples.full_at_5 (ChunkWriter_init empty_disk)) ∧
    _particle_counter w' = 0 ∧
    _buffer w' = empty_buffer ∧
    index_rows (output_path w') = [] ++ [row] ∧
    is_Some (files (output_path w') !! filename row).
Proof.
  destruct (flush_threshold (1, 1)%nat (1, 1)%nat empty_disk [] Examples.full_at_5)
    as (w & Hrun & Hflush).
  - constructor.
  - apply full_at_5_record.
  - injection Hrun as <-. apply Hflush.
    rewrite full_at_5_particles. cbn [_particle_counter ChunkWriter_init]. lia.
Defined.

(** ** No shape validation *)




(** ** The index file *)

(** C7, counterexample: the header of the index file written by the first
    flush is [filename,min_ts,max_ts]; there is no [chunk_id] column. *)
Lemma index_header_counterexample :
  ∃ w c, cmd_write [Examples.one_at_5] empty_disk = (Ok tt, w) ∧
         index_csv (output_path w) = Some c ∧
         csv_header c = ["filename"; "min_ts"; "max_ts"] ∧
         csv_header c ≠ ["chunk_id"; "min_ts"; "max_ts"].
Proof.
  eexists _, _. split; [vm_compute; reflexivity|].
  split; [reflexivity|]. split; [reflexivity|]. discriminate.
Qed.

(** C7, as amended. A flush with the counter at 0 leaves the directory
    alone.  A flush with the counter above 0 that returns has written one
    chunk file and appended exactly one row at the end of the index: to a
    new file with header [filename,min_ts,max_ts] when there was none, to
    the rows already there and under the header already there otherwise; a
    flush that raises has changed nothing.  When the buffered records are
    Records of the data model, of one shape, the flush returns. *)
Theorem index_file_format (A B : nat * nat) (w : ChunkWriter) :
  (_particle_counter w = 0 → flush w = (Ok tt, w)) ∧
  (_particle_counter w ≠ 0 →
   ∀ r w', flush w = (r, w') →
     (∃ e, r = Raise e ∧ w' = w) ∨
     (r = Ok tt ∧ ∃ row,
        files (output_path w') = <[filename row := chunk_table (_buffer w)]>
                                   (files (output_path w)) ∧
        match index_csv (output_path w) with
        | None =>
            index_csv (output_path w') =
              Some {| csv_header := ["filename"; "min_ts"; "max_ts"];
                      csv_rows := [row] |}
        | Some c =>
            index_csv (output_path w') =
              Some {| csv_header := csv_header c; csv_rows := csv_rows c ++ [row] |}
        end)) ∧
  (consistent_writer A B w → ∃ w', flush w = (Ok tt, w')).
Proof.
  split; [apply flush_zero|]. split.
  - intros Hne r w' Hf.
    destruct (flush_cases w)
      as [[Hzero _]|[[_ [e Hfl]]|[_ (t0 & ts & _ & Hfl)]]]; [done|..];
      rewrite Hfl in Hf; simplify_eq; [left; eauto|right].
    split; [done|]. exists (chunk_entry t0 ts). split; [done|].
    simpl. by destruct (index_csv (output_path w)).
  - intros Hw. destruct (consistent_flush_total A B w Hw) as (w' & Hf & _). eauto.
Qed.

(** Witness of [index_file_format]: the first flush of a writer that holds
    one record. *)
Lemma index_file_format_witness :
  let w := buffered Examples.two_at_5_7 (ChunkWriter_init empty_disk) in
  ∃ w' row, flush w = (Ok tt, w') ∧
    files (output_path w') = <[filename row := chunk_table (_buffer w)]>
                               (files (output_path w)) ∧
    index_csv (output_path w') =
      Some {| csv_header := ["filename"; "min_ts"; "max_ts"]; csv_rows := [row] |}.
Proof.
  intros w.
  destruct (index_file_format (1, 2)%nat (1, 1)%nat w) as (_ & Hflush & Hreturns).
  destruct Hreturns as [w' Hf].
  { apply consistent_buffered; [apply two_at_5_7_record|apply consistent_init]. }
  destruct (Hflush) with (r := Ok tt) (w' := w')
    as [(e & Hraise & _)|(_ & row & Hfiles & Hindex)].
  - vm_compute. discriminate.
  - exact Hf.
  - discriminate Hraise.
  - exists w', row. split; [exact Hf|]. split; [exact Hfiles|exact Hindex].
Defined.

(** ** Reading back what was written *)

(** C1, counterexample: a record of 200,000 particles at time 5 fills the
    first chunk, which goes to [5.parquet]; the next record, one particle at
    time 5, is flushed at the end into [5.parquet] again.  The query over
    the whole span [5, 5] opens that file twice and returns the last
    particle twice: two rows for 200,001 ingested ones. *)
Lemma round_trip_counterexample :
  let ps := [Examples.full_at_5; Examples.one_at_5] in
  let last := {| ts_0 := Some 5; scat := Some [2]; spec := Some [3] |} in
  let run := cmd_write ps empty_disk in
  Forall shape_consistent ps ∧
  run.1 = Ok tt ∧
  cmd_read (output_path run.2) 5 5 []
    = (Ok (Found [last; last]), ["5.parquet"; "5.parquet"]) ∧
  ¬ [last; last] ≡ₚ ingested_rows ps.
Proof.
  intros ps last run. split; [|split; [|split]].
  - apply Forall_cons. split; [apply full_at_5_consistent|].
    apply Forall_cons. split; [by split|]. apply Forall_nil_2.
  - vm_compute. reflexivity.
  - vm_compute. reflexivity.
  - intros Hperm.
    assert ({| ts_0 := Some 5; scat := Some [1]; spec := Some [1] |}
              ∈ ingested_rows ps) as Hin.
    { apply (bool_decide_unpack _). vm_compute. exact I. }
    rewrite <- Hperm in Hin.
    apply elem_of_cons in Hin as [Heq|Hin]; [discriminate Heq|].
    apply elem_of_cons in Hin as [Heq|Hin]; [discriminate Heq|].
    by apply elem_of_nil in Hin.
Qed.

(** ** The tail of the stream *)

Lemma particles_nonneg ps : 0 ≤ particles ps.
Proof.
  induction ps as [|p ps IH]; simpl; [done|].
  pose proof (shape0_nonneg (scattering p)). lia.
Qed.

(** Records that keep the counter below the threshold are only buffered. *)
Lemma add_packets_buffered ps w :
  _particle_counter w + particles ps < 200000 →
  ∃ w', add_packets ps w = (Ok tt, w') ∧
        output_path w' = output_path w ∧
        _particle_counter w' = _particle_counter w + particles ps ∧
        _buffer w' =
          {| buf_timestamps := buf_timestamps (_buffer w) ++ map timestamps ps;
             buf_scattering := buf_scattering (_buffer w) ++ map scattering ps;
             buf_spectral := buf_spectral (_buffer w) ++ map spectral ps |}.
Proof.
  revert w. induction ps as [|p ps IH]; intros w Hlt; simpl in *.
  { exists w. rewrite !app_nil_r, Z.add_0_r. by destruct w as [[] ? ?]. }
  pose proof (particles_nonneg ps) as Hps.
  destruct (IH (buffered p w)) as (w' & Hrun & Hd & Hc & Hb); [simpl; lia|].
  exists w'. unfold bind. rewrite add_packet_unfold.
  case_decide; [lia|]. rewrite Hrun, Hd, Hc, Hb. simpl.
  rewrite <- !app_assoc. split; [done|]. split; [done|]. split; [lia|done].
Qed.

(** C5, counterexample: a writer on an empty directory is given the
    record at time 9; no automatic flush has happened, and the whole
    stream is the tail.  The directory stays empty, and the query for the
    window [9, 9] of the tail does not return an empty result: it raises
    [FileNotFoundError], there being no index file. *)
Lemma tail_durability_counterexample :
  let run := add_packets [Examples.one_at_9] (ChunkWriter_init empty_disk) in
  run.1 = Ok tt ∧
  output_path run.2 = empty_disk ∧
  buf_timestamps (_buffer run.2) = [[9]] ∧
  cmd_read (output_path run.2) 9 9 [] = (Raise (FileNotFoundError "index.csv"), []) ∧
  cmd_read (output_path run.2) 9 9 [] ≠ (Ok Found_nothing, []).
Proof. intros run. repeat split; try reflexivity. discriminate. Qed.

(** C5, as amended. Records appended while the counter stays below the
    threshold, as all records after the last automatic flush do, leave the
    storage directory as it was: no chunk file, no index row.  A query
    whose window overlaps no row of the index that is on disk finds
    nothing, though the tail is in the buffer; when no flush has written
    the index yet, the query raises [FileNotFoundError].  The explicit
    flush is what writes the tail out, as one more chunk and one more
    index row; it returns when the buffered records are Records of the
    data model, of one shape. *)
Theorem tail_durability (A B : nat * nat) (w : ChunkWriter) (tail : list Packet) :
  _particle_counter w + particles tail < 200000 →
  ∃ w', add_packets tail w = (Ok tt, w') ∧
    output_path w' = output_path w ∧
    buf_timestamps (_buffer w') = buf_timestamps (_buffer w) ++ map timestamps tail ∧
    (∀ start_ts stop_ts,
       index_csv (output_path w) = None →
       cmd_read (output_path w') start_ts stop_ts []
       = (Raise (FileNotFoundError "index.csv"), [])) ∧
    (∀ c start_ts stop_ts,
       index_csv (output_path w) = Some c →
       index_columns ⊆ csv_header c →
       (∀ r, r ∈ csv_rows c → ¬ (start_ts ≤ max_ts r ∧ min_ts r ≤ stop_ts)) →
       cmd_read (output_path w') start_ts stop_ts [] = (Ok Found_nothing, [])) ∧
    (consistent_writer A B w → Forall (record_of A B) tail →
     _particle_counter w' ≠ 0 →
     ∃ w'' row, flush w' = (Ok tt, w'') ∧
       index_rows (output_path w'') = index_rows (output_path w) ++ [row] ∧
       files (output_path w'') !! filename row = Some (chunk_table (_buffer w'))).
Proof.
  intros Hlt.
  destruct (add_packets_buffered tail w Hlt) as (w' & Hrun & Hd & Hc & Hb).
  exists w'. split; [done|]. split; [done|]. split; [by rewrite Hb|].
  split; [|split].
  - intros s e Hidx. rewrite Hd. by apply cmd_read_no_index.
  - intros c s e Hidx Hcols Hnone. rewrite Hd.
    by apply (cmd_read_nothing _ c).
  - intros Hw Htail Hne.
    destruct (consistent_add_packets A B tail w Htail Hw) as (w1 & Hrun1 & Hw1).
    rewrite Hrun in Hrun1. injection Hrun1 as <-.
    destruct (consistent_flush A B w' Hw1 Hne) as (t0 & ts & _ & Hf).
    exists (flushed w' t0 ts), (chunk_entry t0 ts). split; [done|]. split.
    + simpl. unfold index_rows. simpl. rewrite Hd.
      by destruct (index_csv (output_path w)).
    + simpl. by rewrite lookup_insert_eq.
Qed.

Lemma after_automatic_flush_index :
  index_csv (output_path Examples.after_automatic_flush)
    = Some Examples.one_chunk_index.
Proof. vm_compute. reflexivity. Qed.

Lemma after_automatic_flush_consistent A B :
  consistent_writer A B Examples.after_automatic_flush.
Proof.
  split; [vm_compute; reflexivity|]. exists []. split; [constructor|].
  vm_compute. reflexivity.
Qed.

(** Witness of [tail_durability]: after the automatic flush of the record
    of 200,000 particles at time 5, the record at time 9 is appended; the
    query for [9, 9] finds nothing, until the explicit flush has added the
    second index row. *)
Lemma tail_durability_witness :
  ∃ w', add_packets [Examples.one_at_9] Examples.after_automatic_flush = (Ok tt, w') ∧
    output_path w' = output_path Examples.after_automatic_flush ∧
    buf_timestamps (_buffer w') = [[9]] ∧
    cmd_read (output_path w') 9 9 [] = (Ok Found_nothing, []) ∧
    ∃ w'' row, flush w' = (Ok tt, w'') ∧
      index_rows (output_path w'')
        = index_rows (output_path Examples.after_automatic_flush) ++ [row] ∧
      files (output_path w'') !! filename row = Some (chunk_table (_buffer w')).
Proof.
  destruct (tail_durability (1, 2)%nat (1, 1)%nat
              Examples.after_automatic_flush [Examples.one_at_9])
    as (w' & Hrun & Hd & Hb & _ & Hread & Hflush).
  { vm_compute. reflexivity. }
  exists w'. split; [exact Hrun|]. split; [exact Hd|]. split; [|split].
  - rewrite Hb. vm_compute. reflexivity.
  - apply (Hread Examples.one_chunk_index 9 9).
    + apply after_automatic_flush_index.
    + intros x Hx. exact Hx.
    + intros r Hr. apply list_elem_of_In in Hr. simpl in Hr.
      destruct Hr as [<-|[]]. simpl. lia.
  - apply Hflush.
    + apply after_automatic_flush_consistent.
    + apply Forall_cons. split; [apply one_at_9_record|]. apply Forall_nil_2.
    + replace w' with
        (add_packets [Examples.one_at_9] Examples.after_automatic_flush).2
        by (by rewrite Hrun).
      vm_compute. discriminate.
Defined.

(** ** Index rows and the chunks they name *)

Lemma foldl_min_spec t0 ts : is_min (foldl Z.min t0 ts) (t0 :: ts).
Proof.
  revert t0. induction ts as [|t ts IH]; intros t0; simpl.
  { split; [left|]. intros x ->%list_elem_of_singleton. done. }
  destruct (IH (Z.min t0 t)) as [Hin Hle]. split.
  - apply elem_of_cons in Hin as [Heq|Hin]; [|by do 2 right].
    rewrite Heq. destruct (Z.min_spec t0 t) as [[_ ->]|[_ ->]];
      [left|right; left].
  - intros x Hx.
    assert (foldl Z.min (Z.min t0 t) ts ≤ Z.min t0 t) as Hm by (apply Hle; left).
    apply elem_of_cons in Hx as [->|Hx]; [lia|].
    apply elem_of_cons in Hx as [->|Hx]; [lia|].
    apply Hle. by right.
Qed.

Lemma foldl_max_spec t0 ts : is_max (foldl Z.max t0 ts) (t0 :: ts).
Proof.
  revert t0. induction ts as [|t ts IH]; intros t0; simpl.
  { split; [left|]. intros x ->%list_elem_of_singleton. done. }
  destruct (IH (Z.max t0 t)) as [Hin Hle]. split.
  - apply elem_of_cons in Hin as [Heq|Hin]; [|by do 2 right].
    rewrite Heq. destruct (Z.max_spec t0 t) as [[_ ->]|[_ ->]];
      [right; left|left].
  - intros x Hx.
    assert (Z.max t0 t ≤ foldl Z.max (Z.max t0 t) ts) as Hm by (apply Hle; left).
    apply elem_of_cons in Hx as [->|Hx]; [lia|].
    apply elem_of_cons in Hx as [->|Hx]; [lia|].
    apply Hle. by right.
Qed.

Lemma chunk_entry_ordered t0 ts :
  min_ts (chunk_entry t0 ts) ≤ max_ts (chunk_entry t0 ts).
Proof.
  simpl. destruct (foldl_min_spec t0 ts) as [_ Hmin].
  destruct (foldl_max_spec t0 ts) as [_ Hmax].
  etrans; [apply (Hmin t0)|apply (Hmax t0)]; left.
Qed.

(** The timestamps of an axis-1 concatenation are those that went in: the
    padding adds NaN cells only. *)
Lemma pad_zip_fst {A B} (l : list A) (k : list B) :
  omap fst (pad_zip l k) = l.
Proof.
  revert k. induction l as [|a l IH]; intros k.
  - simpl. induction k as [|b k IHk]; [done|]. simpl. apply IHk.
  - destruct k as [|b k].
    + simpl. f_equal. clear IH. induction l as [|a' l IHl]; [done|].
      simpl. by f_equal.
    + simpl. f_equal. apply IH.
Qed.

Lemma ts_column_axis1 ts sc sp : ts_column (pd_concat_axis1 ts sc sp) = ts.
Proof.
  unfold ts_column, pd_concat_axis1.
  rewrite <- (pad_zip_fst ts (pad_zip sc sp)) at 2.
  induction (pad_zip ts (pad_zip sc sp)) as [|[[t|] c] l IH];
    simpl; [done|by f_equal|done].
Qed.

Lemma ts_column_chunk_table b :
  ts_column (chunk_table b) = concat (buf_timestamps b).
Proof. apply ts_column_axis1. Qed.

Lemma index_rows_flushed w t0 ts :
  index_rows (output_path (flushed w t0 ts))
    = index_rows (output_path w) ++ [chunk_entry t0 ts].
Proof. unfold index_rows. simpl. by destruct (index_csv (output_path w)). Qed.

Lemma index_consistent_empty : index_consistent empty_disk.
Proof. intros i e Hl. done. Qed.

Lemma index_consistent_flushed w t0 ts :
  concat (buf_timestamps (_buffer w)) = t0 :: ts →
  index_consistent (output_path w) →
  index_consistent (output_path (flushed w t0 ts)).
Proof.
  intros Hts Hinv i e. rewrite index_rows_flushed.
  intros [[Hi He]|[Hi <-]]%lookup_snoc_Some.
  - destruct (Hinv i e He) as [Hord Hfile]. split; [done|].
    rewrite drop_app_le by lia. rewrite map_app.
    intros [Hlater Hnew]%not_elem_of_app.
    destruct (Hfile Hlater) as (df & Hdf & Hmin & Hmax).
    exists df. split; [|done]. simpl. rewrite lookup_insert_ne; [done|].
    intros Heq. apply Hnew. simpl. rewrite <- Heq. left.
  - split; [apply chunk_entry_ordered|]. intros _.
    exists (chunk_table (_buffer w)). split.
    + simpl. by rewrite lookup_insert_eq.
    + rewrite ts_column_chunk_table, Hts. simpl.
      split; [apply foldl_min_spec|apply foldl_max_spec].
Qed.

Lemma flush_index_consistent w r w' :
  flush w = (r, w') →
  index_consistent (output_path w) → index_consistent (output_path w').
Proof.
  intros Hf Hinv.
  destruct (flush_cases w)
    as [[_ Hfl]|[[_ [e Hfl]]|[_ (t0 & ts & Hts & Hfl)]]];
    rewrite Hfl in Hf; simplify_eq; [done|done|].
  by apply index_consistent_flushed.
Qed.

Lemma call_index_consistent o w r w' :
  call o w = (r, w') →
  index_consistent (output_path w) → index_consistent (output_path w').
Proof.
  destruct o as [p|]; simpl; [|apply flush_index_consistent].
  rewrite add_packet_unfold. case_decide.
  - intros Hf Hinv. by apply (flush_index_consistent (buffered p w) r w').
  - by intros [= _ <-].
Qed.

Lemma calls_index_consistent os w r w' :
  calls os w = (r, w') →
  index_consistent (output_path w) → index_consistent (output_path w').
Proof.
  revert w. induction os as [|o os IH]; intros w; simpl.
  { unfold ret. by intros [= _ <-]. }
  unfold bind. destruct (call o w) as [[[]|e] w1] eqn:Ho.
  - intros Hrest Hw. eapply IH; [done|]. by eapply call_index_consistent.
  - intros [= _ <-] Hw. by eapply call_index_consistent.
Qed.

(** Every directory the writer produces from the empty one can be queried
    as soon as its index file exists. *)
Lemma readable_flushed w t0 ts :
  readable (output_path w) → readable (output_path (flushed w t0 ts)).
Proof.
  intros Hinv c [= <-]. unfold append_row.
  assert (∀ rows, Forall (λ r, is_Some (files (output_path w) !! filename r)) rows →
            Forall (λ r, is_Some (files (output_path (flushed w t0 ts)) !! filename r))
                   (rows ++ [chunk_entry t0 ts])) as Hgrow.
  { intros rows Hrows. apply Forall_app. split.
    - eapply Forall_impl; [exact Hrows|]. intros r Hr. simpl.
      rewrite lookup_insert_is_Some.
      destruct (decide (filename (chunk_entry t0 ts) = filename r)); auto.
    - constructor; [|constructor]. simpl. rewrite lookup_insert_eq. by eexists. }
  destruct (index_csv (output_path w)) as [c0|] eqn:Hidx; simpl.
  - destruct (Hinv c0 Hidx) as [Hheader Hrows]. split; [done|]. by apply Hgrow.
  - split; [done|]. apply (Hgrow []). constructor.
Qed.

Lemma calls_readable os r w :
  calls os (ChunkWriter_init empty_disk) = (r, w) → readable (output_path w).
Proof.
  assert (∀ w0 r0 w1, flush w0 = (r0, w1) →
            readable (output_path w0) → readable (output_path w1)) as Hflush.
  { intros w0 r0 w1 Hf Hinv.
    destruct (flush_cases w0)
      as [[_ Hfl]|[[_ [e Hfl]]|[_ (t0 & ts & _ & Hfl)]]];
      rewrite Hfl in Hf; simplify_eq; [done|done|].
    by apply readable_flushed. }
  assert (∀ o w0 r0 w1, call o w0 = (r0, w1) →
            readable (output_path w0) → readable (output_path w1)) as Hcall.
  { intros [p|] w0 r0 w1; simpl; [|apply Hflush].
    rewrite add_packet_unfold. case_decide.
    - intros Hf Hinv. by apply (Hflush (buffered p w0) r0 w1).
    - by intros [= _ <-]. }
  assert (readable (output_path (ChunkWriter_init empty_disk))) as Hinit by done.
  revert Hinit. generalize (ChunkWriter_init empty_disk).
  induction os as [|o os IH]; intros w0 Hinit; simpl.
  { unfold ret. by intros [= _ <-]. }
  unfold bind. destruct (call o w0) as [[[]|e] w1] eqn:Ho.
  - intros Hrest. eapply IH; [|done]. by eapply Hcall.
  - intros [= _ <-]. by eapply Hcall.
Qed.

(** C6, counterexample: two particles at times 5 and 7 are flushed, then
    one particle at time 5.  Both chunks are called [5.parquet]; the first
    index row still says [max_ts = 7], but the file it names now holds the
    second chunk, whose greatest timestamp is 5. *)
Lemma index_consistency_counterexample :
  let os := [AddPacket Examples.two_at_5_7; Flush;
             AddPacket Examples.one_at_5; Flush] in
  let run := calls os (ChunkWriter_init empty_disk) in
  let first := {| filename := "5.parquet"; min_ts := 5; max_ts := 7 |} in
  run.1 = Ok tt ∧
  index_rows (output_path run.2) !! 0%nat = Some first ∧
  ∃ df, files (output_path run.2) !! filename first = Some df ∧
        ts_column df = [5] ∧
        ¬ is_max (max_ts first) (ts_column df).
Proof.
  intros os run first.
  split; [vm_compute; reflexivity|]. split; [vm_compute; reflexivity|].
  exists [{| ts_0 := Some 5; scat := Some [2]; spec := Some [3] |}].
  split; [vm_compute; reflexivity|]. split; [reflexivity|].
  intros [Hin _]. simpl in Hin.
  apply list_elem_of_singleton in Hin. discriminate Hin.
Qed.

(** C6, as amended. In every directory reached from the empty one by calls
    of [add_packet] and [flush], every index row has [min_ts <= max_ts];
    and every row that is not followed by a row with the same file name
    (every row, when no two rows share a name) names an existing chunk
    file and records the least and the greatest value of its [ts_0]
    column. *)
Theorem index_chunk_consistency (os : list op) (r : result unit) (w : ChunkWriter) :
  calls os (ChunkWriter_init empty_disk) = (r, w) →
  ∀ i e, index_rows (output_path w) !! i = Some e →
    min_ts e ≤ max_ts e ∧
    (filename e ∉ map filename (drop (S i) (index_rows (output_path w))) →
     ∃ df, files (output_path w) !! filename e = Some df ∧
           is_min (min_ts e) (ts_column df) ∧
           is_max (max_ts e) (ts_column df)).
Proof.
  intros Hrun.
  apply (calls_index_consistent os _ r w Hrun). apply index_consistent_empty.
Qed.

(** Witness of [index_chunk_consistency]: the second row of the index
    after the two colliding flushes. *)
Lemma index_chunk_consistency_witness :
  let os := [AddPacket Examples.two_at_5_7; Flush;
             AddPacket Examples.one_at_5; Flush] in
  let w := (calls os (ChunkWriter_init empty_disk)).2 in
  let second := {| filename := "5.parquet"; min_ts := 5; max_ts := 5 |} in
  min_ts second ≤ max_ts second ∧
  ∃ df, files (output_path w) !! filename second = Some df ∧
        is_min (min_ts second) (ts_column df) ∧
        is_max (max_ts second) (ts_column df).
Proof.
  intros os w second.
  destruct (index_chunk_consistency os (Ok tt) w) with (i := 1%nat) (e := second)
    as [Hord Hfile].
  - vm_compute. reflexivity.
  - vm_compute. reflexivity.
  - split; [exact Hord|]. apply Hfile.
    vm_compute. intros Hin. inversion Hin.
Defined.

(** ** Two chunks under one name *)

Lemma flush_ok_inv w w' t ts :
  _particle_counter w ≠ 0 →
  concat (buf_timestamps (_buffer w)) = t :: ts →
  flush w = (Ok tt, w') →
  w' = flushed w t ts.
Proof.
  intros Hne Hts Hf.
  destruct (flush_cases w)
    as [[H0 _]|[[_ [e Hfl]]|[_ (t0 & ts0 & Hts0 & Hfl)]]];
    [done|rewrite Hfl in Hf; done|].
  rewrite Hfl in Hf. rewrite Hts in Hts0. by simplify_eq.
Qed.

(** C10. Take two flushes on a directory that starts without index file,
    whose concatenated timestamps both begin with [t], with any buffering
    but no other flush between them.  The second flush overwrites the
    chunk file [str t + ".parquet"] of the first and appends a second
    index row with that same name; a query whose window overlaps both
    recorded ranges opens the file twice and returns the matching rows of
    the second chunk twice. *)
Theorem collision_duplication (w0 w1 w2 w3 : ChunkWriter) (t : Z) (ts1 ts2 : list Z) :
  index_csv (output_path w0) = None →
  _particle_counter w0 ≠ 0 →
  concat (buf_timestamps (_buffer w0)) = t :: ts1 →
  flush w0 = (Ok tt, w1) →
  output_path w2 = output_path w1 →
  _particle_counter w2 ≠ 0 →
  concat (buf_timestamps (_buffer w2)) = t :: ts2 →
  flush w2 = (Ok tt, w3) →
  let name := str t +:+ ".parquet" in
  let e1 := {| filename := name; min_ts := foldl Z.min t ts1;
               max_ts := foldl Z.max t ts1 |} in
  let e2 := {| filename := name; min_ts := foldl Z.min t ts2;
               max_ts := foldl Z.max t ts2 |} in
  files (output_path w1) !! name = Some (chunk_table (_buffer w0)) ∧
  files (output_path w3) !! name = Some (chunk_table (_buffer w2)) ∧
  index_rows (output_path w3) = [e1; e2] ∧
  (∀ start_ts stop_ts,
     start_ts ≤ max_ts e1 → min_ts e1 ≤ stop_ts →
     start_ts ≤ max_ts e2 → min_ts e2 ≤ stop_ts →
     cmd_read (output_path w3) start_ts stop_ts [] =
       (Ok (Found (filter (in_window start_ts stop_ts) (chunk_table (_buffer w2)) ++
                   filter (in_window start_ts stop_ts) (chunk_table (_buffer w2)))),
        [name; name])).
Proof.
  intros Hnone Hne0 Hts0 Hf0 Hd Hne2 Hts2 Hf2 name e1 e2.
  apply (flush_ok_inv _ _ t ts1) in Hf0; [|done..].
  apply (flush_ok_inv _ _ t ts2) in Hf2; [|done..].
  subst w1 w3.
  assert (index_csv (output_path (flushed w2 t ts2))
          = Some {| csv_header := index_columns; csv_rows := [e1; e2] |}) as Hidx.
  { simpl. rewrite Hd. simpl. by rewrite Hnone. }
  split; [simpl; by rewrite lookup_insert_eq|].
  split; [simpl; by rewrite lookup_insert_eq|].
  split; [unfold index_rows; by rewrite Hidx|].
  intros s e H1 H2 H3 H4.
  assert (filter (overlaps s e) [e1; e2] = [e1; e2]) as Hsel.
  { rewrite filter_cons_True by done. by rewrite filter_cons_True. }
  rewrite (cmd_read_ok _ _ s e Hidx); simpl csv_rows; rewrite ?Hsel.
  - simpl. unfold chunk. simpl. rewrite lookup_insert_eq. simpl.
    by rewrite app_nil_r.
  - done.
  - repeat constructor; simpl; rewrite lookup_insert_eq; by eexists.
Qed.

(** Witness of [collision_duplication]: the particles at 5 and 7, a flush,
    the particle at 5, a flush; the query for [5, 5]. *)
Lemma collision_duplication_witness :
  let w0 := buffered Examples.two_at_5_7 (ChunkWriter_init empty_disk) in
  let w1 := (flush w0).2 in
  let w2 := buffered Examples.one_at_5 w1 in
  let w3 := (flush w2).2 in
  let last := {| ts_0 := Some 5; scat := Some [2]; spec := Some [3] |} in
  files (output_path w1) !! "5.parquet" = Some (chunk_table (_buffer w0)) ∧
  files (output_path w3) !! "5.parquet" = Some [last] ∧
  index_rows (output_path w3) =
    [ {| filename := "5.parquet"; min_ts := 5; max_ts := 7 |};
      {| filename := "5.parquet"; min_ts := 5; max_ts := 5 |} ] ∧
  cmd_read (output_path w3) 5 5 [] =
    (Ok (Found [last; last]), ["5.parquet"; "5.parquet"]).
Proof.
  intros w0 w1 w2 w3 last.
  destruct (collision_duplication w0 w1 w2 w3 5 [7] [])
    as (Hfirst & Hsecond & Hrows & Hread).
  - reflexivity.
  - vm_compute. discriminate.
  - reflexivity.
  - vm_compute. reflexivity.
  - reflexivity.
  - vm_compute. discriminate.
  - vm_compute. reflexivity.
  - vm_compute. reflexivity.
  - split; [exact Hfirst|]. split; [exact Hsecond|]. split; [exact Hrows|].
    apply (Hread 5 5); vm_compute; discriminate.
Defined.

(** ** The rows of shape-consistent records *)

Lemma axis1_rows ts (sc sp : list (list (list Z))) :
  length sc = length ts → length sp = length ts →
  pd_concat_axis1 ts (map (λ block, concat block) sc)
                     (map (λ block, concat block) sp)
  = zip_with (λ t ab, {| ts_0 := Some t; scat := Some (concat ab.1);
                         spec := Some (concat ab.2) |})
             ts (zip sc sp).
Proof.
  unfold pd_concat_axis1.
  revert sc sp. induction ts as [|t ts IH]; intros [|a sc] [|b sp] H1 H2;
    simpl in *; try done.
  f_equal. apply IH; lia.
Qed.

Lemma ingested_rows_app ps qs :
  ingested_rows (ps ++ qs) = ingested_rows ps ++ ingested_rows qs.
Proof. unfold ingested_rows. by rewrite map_app, concat_app. Qed.

Lemma chunk_table_buffer_of ps :
  Forall shape_consistent ps → chunk_table (buffer_of ps) = ingested_rows ps.
Proof.
  intros Hps. destruct (consistent_lengths ps Hps) as [H1 H2].
  unfold chunk_table. simpl. rewrite axis1_rows by done. clear H1 H2.
  induction Hps as [|p ps [H1 H2] Hps IH]; [done|]. simpl.
  destruct (consistent_lengths ps Hps) as [H3 H4].
  rewrite (zip_with_app pair) by lia.
  rewrite zip_with_app by (rewrite length_zip_with_l_eq; lia).
  by rewrite IH.
Qed.

Lemma particle_rows_timestamp p row :
  row ∈ particle_rows p → ∃ t, ts_0 row = Some t ∧ t ∈ timestamps p.
Proof.
  unfold particle_rows.
  intros (t & ab & -> & Ht & _)%elem_of_zip_with. by exists t.
Qed.

Lemma ingested_rows_timestamp ps row :
  row ∈ ingested_rows ps →
  ∃ t, ts_0 row = Some t ∧ t ∈ concat (map timestamps ps).
Proof.
  unfold ingested_rows. intros (l & Hrow & Hl)%elem_of_concat.
  apply elem_of_map in Hl as (p & -> & Hp).
  destruct (particle_rows_timestamp p row Hrow) as (t & Ht & Hin).
  exists t. split; [done|]. apply elem_of_concat. exists (timestamps p).
  split; [done|]. apply elem_of_map. by exists p.
Qed.

(** Records without particles have no rows. *)
Lemma ingested_rows_no_particles ps :
  Forall shape_consistent ps →
  buffered_particles (buffer_of ps) = 0 → ingested_rows ps = [].
Proof.
  intros Hps Hzero. rewrite <- chunk_table_buffer_of by done.
  rewrite buffered_particles_concat in Hzero. unfold shape0 in Hzero.
  destruct (consistent_lengths ps Hps) as [H1 H2]. simpl in Hzero.
  unfold chunk_table. simpl.
  destruct (concat (map timestamps ps)) as [|t ts]; [|simpl in *; lia].
  destruct (concat (map scattering ps)) as [|a sc]; [|simpl in *; lia].
  destruct (concat (map spectral ps)) as [|b sp]; [done|simpl in *; lia].
Qed.

(** ** What the directory holds *)

Lemma stored_empty : stored empty_disk [].
Proof.
  split; [done|]. split; [done|]. intros _. split; [done|constructor].
Qed.

Lemma stored_flushed w buf rows t0 ts :
  Forall shape_consistent buf →
  _buffer w = buffer_of buf →
  concat (map timestamps buf) = t0 :: ts →
  stored (output_path w) rows →
  stored (output_path (flushed w t0 ts)) (rows ++ ingested_rows buf).
Proof.
  intros Hbuf Hb Hts (Hnone & Hsome & Hread).
  assert (chunk (output_path (flushed w t0 ts)) (filename (chunk_entry t0 ts))
          = ingested_rows buf) as Hnew.
  { unfold chunk. simpl. rewrite lookup_insert_eq. simpl.
    rewrite Hb. by apply chunk_table_buffer_of. }
  split; [done|]. split.
  - intros c [= <-]. unfold append_row.
    destruct (index_csv (output_path w)) as [c0|] eqn:Hidx; simpl; [|done].
    destruct (Hsome c0 eq_refl) as [Hheader _]. split; [done|].
    by destruct (csv_rows c0).
  - rewrite index_rows_flushed, map_app.
    intros (Hnd & Hfresh & _)%NoDup_app.
    destruct (Hread Hnd) as [Hcat Hall].
    assert (∀ r, r ∈ index_rows (output_path w) →
                 filename (chunk_entry t0 ts) ≠ filename r) as Hother.
    { intros r Hr Heq. apply (Hfresh (filename r)).
      - apply elem_of_map. by exists r.
      - rewrite <- Heq. left. }
    split.
    + rewrite map_app, concat_app. cbn [map concat]. rewrite app_nil_r, Hnew.
      f_equal. rewrite <- Hcat. f_equal. apply map_ext_in.
      intros r Hr%list_elem_of_In. unfold chunk. simpl.
      by rewrite lookup_insert_ne by by apply Hother.
    + apply Forall_app. split.
      * apply Forall_forall. intros r Hr. rewrite Forall_forall in Hall.
        destruct (Hall r Hr) as (H1 & H2 & H3). unfold chunk in *. simpl.
        by rewrite lookup_insert_ne by by apply Hother.
      * constructor; [|constructor]. cbv beta. rewrite Hnew. split; [|split].
        -- simpl. rewrite lookup_insert_eq. by eexists.
        -- intros Hnil. rewrite <- chunk_table_buffer_of in Hnil by done.
           pose proof (ts_column_chunk_table (buffer_of buf)) as Hcol.
           rewrite Hnil in Hcol. simpl in Hcol. by rewrite Hts in Hcol.
        -- apply Forall_forall. intros row Hrow.
           destruct (ingested_rows_timestamp buf row Hrow) as (t & Ht & Hin).
           rewrite Hts in Hin. unfold in_window. rewrite Ht. simpl.
           split; [by apply foldl_min_spec|by apply foldl_max_spec].
Qed.

Lemma taken_in_init A B : taken_in A B [] (ChunkWriter_init empty_disk).
Proof.
  exists [], []. split; [constructor|]. split; [done|]. split; [done|].
  split; [apply stored_empty|done].
Qed.

Lemma taken_in_consistent A B taken w :
  taken_in A B taken w → consistent_writer A B w.
Proof. intros (buf & rows & Hbuf & Hb & Hc & _). split; [done|]. by exists buf. Qed.

(** A flush leaves every row taken in so far on disk. *)
Lemma taken_in_flush A B taken w :
  taken_in A B taken w →
  ∃ w', flush w = (Ok tt, w') ∧ taken_in A B taken w' ∧
        stored (output_path w') (ingested_rows taken).
Proof.
  intros Hw. pose proof (taken_in_consistent _ _ _ _ Hw) as Hcons.
  destruct Hw as (buf & rows & Hbuf & Hb & Hc & Hst & Hrows).
  destruct (decide (_particle_counter w = 0)) as [Hzero|Hne].
  - exists w. split; [by apply flush_zero|].
    assert (ingested_rows buf = []) as Hnil.
    { apply ingested_rows_no_particles; [by eapply records_consistent|].
      unfold counted in Hc. by rewrite <- Hb, <- Hc. }
    split; [by exists buf, rows|]. by rewrite Hrows, Hnil, app_nil_r.
  - destruct (consistent_flush A B w Hcons Hne) as (t0 & ts & Hts & Hf).
    rewrite Hb in Hts. simpl in Hts.
    pose proof (stored_flushed w buf rows t0 ts
                  (records_consistent A B buf Hbuf) Hb Hts Hst) as Hst'.
    exists (flushed w t0 ts). split; [done|]. rewrite Hrows. split; [|done].
    exists [], (rows ++ ingested_rows buf).
    split; [constructor|]. split; [done|]. split; [done|]. split; [done|].
    unfold ingested_rows at 3. simpl. by rewrite app_nil_r.
Qed.

Lemma taken_in_add_packet A B taken p w :
  record_of A B p → taken_in A B taken w →
  ∃ w', add_packet p w = (Ok tt, w') ∧ taken_in A B (taken ++ [p]) w'.
Proof.
  intros Hp (buf & rows & Hbuf & Hb & Hc & Hst & Hrows).
  assert (taken_in A B (taken ++ [p]) (buffered p w)) as Hw'.
  { exists (buf ++ [p]), rows.
    split; [apply Forall_app; split; [done|by constructor]|].
    split; [simpl; rewrite Hb; unfold buffer_of; simpl; by rewrite !map_app|].
    split; [by apply counted_buffered|]. split; [done|].
    by rewrite !ingested_rows_app, Hrows, app_assoc. }
  rewrite add_packet_unfold. case_decide.
  - destruct (taken_in_flush _ _ _ _ Hw') as (w' & Hf & Htaken & _). eauto.
  - eauto.
Qed.

Lemma taken_in_add_packets A B taken ps w :
  Forall (record_of A B) ps → taken_in A B taken w →
  ∃ w', add_packets ps w = (Ok tt, w') ∧ taken_in A B (taken ++ ps) w'.
Proof.
  intros Hps. revert taken w.
  induction Hps as [|p ps Hp _ IH]; intros taken w Hw; simpl.
  { exists w. by rewrite app_nil_r. }
  destruct (taken_in_add_packet A B taken p w Hp Hw) as (w1 & Ha & Hw1).
  destruct (IH _ w1 Hw1) as (w' & Hr & Hw').
  exists w'. unfold bind. rewrite Ha. split; [done|].
  by rewrite <- app_assoc in Hw'.
Qed.

Lemma filter_all {A} (P : A → Prop) `{!∀ x, Decision (P x)} (l : list A) :
  Forall P l → filter P l = l.
Proof.
  induction 1 as [|x l Hx _ IH]; [done|].
  by rewrite filter_cons_True, IH.
Qed.

(** Records of the data model have rows. *)
Lemma records_rows A B ps :
  Forall (record_of A B) ps → ps ≠ [] → ingested_rows ps ≠ [].
Proof.
  intros Hps Hne. destruct Hps as [|p ps ([H1 H2] & _ & _ & Hsc & Hsp & _) _]; [done|].
  unfold ingested_rows, particle_rows. cbn [map concat].
  destruct (timestamps p) as [|t ts]; [by destruct (scattering p)|].
  destruct (scattering p) as [|a sc]; [done|].
  by destruct (spectral p) as [|b sp].
Qed.

(** Records that are shape-consistent but differ in the shape of their
    matrices are not ingested: the flush raises on the concatenation. *)
Lemma mixed_shapes_not_ingested :
  Forall shape_consistent [Examples.one_at_5; Examples.one_at_9] ∧
  (cmd_write [Examples.one_at_5; Examples.one_at_9] empty_disk).1 = Raise ValueError.
Proof. split; [by repeat constructor|reflexivity]. Qed.

(** C1, as amended. Records of the data model, of one shape and at least
    one of them, are ingested into an empty directory by [cmd_write]
    without error; when no two rows of the resulting index share a file
    name (no two chunks began with the same timestamp), the query over any
    window that covers all ingested timestamps returns exactly the
    ingested rows, in ingestion order, wherever the chunk boundaries
    fell. *)
Theorem round_trip (A B : nat * nat) (ps : list Packet) (lo hi : Z) :
  Forall (record_of A B) ps →
  ps ≠ [] →
  ∃ w, cmd_write ps empty_disk = (Ok tt, w) ∧
    (NoDup (map filename (index_rows (output_path w))) →
     (∀ t, t ∈ concat (map timestamps ps) → lo ≤ t ≤ hi) →
     cmd_read (output_path w) lo hi [] =
       (Ok (Found (ingested_rows ps)),
        map filename (index_rows (output_path w)))).
Proof.
  intros Hps Hsome_ps. pose proof (records_rows A B ps Hps Hsome_ps) as Hrows.
  destruct (taken_in_add_packets A B [] ps _ Hps (taken_in_init A B))
    as (w1 & Hadd & Hw1).
  destruct (taken_in_flush _ _ _ _ Hw1) as (w & Hf & _ & Hst). simpl in Hst.
  exists w. split.
  { unfold cmd_write, bind. by rewrite Hadd. }
  intros Hnd Hspan. destruct Hst as (Hnone & Hsome & Hread).
  destruct (index_csv (output_path w)) as [c|] eqn:Hidx; [|by destruct Hrows; auto].
  destruct (Hsome c eq_refl) as [Hheader Hne].
  assert (index_rows (output_path w) = csv_rows c) as Hir
    by (unfold index_rows; by rewrite Hidx).
  rewrite Hir in *. destruct (Hread Hnd) as [Hcat Hall].
  rewrite Forall_forall in Hall.
  assert (∀ r row, r ∈ csv_rows c → row ∈ chunk (output_path w) (filename r) →
                   in_window lo hi row) as Hwin.
  { intros r row Hr Hrow.
    destruct (ingested_rows_timestamp ps row) as (t & Ht & Hin).
    { rewrite <- Hcat. apply elem_of_concat. eexists. split; [done|].
      apply elem_of_map. by exists r. }
    unfold in_window. rewrite Ht. by apply Hspan. }
  assert (filter (overlaps lo hi) (csv_rows c) = csv_rows c) as Hsel.
  { apply filter_all, Forall_forall. intros r Hr.
    destruct (Hall r Hr) as (_ & Hnil & Hrange).
    destruct (chunk (output_path w) (filename r)) as [|row df] eqn:Hchunk; [done|].
    assert (in_window lo hi row) as Hrow
      by (apply (Hwin r); [done|rewrite Hchunk; left]).
    apply Forall_cons in Hrange as [Hrange _].
    unfold in_window in *. destruct (ts_0 row) as [t|]; [|done].
    unfold overlaps. lia. }
  rewrite (cmd_read_ok _ c lo hi Hidx); rewrite ?Hsel.
  - destruct (csv_rows c) as [|r rows] eqn:Hc; [done|]. rewrite <- Hc in *.
    do 3 f_equal. rewrite <- Hcat. f_equal. apply map_ext_in.
    intros r' Hr'%list_elem_of_In. apply filter_all, Forall_forall.
    intros row. by apply Hwin.
  - by rewrite Hheader.
  - apply Forall_forall. intros r Hr. by destruct (Hall r Hr).
Qed.

(** Witness of [round_trip]: the record of 200,000 particles at time 5 goes
    to [5.parquet] by the automatic flush, the particle at time 9 to
    [9.parquet] by the final flush; the query for [5, 9] returns the
    200,001 rows. *)
Lemma round_trip_witness :
  let ps := [Examples.full_at_5; Examples.one_cell_at_9] in
  ∃ w, cmd_write ps empty_disk = (Ok tt, w) ∧
       map filename (index_rows (output_path w)) = ["5.parquet"; "9.parquet"] ∧
       cmd_read (output_path w) 5 9 [] =
         (Ok (Found (ingested_rows ps)), map filename (index_rows (output_path w))).
Proof.
  intros ps.
  destruct (round_trip (1, 1)%nat (1, 1)%nat ps 5 9) as (w & Hrun & Hread).
  - apply Forall_cons. split; [apply full_at_5_record|].
    apply Forall_cons. split; [apply one_cell_at_9_record|]. apply Forall_nil_2.
  - discriminate.
  - assert (map filename (index_rows (output_path w)) = ["5.parquet"; "9.parquet"])
      as Hnames.
    { replace w with (cmd_write ps empty_disk).2 by (by rewrite Hrun).
      vm_compute. reflexivity. }
    exists w. split; [exact Hrun|]. split; [exact Hnames|]. apply Hread.
    + rewrite Hnames. apply NoDup_cons. split.
      * intros Hin. apply list_elem_of_singleton in Hin. discriminate Hin.
      * apply NoDup_singleton.
    + intros t Ht. unfold ps in Ht. cbn [map concat] in Ht.
      apply elem_of_app in Ht as [Ht|Ht].
      * unfold Examples.full_at_5 in Ht. cbn [timestamps] in Ht.
        apply list_elem_of_In, repeat_spec in Ht. lia.
      * rewrite app_nil_r in Ht. apply list_elem_of_singleton in Ht. lia.
Defined.

(** * Further properties of the storage engine *)

(** ** Queries over any window *)

Lemma concat_filter_pruned {A B} (P : B → Prop) `{!∀ y, Decision (P y)}
    (Q : A → Prop) `{!∀ x, Decision (Q x)} (f : A → list B) (l : list A) :
  (∀ x, x ∈ l → ¬ Q x → filter P (f x) = []) →
  concat (map (λ x, filter P (f x)) (filter Q l)) = filter P (concat (map f l)).
Proof.
  induction l as [|x l IH]; intros Hpruned; [done|].
  cbn [map concat]. rewrite filter_app, filter_cons.
  rewrite <- IH by (intros y Hy; apply Hpruned; by right).
  destruct (decide (Q x)) as [Hq|Hq]; [done|].
  by rewrite (Hpruned x) by (done || left).
Qed.

(** A directory that holds [rows] under pairwise distinct chunk names
    answers every window with the rows of [rows] in the window: the chunks
    the index prunes hold no such row. *)
Lemma stored_read d rows s e :
  stored d rows → rows ≠ [] →
  NoDup (map filename (index_rows d)) →
  ∃ o, cmd_read d s e [] =
         (Ok o, map filename (filter (overlaps s e) (index_rows d))) ∧
       outcome_rows o = filter (in_window s e) rows.
Proof.
  intros (Hnone & Hsome & Hread) Hrows Hnd.
  destruct (index_csv d) as [c|] eqn:Hidx; [|by destruct Hrows; auto].
  destruct (Hsome c eq_refl) as [Hheader _].
  assert (index_rows d = csv_rows c) as Hir by (unfold index_rows; by rewrite Hidx).
  rewrite Hir in *. destruct (Hread Hnd) as [Hcat Hall].
  rewrite Forall_forall in Hall.
  eexists. split.
  - apply (cmd_read_ok d c s e Hidx); [by rewrite Hheader|].
    apply Forall_forall. intros r [_ Hr]%list_elem_of_filter.
    by destruct (Hall r Hr).
  - rewrite <- Hcat.
    rewrite <- (concat_filter_pruned (in_window s e) (overlaps s e)).
    + by destruct (filter (overlaps s e) (csv_rows c)).
    + intros r Hr Hno. destruct (Hall r Hr) as (_ & _ & Hrange).
      induction Hrange as [|row df Hrow _ IH]; [done|].
      rewrite filter_cons_False; [done|].
      intros Hwin. apply Hno. unfold in_window in *.
      destruct (ts_0 row) as [t|]; [|done]. unfold overlaps. lia.
Qed.

(** X1. Records of the data model, of one shape and at least one of them,
    written into an empty directory by [cmd_write]: when the chunks have
    pairwise distinct names, the query for any window opens only the
    chunks whose recorded range overlaps the window, and returns exactly
    the ingested rows whose timestamp lies in the window, in ingestion
    order. *)
Theorem windowed_round_trip (A B : nat * nat) (ps : list Packet)
    (start_ts stop_ts : Z) :
  Forall (record_of A B) ps →
  ps ≠ [] →
  ∃ w, cmd_write ps empty_disk = (Ok tt, w) ∧
    (NoDup (map filename (index_rows (output_path w))) →
     ∃ o, cmd_read (output_path w) start_ts stop_ts [] =
            (Ok o, map filename
                     (filter (λ r, start_ts ≤ max_ts r ∧ min_ts r ≤ stop_ts)
                             (index_rows (output_path w)))) ∧
          outcome_rows o = filter (in_window start_ts stop_ts) (ingested_rows ps)).
Proof.
  intros Hps Hsome_ps. pose proof (records_rows A B ps Hps Hsome_ps) as Hrows.
  destruct (taken_in_add_packets A B [] ps _ Hps (taken_in_init A B))
    as (w1 & Hadd & Hw1).
  destruct (taken_in_flush _ _ _ _ Hw1) as (w & Hf & _ & Hst). simpl in Hst.
  exists w. split.
  { unfold cmd_write, bind. by rewrite Hadd. }
  intros Hnd. by apply stored_read.
Qed.

(** Witness of [windowed_round_trip]: the chunks [5.parquet], of 200,000
    particles, and [9.parquet]; the window [6, 9] opens the second chunk
    only. *)
Lemma windowed_round_trip_witness :
  let ps := [Examples.full_at_5; Examples.one_cell_at_9] in
  ∃ w o, cmd_write ps empty_disk = (Ok tt, w) ∧
    cmd_read (output_path w) 6 9 [] = (Ok o, ["9.parquet"]) ∧
    outcome_rows o = filter (in_window 6 9) (ingested_rows ps).
Proof.
  intros ps.
  destruct (windowed_round_trip (1, 1)%nat (1, 1)%nat ps 6 9) as (w & Hrun & Hread).
  - apply Forall_cons. split; [apply full_at_5_record|].
    apply Forall_cons. split; [apply one_cell_at_9_record|]. apply Forall_nil_2.
  - discriminate.
  - assert (index_rows (output_path w) =
              [ {| filename := "5.parquet"; min_ts := 5; max_ts := 5 |};
                {| filename := "9.parquet"; min_ts := 9; max_ts := 9 |} ]) as Hidx.
    { replace w with (cmd_write ps empty_disk).2 by (by rewrite Hrun).
      vm_compute. reflexivity. }
    destruct Hread as (o & Hread & Hrows).
    + rewrite Hidx. simpl. apply NoDup_cons. split.
      * intros Hin. apply list_elem_of_singleton in Hin. discriminate Hin.
      * apply NoDup_singleton.
    + exists w, o. split; [exact Hrun|]. split; [|exact Hrows].
      rewrite Hread, Hidx. reflexivity.
Defined.

(** ** Chunk names *)

Lemma string_length_app (s t : string) :
  String.length (s +:+ t) = (String.length s + String.length t)%nat.
Proof. induction s as [|a s IH]; simpl; [done|]. by rewrite IH. Qed.

Lemma string_app_inj_r (s1 s2 t : string) : s1 +:+ t = s2 +:+ t → s1 = s2.
Proof.
  revert s2. induction s1 as [|a s1 IH]; intros [|b s2] Heq; simpl in Heq.
  - done.
  - apply (f_equal String.length) in Heq.
    change (String.length t = S (String.length (s2 +:+ t))) in Heq.
    rewrite string_length_app in Heq. lia.
  - apply (f_equal String.length) in Heq.
    change (S (String.length (s1 +:+ t)) = String.length t) in Heq.
    rewrite string_length_app in Heq. lia.
  - change (String a (s1 +:+ t) = String b (s2 +:+ t)) in Heq.
    injection Heq as -> Heq. f_equal. by apply IH.
Qed.

(** Different leading timestamps give different chunk names. *)
Lemma chunk_name_inj (t t' : Z) :
  str t +:+ ".parquet" = str t' +:+ ".parquet" → t = t'.
Proof. intros Heq%string_app_inj_r. by apply (inj pretty). Qed.

Lemma distinct_times_disjoint fl buf t :
  distinct_times (fl ++ buf) →
  t ∈ concat (map timestamps fl) → t ∈ concat (map timestamps buf) → False.
Proof.
  intros Hdis (l1 & Ht1 & Hl1)%elem_of_concat (l2 & Ht2 & Hl2)%elem_of_concat.
  apply elem_of_map in Hl1 as (p & -> & Hp), Hl2 as (q & -> & Hq).
  apply list_elem_of_lookup in Hp as [i Hi], Hq as [j Hj].
  pose proof (lookup_lt_Some _ _ _ Hi) as Hlt.
  assert (i = (length fl + j)%nat) as Heq.
  { apply (Hdis i (length fl + j)%nat p q t); [|by rewrite lookup_app_r,
      Nat.add_comm, Nat.add_sub by lia|done..].
    by rewrite lookup_app_l. }
  lia.
Qed.

Lemma named_init : named [] (ChunkWriter_init empty_disk).
Proof.
  exists [], []. split; [done|]. split; [done|]. split; [constructor|].
  intros r Hr. by apply elem_of_nil in Hr.
Qed.

Lemma named_buffered taken p w :
  named taken w → named (taken ++ [p]) (buffered p w).
Proof.
  intros (fl & buf & -> & Hb & Hnd & Hnames).
  exists fl, (buf ++ [p]). split; [by rewrite app_assoc|].
  split; [|done]. simpl. rewrite Hb. unfold buffer_of. simpl.
  by rewrite !map_app.
Qed.

Lemma named_flush taken w r w' :
  distinct_times taken → named taken w → flush w = (r, w') → named taken w'.
Proof.
  intros Hdis Hw Hf.
  destruct (flush_cases w)
    as [[_ Hfl]|[[_ [e Hfl]]|[_ (t0 & ts & Hts & Hfl)]]];
    rewrite Hfl in Hf; simplify_eq; [done|done|].
  destruct Hw as (fl & buf & -> & Hb & Hnd & Hnames).
  rewrite Hb in Hts. simpl in Hts.
  assert (t0 ∈ concat (map timestamps buf)) as Ht0 by (rewrite Hts; left).
  exists (fl ++ buf), []. split; [by rewrite app_nil_r|]. split; [done|].
  rewrite index_rows_flushed. split.
  - rewrite map_app. apply NoDup_app. split; [done|]. split; [|apply NoDup_singleton].
    intros name (r & -> & Hr)%elem_of_map Hnew.
    apply list_elem_of_singleton in Hnew.
    destruct (Hnames r Hr) as (t & Ht & Hname). rewrite Hname in Hnew.
    apply chunk_name_inj in Hnew as ->.
    by apply (distinct_times_disjoint fl buf t0).
  - intros r [Hr|Hr%list_elem_of_singleton]%elem_of_app.
    + destruct (Hnames r Hr) as (t & Ht & Hname). exists t. split; [|done].
      rewrite map_app, concat_app. apply elem_of_app. by left.
    + subst r. exists t0. split; [|done].
      rewrite map_app, concat_app. apply elem_of_app. by right.
Qed.

Lemma distinct_times_prefix l k : distinct_times (l ++ k) → distinct_times l.
Proof.
  intros Hdis i j p q t Hi Hj. apply (Hdis i j p q t).
  - rewrite lookup_app_l; [done|]. by eapply lookup_lt_Some.
  - rewrite lookup_app_l; [done|]. by eapply lookup_lt_Some.
Qed.

Lemma named_add_packets taken ps w r w' :
  distinct_times (taken ++ ps) → named taken w →
  add_packets ps w = (r, w') →
  ∃ done, named done w' ∧ distinct_times done ∧
          (r = Ok tt → done = taken ++ ps).
Proof.
  revert taken w. induction ps as [|p ps IH]; intros taken w Hdis Hw; simpl.
  { unfold ret. intros [= <- <-]. exists taken. rewrite app_nil_r in *. eauto. }
  assert (distinct_times (taken ++ [p])) as Hdis1.
  { apply (distinct_times_prefix _ ps). by rewrite <- app_assoc. }
  pose proof (named_buffered taken p w Hw) as Hb.
  unfold bind. rewrite add_packet_unfold.
  assert (∃ r1 w1, (if decide (200000 ≤ _particle_counter w + shape0 (scattering p))
                    then flush (buffered p w) else (Ok tt, buffered p w)) = (r1, w1) ∧
                   named (taken ++ [p]) w1) as (r1 & w1 & -> & Hw1).
  { case_decide; [|eauto].
    destruct (flush (buffered p w)) as [r1 w1] eqn:Hf.
    exists r1, w1. split; [done|]. by eapply named_flush. }
  destruct r1 as [[]|e].
  - intros Hrest.
    assert (distinct_times ((taken ++ [p]) ++ ps)) as Hdis2
      by (by rewrite <- app_assoc).
    destruct (IH _ _ Hdis2 Hw1 Hrest) as (done & Hd & Hdd & Heq).
    exists done. split; [done|]. split; [done|].
    intros Hr. rewrite Heq by done. by rewrite <- app_assoc.
  - intros [= <- <-]. exists (taken ++ [p]). by split.
Qed.

(** X2. When no timestamp occurs in two different records of the stream,
    no two chunks written by [cmd_write] into an empty directory get the
    same file name: the index never names a chunk file twice, whatever the
    shapes of the records and whether or not the ingestion runs to its
    end. *)
Theorem distinct_times_distinct_names (ps : list Packet) (r : result unit)
    (w : ChunkWriter) :
  distinct_times ps →
  cmd_write ps empty_disk = (r, w) →
  NoDup (map filename (index_rows (output_path w))).
Proof.
  intros Hdis. unfold cmd_write, bind.
  destruct (add_packets ps (ChunkWriter_init empty_disk)) as [r1 w1] eqn:Hadd.
  destruct (named_add_packets [] ps _ r1 w1 Hdis named_init Hadd)
    as (done & Hw1 & Hdd & _).
  destruct r1 as [[]|e].
  - intros Hf. by destruct (named_flush done w1 r w Hdd Hw1 Hf) as (? & ? & _ & _ & ? & _).
  - intros [= <- <-]. by destruct Hw1 as (? & ? & _ & _ & ? & _).
Qed.

(** Witness of [distinct_times_distinct_names]: the record of 200,000
    particles at time 5 and the particle at time 9. *)
Lemma distinct_times_distinct_names_witness :
  let ps := [Examples.full_at_5; Examples.one_at_9] in
  NoDup (map filename (index_rows (output_path (cmd_write ps empty_disk).2))).
Proof.
  intros ps.
  apply (distinct_times_distinct_names ps (cmd_write ps empty_disk).1).
  - intros i j p q t Hi Hj Hp Hq.
    assert (∀ k x, ps !! k = Some x → ∀ u, u ∈ timestamps x →
              (k = 0%nat ∧ u = 5) ∨ (k = 1%nat ∧ u = 9)) as Hcases.
    { intros [|[|k]] x Hx u Hu.
      - change (Some Examples.full_at_5 = Some x) in Hx. injection Hx as <-.
        left. split; [done|].
        unfold Examples.full_at_5 in Hu. cbn [timestamps] in Hu.
        by apply list_elem_of_In, repeat_spec in Hu.
      - change (Some Examples.one_at_9 = Some x) in Hx. injection Hx as <-.
        right. split; [done|]. by apply list_elem_of_singleton in Hu.
      - change (None = Some x) in Hx. discriminate Hx. }
    destruct (Hcases i p Hi t Hp) as [[-> ->]|[-> ->]],
             (Hcases j q Hj _ Hq) as [[-> ?]|[-> ?]]; done.
  - generalize (cmd_write ps empty_disk). intros [r0 w0]. reflexivity.
Defined.

(** ** What a call never does to the directory *)

Lemma grows_refl d : grows d d.
Proof.
  split; [|split]; [|done|eauto].
  exists []. split; [by rewrite app_nil_r|done].
Qed.

Lemma grows_trans d1 d2 d3 : grows d1 d2 → grows d2 d3 → grows d1 d3.
Proof.
  intros ((new1 & Hi1 & Hk1) & Hf1 & Hh1) ((new2 & Hi2 & Hk2) & Hf2 & Hh2).
  split; [|split].
  - exists (new1 ++ new2). split; [by rewrite Hi2, Hi1, app_assoc|].
    intros name df Hdf. rewrite map_app. intros [H1 H2]%not_elem_of_app. eauto.
  - eauto.
  - intros c Hc. destruct (Hh1 c Hc) as (c2 & Hc2 & Hh).
    destruct (Hh2 c2 Hc2) as (c3 & Hc3 & Hh'). exists c3. split; [done|congruence].
Qed.

Lemma grows_flushed w t0 ts : grows (output_path w) (output_path (flushed w t0 ts)).
Proof.
  split; [|split].
  - exists [chunk_entry t0 ts]. split; [apply index_rows_flushed|].
    intros name df Hdf Hnew. simpl. rewrite lookup_insert_ne; [done|].
    intros Heq. apply Hnew. rewrite <- Heq. left.
  - intros name Hsome. simpl. rewrite lookup_insert_is_Some.
    destruct (decide (filename (chunk_entry t0 ts) = name)); auto.
  - intros c Hc. simpl. rewrite Hc. by eexists.
Qed.

Lemma flush_grows w r w' : flush w = (r, w') → grows (output_path w) (output_path w').
Proof.
  intros Hf.
  destruct (flush_cases w)
    as [[_ Hfl]|[[_ [e Hfl]]|[_ (t0 & ts & _ & Hfl)]]];
    rewrite Hfl in Hf; simplify_eq;
    [apply grows_refl|apply grows_refl|apply grows_flushed].
Qed.

Lemma call_grows o w r w' : call o w = (r, w') → grows (output_path w) (output_path w').
Proof.
  destruct o as [p|]; simpl; [|apply flush_grows].
  rewrite add_packet_unfold. case_decide.
  - apply (flush_grows (buffered p w)).
  - intros [= _ <-]. apply grows_refl.
Qed.

(** X3. No sequence of [add_packet] and [flush] calls, on any directory
    and whether or not a call raises, removes or reorders a row of the
    index, changes its header, or deletes a chunk file; and the content of
    a chunk file changes only if one of the rows added to the index names
    that file. *)
Theorem directory_only_grows (os : list op) (w w' : ChunkWriter) (r : result unit) :
  calls os w = (r, w') →
  (∃ new, index_rows (output_path w') = index_rows (output_path w) ++ new ∧
          ∀ name df, files (output_path w) !! name = Some df →
                     name ∉ map filename new →
                     files (output_path w') !! name = Some df) ∧
  (∀ name, is_Some (files (output_path w) !! name) →
           is_Some (files (output_path w') !! name)) ∧
  (∀ c, index_csv (output_path w) = Some c →
        ∃ c', index_csv (output_path w') = Some c' ∧ csv_header c' = csv_header c).
Proof.
  change (calls os w = (r, w') → grows (output_path w) (output_path w')).
  revert w. induction os as [|o os IH]; intros w; simpl.
  { unfold ret. intros [= _ <-]. apply grows_refl. }
  unfold bind. destruct (call o w) as [[[]|e] w1] eqn:Ho.
  - intros Hrest. eapply grows_trans; [by eapply call_grows|by apply IH].
  - intros [= _ <-]. by eapply call_grows.
Qed.

(** Witness of [directory_only_grows]: on the directory with the chunks
    [5.parquet] and [9.parquet], one more record at time 9 is flushed; the
    chunk [5.parquet] is what it was. *)
Lemma directory_only_grows_witness :
  let w := ChunkWriter_init Examples.two_chunks in
  let w' := (calls [AddPacket Examples.one_at_9; Flush] w).2 in
  index_rows (output_path w') =
    index_rows Examples.two_chunks
      ++ [ {| filename := "9.parquet"; min_ts := 9; max_ts := 9 |} ] ∧
  files (output_path w') !! "5.parquet" = files Examples.two_chunks !! "5.parquet" ∧
  is_Some (files (output_path w') !! "9.parquet").
Proof.
  intros w w'.
  destruct (directory_only_grows [AddPacket Examples.one_at_9; Flush] w w' (Ok tt))
    as ((new & Hindex & Hkept) & Hfiles & _).
  { vm_compute. reflexivity. }
  assert (new = [ {| filename := "9.parquet"; min_ts := 9; max_ts := 9 |} ]) as ->.
  { apply (inj (app (index_rows (output_path w)))). rewrite <- Hindex.
    vm_compute. reflexivity. }
  split; [exact Hindex|]. split.
  - assert (files Examples.two_chunks !! "5.parquet"
            = Some (chunk Examples.two_chunks "5.parquet")) as Hfive
      by (vm_compute; reflexivity).
    rewrite Hfive. apply Hkept; [exact Hfive|].
    intros Hin. apply list_elem_of_singleton in Hin. discriminate Hin.
  - apply Hfiles. vm_compute. by eexists.
Defined.

(** ** Nothing found, or an empty table *)






(** ** Rows without timestamp *)

Lemma read_chunks_in_window d c s e rows results opened res opened' :
  read_chunks d c s e rows results opened = (Ok res, opened') →
  Forall (Forall (in_window s e)) results →
  Forall (Forall (in_window s e)) res.
Proof.
  revert results opened. induction rows as [|r rows IH]; intros results opened; simpl.
  { unfold ret. by intros [= <- _]. }
  unfold bind, lift, row_filename, read_parquet.
  destruct (decide ("filename" ∈ csv_header c)); [|done].
  destruct (files d !! filename r) as [df|]; [|done].
  intros Hrest Hres. apply (IH _ _ Hrest).
  apply Forall_app. split; [done|]. constructor; [|constructor].
  rewrite select_in_window. apply Forall_forall.
  by intros row [Hwin _]%list_elem_of_filter.
Qed.

(** X5. Whatever the directory holds, every row that [cmd_read] returns
    has a timestamp, and it lies in the window.  A row whose [ts_0] is NaN,
    as [flush] writes for the particles of a record beyond its timestamps,
    is returned by no query. *)
Theorem query_rows_have_timestamps (d : Disk) (start_ts stop_ts : Z)
    (o : outcome) (opened : list string) :
  cmd_read d start_ts stop_ts [] = (Ok o, opened) →
  ∀ row, row ∈ outcome_rows o →
         ∃ t, ts_0 row = Some t ∧ start_ts ≤ t ∧ t ≤ stop_ts.
Proof.
  unfold cmd_read, bind, lift, read_csv, column.
  destruct (index_csv d) as [c|]; [|done].
  destruct (decide ("max_ts" ∈ csv_header c)); [|done].
  destruct (decide ("min_ts" ∈ csv_header c)); [|done].
  destruct (read_chunks _ _ _ _ _ _ _) as [[res|err] opened'] eqn:Hloop; [|done].
  pose proof (read_chunks_in_window _ _ _ _ _ _ _ _ _ Hloop (Forall_nil_2 _)) as Hres.
  intros Hout row Hrow.
  assert (row ∈ concat res) as Hin.
  { destruct res as [|df res]; unfold ret in Hout; simplify_eq; [|done].
    by apply elem_of_nil in Hrow. }
  apply elem_of_concat in Hin as (df & Hrow' & Hdf).
  rewrite Forall_forall in Hres. specialize (Hres df Hdf).
  rewrite Forall_forall in Hres. specialize (Hres row Hrow').
  unfold in_window in Hres. destruct (ts_0 row) as [t|]; [|done].
  exists t. by destruct Hres.
Qed.

(** Witness of [query_rows_have_timestamps]: the record with one timestamp
    and two particles is written as a chunk of two rows; the query for its
    time returns the first row only. *)
Lemma query_rows_have_timestamps_witness :
  let d := output_path (calls [AddPacket Examples.mismatched; Flush]
                              (ChunkWriter_init empty_disk)).2 in
  let first := {| ts_0 := Some 1; scat := Some [7]; spec := Some [9] |} in
  let second := {| ts_0 := None; scat := Some [8]; spec := Some [10] |} in
  files d !! "1.parquet" = Some [first; second] ∧
  cmd_read d 1 1 [] = (Ok (Found [first]), ["1.parquet"]) ∧
  ∀ row, row ∈ [first] → ∃ t, ts_0 row = Some t ∧ 1 ≤ t ∧ t ≤ 1.
Proof.
  intros d first second.
  assert (cmd_read d 1 1 [] = (Ok (Found [first]), ["1.parquet"])) as Hread
    by (vm_compute; reflexivity).
  split; [vm_compute; reflexivity|]. split; [exact Hread|].
  exact (query_rows_have_timestamps d 1 1 _ _ Hread).
Defined.

(** ** The rows of a chunk *)

Lemma pad_zip_lookup {A B} (l : list A) (k : list B) (i : nat) :
  pad_zip l k !! i =
    if decide (i < length l `max` length k)%nat then Some (l !! i, k !! i) else None.
Proof.
  revert k i. induction l as [|a l IH]; intros k i.
  - change (pad_zip [] k) with ((λ b : B, (@None A, Some b)) <$> k).
    rewrite list_lookup_fmap. simpl. case_decide as Hi.
    + destruct (lookup_lt_is_Some_2 k i Hi) as [b ->]. by destruct i.
    + rewrite lookup_ge_None_2 by lia. done.
  - destruct k as [|b k].
    + change (pad_zip (a :: l) []) with ((λ a : A, (Some a, @None B)) <$> (a :: l)).
      rewrite list_lookup_fmap. rewrite Nat.max_0_r. case_decide as Hi.
      * destruct (lookup_lt_is_Some_2 (a :: l) i Hi) as [a' ->]. by destruct i.
      * rewrite lookup_ge_None_2 by lia. done.
    + destruct i as [|i]; simpl; [done|]. rewrite IH.
      repeat case_decide; first [done | lia].
Qed.

Lemma pad_zip_length {A B} (l : list A) (k : list B) :
  length (pad_zip l k) = (length l `max` length k)%nat.
Proof.
  revert k. induction l as [|a l IH]; intros [|b k]; simpl;
    rewrite ?length_map, ?IH; lia.
Qed.

(** The table of a buffer, row by row: row [i] holds the [i]-th
    timestamp, the [i]-th scattering block and the [i]-th spectral block
    of the concatenated arrays, NaN where an array has no [i]-th entry. *)
Lemma chunk_table_lookup b i :
  chunk_table b !! i =
    if decide (i < length (chunk_table b))%nat then
      Some {| ts_0 := concat (buf_timestamps b) !! i;
              scat := (λ block, concat block) <$> concat (buf_scattering b) !! i;
              spec := (λ block, concat block) <$> concat (buf_spectral b) !! i |}
    else None.
Proof.
  case_decide as Hi; [|by apply lookup_ge_None_2; lia].
  unfold chunk_table, pd_concat_axis1 in *.
  rewrite length_map, pad_zip_length in Hi.
  change (map ?f ?l !! i) with ((f <$> l) !! i).
  rewrite list_lookup_fmap, pad_zip_lookup.
  case_decide; [|lia]. simpl. rewrite pad_zip_lookup. f_equal.
  change (map ?f ?l !! i) with ((f <$> l) !! i).
  rewrite !list_lookup_fmap.
  case_decide as Hj; simpl; [done|].
  rewrite ?length_map in Hj.
  rewrite (lookup_ge_None_2 (concat (buf_scattering b))) by lia.
  by rewrite (lookup_ge_None_2 (concat (buf_spectral b))) by lia.
Qed.

Lemma chunk_table_length b :
  length (chunk_table b) =
    (length (concat (buf_timestamps b))
       `max` (length (concat (buf_scattering b))
                `max` length (concat (buf_spectral b))))%nat.
Proof.
  unfold chunk_table, pd_concat_axis1.
  by rewrite length_map, !pad_zip_length, !length_map.
Qed.

(** X6. A flush that writes a chunk keeps the particles aligned across
    the buffered records: the chunk has as many rows as the longest of the
    three concatenated arrays, and row [i] holds the [i]-th timestamp, the
    [i]-th flattened scattering block and the [i]-th flattened spectral
    block, with NaN where an array is too short. *)
Theorem chunk_rows_aligned (w w' : ChunkWriter) :
  _particle_counter w ≠ 0 →
  flush w = (Ok tt, w') →
  let ts := concat (buf_timestamps (_buffer w)) in
  let sc := concat (buf_scattering (_buffer w)) in
  let sp := concat (buf_spectral (_buffer w)) in
  ∃ t0 df,
    ts !! 0%nat = Some t0 ∧
    files (output_path w') !! (str t0 +:+ ".parquet") = Some df ∧
    length df = (length ts `max` (length sc `max` length sp))%nat ∧
    ∀ i, (i < length df)%nat →
         df !! i = Some {| ts_0 := ts !! i;
                           scat := (λ block, concat block) <$> sc !! i;
                           spec := (λ block, concat block) <$> sp !! i |}.
Proof.
  intros Hne Hf ts sc sp.
  destruct (flush_cases w)
    as [[Hzero _]|[[_ [e Hfl]]|[_ (t0 & tl & Hts & Hfl)]]];
    [done|rewrite Hfl in Hf; done|].
  rewrite Hfl in Hf. injection Hf as <-.
  exists t0, (chunk_table (_buffer w)).
  split; [unfold ts; by rewrite Hts|].
  split; [simpl; by rewrite lookup_insert_eq|].
  split; [apply chunk_table_length|].
  intros i Hi. rewrite chunk_table_lookup. by case_decide.
Qed.

(** Witness of [chunk_rows_aligned]: two records of one and two particles;
    the third row of the chunk is the second particle of the second
    record. *)
Lemma chunk_rows_aligned_witness :
  let w := buffered Examples.two_at_5_7
             (buffered Examples.one_at_9 (ChunkWriter_init empty_disk)) in
  ∃ df, files (output_path (flush w).2) !! "9.parquet" = Some df ∧
        length df = 3%nat ∧
        df !! 2%nat = Some {| ts_0 := Some 7; scat := Some [3; 4]; spec := Some [6] |}.
Proof.
  intros w.
  destruct (chunk_rows_aligned w (flush w).2) as (t0 & df & Ht0 & Hfile & Hlen & Hrows).
  - vm_compute. discriminate.
  - vm_compute. reflexivity.
  - injection Ht0 as <-. exists df. split; [exact Hfile|].
    split; [exact Hlen|]. apply (Hrows 2%nat). rewrite Hlen. vm_compute. lia.
Defined.

(** ** Flushing twice *)

(** X7. A flush repeated at once changes nothing and ends as the first
    one did: after a flush that returned, the second finds the counter at
    0; after a flush that raised, the writer is as it was and the second
    raises the same exception. *)
Theorem flush_twice (w w' : ChunkWriter) (r : result unit) :
  flush w = (r, w') → flush w' = (r, w').
Proof.
  intros Hf.
  destruct (flush_cases w)
    as [[_ Hfl]|[[_ [e Hfl]]|[_ (t0 & ts & _ & Hfl)]]];
    rewrite Hfl in Hf; simplify_eq; [done|done|].
  by apply flush_zero.
Qed.

(** Witness of [flush_twice]: a writer that holds one record. *)
Lemma flush_twice_witness :
  let w := buffered Examples.two_at_5_7 (ChunkWriter_init empty_disk) in
  flush (flush w).2 = flush w ∧ index_rows (output_path (flush (flush w).2).2)
    = [ {| filename := "5.parquet"; min_ts := 5; max_ts := 7 |} ].
Proof.
  intros w. split.
  - rewrite (flush_twice w (flush w).2 (flush w).1);
      by destruct (flush w).
  - vm_compute. reflexivity.
Defined.

(** ** The size of the chunks *)

Lemma consistent_chunk_rows buf :
  Forall shape_consistent buf →
  Z.of_nat (length (chunk_table (buffer_of buf))) = buffered_particles (buffer_of buf).
Proof.
  intros Hbuf. destruct (consistent_lengths buf Hbuf) as [H1 H2].
  rewrite chunk_table_length, buffered_particles_concat. unfold shape0. simpl. lia.
Qed.

Lemma consistent_writer_chunk_rows A B w :
  consistent_writer A B w →
  Z.of_nat (length (chunk_table (_buffer w))) = _particle_counter w.
Proof.
  intros [Hc (buf & Hbuf & Hb)]. unfold counted in Hc.
  rewrite Hc, Hb. by eapply consistent_chunk_rows, records_consistent.
Qed.

Lemma add_packets_chunk_sizes A B (m : Z) ps w :
  Forall (record_of A B) ps →
  Forall (λ p, shape0 (scattering p) ≤ m) ps →
  consistent_writer A B w →
  _particle_counter w < 200000 →
  (∀ name df, files (output_path w) !! name = Some df →
              200000 ≤ Z.of_nat (length df) < 200000 + m) →
  ∃ w', add_packets ps w = (Ok tt, w') ∧
        consistent_writer A B w' ∧
        _particle_counter w' < 200000 ∧
        (∀ name df, files (output_path w') !! name = Some df →
                    200000 ≤ Z.of_nat (length df) < 200000 + m).
Proof.
  intros Hps. revert w. induction Hps as [|p ps Hp _ IH];
    intros w Hm Hw Hlt Hfiles; simpl.
  { by exists w. }
  apply Forall_cons in Hm as [Hpm Hm].
  pose proof (consistent_buffered A B p w Hp Hw) as Hb.
  unfold bind. rewrite add_packet_unfold. case_decide as Hreach.
  - destruct (consistent_flush A B _ Hb) as (t0 & ts & _ & Hf); [simpl; lia|].
    rewrite Hf. apply IH; [done|apply consistent_flushed|simpl; lia|].
    pose proof (consistent_writer_chunk_rows A B _ Hb) as Hrows.
    intros name df. simpl.
    intros [[_ <-]|[_ Hold]]%lookup_insert_Some; [|by eapply Hfiles].
    simpl in Hrows |- *. lia.
  - apply IH; [done|done|simpl; lia|done].
Qed.

(** X8. When every record is a Record of the data model, all of one
    shape, and has at most [m] particles, every chunk that the ingestion loop writes by an automatic
    flush has at least 200,000 and fewer than [200,000 + m] rows; after the
    final flush of [cmd_write] every chunk of the directory has at least
    one row and fewer than [200,000 + m]. *)
Theorem chunk_sizes (A B : nat * nat) (m : Z) (ps : list Packet) :
  0 ≤ m →
  Forall (record_of A B) ps →
  Forall (λ p, shape0 (scattering p) ≤ m) ps →
  ∃ w1 w,
    add_packets ps (ChunkWriter_init empty_disk) = (Ok tt, w1) ∧
    cmd_write ps empty_disk = (Ok tt, w) ∧
    (∀ name df, files (output_path w1) !! name = Some df →
                200000 ≤ Z.of_nat (length df) < 200000 + m) ∧
    (∀ name df, files (output_path w) !! name = Some df →
                1 ≤ Z.of_nat (length df) < 200000 + m).
Proof.
  intros Hm0 Hps Hm.
  destruct (add_packets_chunk_sizes A B m ps (ChunkWriter_init empty_disk))
    as (w1 & Hadd & Hw1 & Hlt & Hfiles); [done|done|apply consistent_init|done|done|].
  destruct (decide (_particle_counter w1 = 0)) as [Hzero|Hne].
  - exists w1, w1. split; [done|]. split.
    { unfold cmd_write, bind. rewrite Hadd. by apply flush_zero. }
    split; [done|]. intros name df Hdf. specialize (Hfiles name df Hdf). lia.
  - destruct (consistent_flush A B w1 Hw1 Hne) as (t0 & ts & _ & Hf).
    exists w1, (flushed w1 t0 ts). split; [done|]. split.
    { unfold cmd_write, bind. by rewrite Hadd. }
    split; [done|]. intros name df. simpl.
    intros [[_ <-]|[_ Hold]]%lookup_insert_Some.
    + pose proof (consistent_writer_chunk_rows A B _ Hw1) as Hrows.
      destruct Hw1 as [Hc _]. unfold counted in Hc.
      pose proof (buffered_particles_concat (_buffer w1)) as Hsum.
      pose proof (shape0_nonneg (concat (buf_scattering (_buffer w1)))). lia.
    + specialize (Hfiles name df Hold). lia.
Qed.

(** Witness of [chunk_sizes]: the record of 200,000 particles and the
    particle at time 9, with [m = 200,000]. *)
Lemma chunk_sizes_witness :
  let ps := [Examples.full_at_5; Examples.one_cell_at_9] in
  ∃ w1 w,
    add_packets ps (ChunkWriter_init empty_disk) = (Ok tt, w1) ∧
    cmd_write ps empty_disk = (Ok tt, w) ∧
    (∀ name df, files (output_path w1) !! name = Some df →
                200000 ≤ Z.of_nat (length df) < 200000 + 200000) ∧
    (∀ name df, files (output_path w) !! name = Some df →
                1 ≤ Z.of_nat (length df) < 200000 + 200000).
Proof.
  intros ps. apply (chunk_sizes (1, 1)%nat (1, 1)%nat 200000 ps).
  - lia.
  - apply Forall_cons. split; [apply full_at_5_record|].
    apply Forall_cons. split; [apply one_cell_at_9_record|]. apply Forall_nil_2.
  - apply Forall_cons. split; [rewrite full_at_5_particles; lia|].
    apply Forall_cons. split; [vm_compute; discriminate|]. apply Forall_nil_2.
Defined.

(** * The wire *)

(** ** Reading an exact number of bytes *)

Lemma read_exact_loop_done rounds n data s :
  (n ≤ length data)%nat → read_exact_loop rounds n data s = (Ok data, s).
Proof. intros Hn. destruct rounds; simpl; case_decide; first [lia | done]. Qed.

(** The loop, on any stream and with enough rounds: either it returns
    [data] extended by the next bytes of the stream up to [n] bytes in
    all, or it returns [b""], having dropped what it had read. *)
Lemma read_exact_loop_spec n s :
  ∀ data rounds, (n - length data ≤ rounds)%nat →
  ∃ out rest, read_exact_loop rounds n data s = (Ok out, rest) ∧
    ((∃ x, out = data ++ x ∧
           (length data ≤ n → length out = n)%nat ∧
           (n ≤ length data → x = [])%nat ∧
           concat s = x ++ concat rest ∧
           (Forall (λ seg, seg ≠ []) s → Forall (λ seg, seg ≠ []) rest)) ∨
     (out = [] ∧ (length data < n)%nat ∧
      ∃ lost, concat s = lost ++ concat rest ∧
              (length data + length lost < n)%nat ∧
              (Forall (λ seg, seg ≠ []) s → rest = []))).
Proof.
  induction s as [|seg tl IH]; intros data rounds Hrounds.
  - destruct (decide (n ≤ length data)%nat) as [Hdone|Hmore].
    + rewrite read_exact_loop_done by done. eexists _, _. split; [done|].
      left. exists []. rewrite app_nil_r. repeat split; auto with lia.
    + destruct rounds as [|rounds]; [lia|]. simpl.
      case_decide; [|lia]. unfold bind, stream_read, ret.
      eexists _, _. split; [done|]. right. split; [done|]. split; [lia|].
      exists []. simpl. repeat split; auto with lia.
  - destruct (decide (n ≤ length data)%nat) as [Hdone|Hmore].
    { rewrite read_exact_loop_done by done. eexists _, _. split; [done|].
      left. exists []. rewrite app_nil_r. repeat split; auto with lia. }
    destruct rounds as [|rounds]; [lia|]. simpl.
    case_decide; [|lia]. unfold bind at 1. unfold stream_read.
    destruct (decide (length seg ≤ n - length data)%nat) as [Hwhole|Hpart].
    + destruct seg as [|b seg].
      * unfold ret. eexists _, _. split; [done|]. right.
        split; [done|]. split; [lia|]. exists []. simpl.
        repeat split; auto with lia. intros Hne. by inversion Hne.
      * destruct (IH (data ++ b :: seg) rounds) as (out & rest & Hloop & Hcases).
        { rewrite length_app. simpl in *. lia. }
        rewrite Hloop. exists out, rest. split; [done|].
        destruct Hcases as [(x & -> & Hlen & Hnil & Hcat & Hne)
                           |(-> & Hlt & lost & Hcat & Hlost & Hne)].
        -- left. exists ((b :: seg) ++ x). rewrite <- app_assoc.
           split; [done|]. split.
           { intros _. rewrite app_assoc. apply Hlen.
             rewrite length_app. simpl in *. lia. }
           split; [lia|]. split.
           { cbn [concat]. by rewrite Hcat, app_assoc. }
           intros Hall. apply Hne. by inversion Hall.
        -- right. split; [done|]. split; [lia|].
           exists ((b :: seg) ++ lost). split.
           { cbn [concat]. by rewrite Hcat, app_assoc. }
           split. { rewrite length_app in *. simpl in *. lia. }
           intros Hall. apply Hne. by inversion Hall.
    + destruct seg as [|b seg]; [simpl in Hpart; lia|].
      destruct (n - length data)%nat as [|k] eqn:Hk; [lia|].
      cbn [take]. rewrite read_exact_loop_done.
      2:{ rewrite length_app. simpl. rewrite length_take. simpl in Hpart. lia. }
      eexists _, _. split; [done|]. left. exists (b :: take k seg).
      split; [done|]. split.
      { intros _. rewrite length_app. simpl. rewrite length_take.
        simpl in Hpart. lia. }
      split; [lia|]. split.
      { cbn [concat]. simpl. by rewrite app_assoc, take_drop. }
      intros Hall. constructor; [|by inversion Hall].
      intros Hnil. apply (f_equal length) in Hnil.
      rewrite length_drop in Hnil. simpl in *. lia.
Qed.

(** The two ways [read_exact] ends. *)
Lemma read_exact_cases (n : nat) (s : list (list byte)) :
  ∃ out rest, read_exact n s = (Ok out, rest) ∧
    ((length out = n ∧ concat s = out ++ concat rest) ∨
     (out = [] ∧ ∃ lost, concat s = lost ++ concat rest ∧ (length lost < n)%nat)).
Proof.
  destruct (read_exact_loop_spec n s [] n) as (out & rest & Hloop & Hcases);
    [simpl; lia|].
  exists out, rest. split; [done|].
  destruct Hcases as [(x & -> & Hlen & _ & Hcat & _)
                     |(-> & _ & lost & Hcat & Hlost & _)].
  - left. split; [apply Hlen; simpl; lia|done].
  - right. split; [done|]. exists lost. split; [done|]. simpl in Hlost. lia.
Qed.

(** X9. [read_exact] never raises and never returns part of what was
    asked: on any stream, however the reads cut it, it returns either
    exactly the next [n] bytes, leaving the stream right after them, or
    [b""]; in that case the bytes it had read, fewer than [n], are
    dropped. *)
Theorem read_exact_all_or_nothing (n : nat) (s : list (list byte)) :
  ∃ out rest, read_exact n s = (Ok out, rest) ∧
    ((length out = n ∧ concat s = out ++ concat rest) ∨
     (out = [] ∧ ∃ lost, concat s = lost ++ concat rest ∧ (length lost < n)%nat)).
Proof. apply read_exact_cases. Qed.

(** [read_exact] on a stream of non-empty segments. *)
Lemma read_exact_segments (n : nat) (s : list (list byte)) :
  Forall (λ seg, seg ≠ []) s →
  ((n ≤ length (concat s))%nat →
   ∃ rest, read_exact n s = (Ok (take n (concat s)), rest) ∧
           concat rest = drop n (concat s) ∧
           Forall (λ seg, seg ≠ []) rest) ∧
  ((length (concat s) < n)%nat → read_exact n s = (Ok [], [])).
Proof.
  intros Hs.
  destruct (read_exact_loop_spec n s [] n) as (out & rest & Hloop & Hcases);
    [simpl; lia|].
  unfold read_exact. rewrite Hloop.
  destruct Hcases as [(x & -> & Hlen & _ & Hcat & Hne)
                     |(-> & _ & lost & Hcat & Hlost & Hne)].
  - specialize (Hlen ltac:(simpl; lia)). simpl in Hlen. split.
    + intros _. exists rest. rewrite Hcat. simpl.
      rewrite take_app_length', drop_app_length' by done. auto.
    + intros Hshort. rewrite Hcat, length_app in Hshort. lia.
  - rewrite (Hne Hs) in *. simpl in *. rewrite app_nil_r in Hcat. subst lost.
    split; [lia|done].
Qed.

(** X10. On a stream of non-empty segments, as a pipe delivers them, the
    result of [read_exact] does not depend on how the stream is cut: when
    the stream holds at least [n] bytes, these are returned and the rest
    is left; when it holds fewer, the result is [b""] and the stream is
    used up. *)
Theorem read_exact_pipe (n : nat) (s : list (list byte)) :
  Forall (λ seg, seg ≠ []) s →
  ((n ≤ length (concat s))%nat →
   ∃ rest, read_exact n s = (Ok (take n (concat s)), rest) ∧
           concat rest = drop n (concat s) ∧
           Forall (λ seg, seg ≠ []) rest) ∧
  ((length (concat s) < n)%nat → read_exact n s = (Ok [], [])).
Proof. apply read_exact_segments. Qed.

(** Witness of [read_exact_pipe]: five bytes that arrive as two, one and
    two; three are asked for. *)
Lemma read_exact_pipe_witness :
  let s := [["001"; "002"]; ["003"]; ["004"; "005"]]%byte in
  ∃ rest, read_exact 3 s = (Ok ["001"; "002"; "003"]%byte, rest) ∧
          concat rest = ["004"; "005"]%byte ∧
          Forall (λ seg, seg ≠ []) rest.
Proof.
  intros s.
  destruct (read_exact_pipe 3 s) as [Henough _].
  - repeat constructor; discriminate.
  - apply Henough. simpl. lia.
Defined.

(** ** The length prefix *)

Lemma byte_to_of_Z z : byte_to_Z (byte_of_Z z) = z mod 256.
Proof.
  unfold byte_to_Z, byte_of_Z.
  pose proof (Z.mod_pos_bound z 256 ltac:(lia)) as Hb.
  destruct (Byte.of_N (Z.to_N (z mod 256))) as [b|] eqn:Hof.
  - apply Byte.to_of_N in Hof. simpl. rewrite Hof. lia.
  - apply Byte.of_N_None_iff in Hof. lia.
Qed.

Lemma byte_to_Z_bound b : 0 ≤ byte_to_Z b < 256.
Proof. unfold byte_to_Z. pose proof (Byte.to_N_bounded b). lia. Qed.

Lemma byte_of_to_Z b : byte_of_Z (byte_to_Z b) = b.
Proof.
  unfold byte_of_Z. rewrite Z.mod_small by apply byte_to_Z_bound.
  unfold byte_to_Z. by rewrite N2Z.id, Byte.of_to_N.
Qed.

Lemma struct_pack_I_shape n h :
  struct_pack_I n = Some h → length h = 4%nat ∧ struct_unpack_I h = n ∧ h ≠ [].
Proof.
  unfold struct_pack_I. case_decide as Hn; [|done]. intros [= <-].
  split; [done|]. split; [|done].
  unfold struct_unpack_I. simpl. rewrite !byte_to_of_Z.
  change (2 ^ 24) with 16777216. change (2 ^ 16) with 65536.
  change (2 ^ 8) with 256. change (2 ^ 32) with 4294967296 in *.
  Z.to_euclidean_division_equations. lia.
Qed.

(** X11. The length prefix is a bijection between the numbers from 0 to
    [2^32 - 1] and the sequences of four bytes: [struct.pack(">I", n)]
    gives four bytes that [struct.unpack(">I", _)] turns back into [n],
    every four bytes unpack to such a number and are what it packs to, and
    packing a number outside the range fails. *)
Theorem length_prefix_round_trip :
  (∀ n, 0 ≤ n < 2 ^ 32 →
        ∃ h, struct_pack_I n = Some h ∧ length h = 4%nat ∧ struct_unpack_I h = n) ∧
  (∀ h, length h = 4%nat →
        0 ≤ struct_unpack_I h < 2 ^ 32 ∧ struct_pack_I (struct_unpack_I h) = Some h) ∧
  (∀ n, ¬ (0 ≤ n < 2 ^ 32) → struct_pack_I n = None).
Proof.
  split; [|split].
  - intros n Hn.
    assert (is_Some (struct_pack_I n)) as [h Hh]
      by (unfold struct_pack_I; case_decide; [by eexists|done]).
    exists h. split; [done|]. by destruct (struct_pack_I_shape n h Hh) as (? & ? & _).
  - intros [|b1 [|b2 [|b3 [|b4 [|? ?]]]]] Hlen; try done.
    unfold struct_unpack_I. simpl.
    pose proof (byte_to_Z_bound b1). pose proof (byte_to_Z_bound b2).
    pose proof (byte_to_Z_bound b3). pose proof (byte_to_Z_bound b4).
    change (2 ^ 32) with 4294967296.
    split; [lia|]. unfold struct_pack_I.
    change (2 ^ 24) with 16777216. change (2 ^ 16) with 65536.
    change (2 ^ 8) with 256. change (2 ^ 32) with 4294967296.
    case_decide; [|lia]. do 2 f_equal; [|f_equal; [|f_equal; [|f_equal]]].
    + rewrite <- (byte_of_to_Z b1) at 2. f_equal.
      Z.to_euclidean_division_equations. lia.
    + rewrite <- (byte_of_to_Z b2) at 2. unfold byte_of_Z. do 3 f_equal.
      Z.to_euclidean_division_equations. lia.
    + rewrite <- (byte_of_to_Z b3) at 2. unfold byte_of_Z. do 3 f_equal.
      Z.to_euclidean_division_equations. lia.
    + rewrite <- (byte_of_to_Z b4) at 2. unfold byte_of_Z. do 3 f_equal.
      Z.to_euclidean_division_equations. lia.
  - intros n Hn. unfold struct_pack_I. by case_decide.
Qed.

(** Witness of [length_prefix_round_trip]: the length 258. *)
Lemma length_prefix_round_trip_witness :
  struct_pack_I 258 = Some ["000"; "000"; "001"; "002"]%byte ∧
  struct_unpack_I ["000"; "000"; "001"; "002"]%byte = 258 ∧
  struct_pack_I (2 ^ 32) = None.
Proof.
  destruct length_prefix_round_trip as (Hpack & Hunpack & Hfail).
  destruct (Hpack 258) as (h & Hh & _ & Hn); [lia|].
  assert (h = ["000"; "000"; "001"; "002"]%byte) as ->.
  { apply (inj Some). rewrite <- Hh. vm_compute. reflexivity. }
  split; [exact Hh|]. split; [exact Hn|]. apply Hfail. lia.
Defined.

(** ** One frame *)

(** A stream that begins with a header announcing the payload that
    follows. *)
Lemma get_packet_payload loads s header payload tail :
  Forall (λ seg, seg ≠ []) s →
  struct_pack_I (shape0 payload) = Some header →
  payload ≠ [] →
  concat s = header ++ payload ++ tail →
  ∃ rest,
    get_packet_from_stream loads s =
      (match loads payload with
       | Ok p => Ok (Some p, shape0 payload + 4)
       | Raise e => Raise e
       end, rest) ∧
    concat rest = tail ∧ Forall (λ seg, seg ≠ []) rest.
Proof.
  intros Hs Hpack Hpayload Hcat.
  destruct (struct_pack_I_shape _ _ Hpack) as (Hlen & Hun & Hne).
  destruct (read_exact_segments 4 s Hs) as [Hhead _].
  destruct Hhead as (rest1 & Hread1 & Hcat1 & Hs1).
  { rewrite Hcat, length_app. lia. }
  rewrite Hcat in Hread1, Hcat1.
  rewrite take_app_length' in Hread1 by done.
  rewrite drop_app_length' in Hcat1 by done.
  destruct (read_exact_segments (length payload) rest1 Hs1) as [Hbody _].
  destruct Hbody as (rest & Hread2 & Hcat2 & Hs2).
  { rewrite Hcat1, length_app. lia. }
  rewrite Hcat1 in Hread2, Hcat2.
  rewrite take_app_length in Hread2. rewrite drop_app_length in Hcat2.
  exists rest. split; [|done].
  unfold get_packet_from_stream, bind at 1. rewrite Hread1.
  destruct header as [|b header]; [done|].
  rewrite Hun. unfold shape0 at 1. rewrite Nat2Z.id.
  unfold bind at 1. rewrite Hread2.
  destruct payload as [|c payload]; [done|].
  unfold bind, lift, ret. by destruct (loads (c :: payload)).
Qed.

(** X12. A frame decodes to the record it was made from, however the pipe
    cuts the stream: when the stream begins with the frame of [p], whose
    pickled form is not empty and unpickles to [p], [get_packet_from_stream]
    returns [p] and the number of bytes of the frame, and leaves the
    stream right after the frame. *)
Theorem frame_round_trip (loads : list byte → result Packet)
    (dumps : Packet → list byte) (p : Packet) (bytes tail : list byte)
    (s : list (list byte)) :
  loads (dumps p) = Ok p →
  dumps p ≠ [] →
  frame dumps p = Some bytes →
  Forall (λ seg, seg ≠ []) s →
  concat s = bytes ++ tail →
  ∃ rest,
    get_packet_from_stream loads s = (Ok (Some p, shape0 bytes), rest) ∧
    concat rest = tail ∧ Forall (λ seg, seg ≠ []) rest.
Proof.
  intros Hloads Hne Hframe Hs Hcat. unfold frame in Hframe.
  destruct (struct_pack_I (shape0 (dumps p))) as [header|] eqn:Hpack; [|done].
  simpl in Hframe. injection Hframe as <-.
  destruct (get_packet_payload loads s header (dumps p) tail)
    as (rest & Hget & Hrest); [done|done|done|by rewrite Hcat, app_assoc|].
  exists rest. split; [|done]. rewrite Hget, Hloads.
  destruct (struct_pack_I_shape _ _ Hpack) as (Hlen & _).
  do 3 f_equal. unfold shape0. rewrite length_app. lia.
Qed.

(** X13. The ways a stream can end badly.  A stream that ends inside the
    length prefix, with one to three stray bytes, is taken for the end of
    the stream: [b""] and 0, no error.  A prefix that announces zero bytes,
    and a prefix that announces more bytes than the stream still has, both
    raise [ValueError]. *)
Theorem frame_errors (loads : list byte → result Packet) (s : list (list byte)) :
  Forall (λ seg, seg ≠ []) s →
  ((length (concat s) < 4)%nat →
   get_packet_from_stream loads s = (Ok (None, 0), [])) ∧
  (∀ header tail,
     length header = 4%nat → concat s = header ++ tail →
     (struct_unpack_I header = 0 →
      ∃ rest, get_packet_from_stream loads s = (Raise ValueError, rest) ∧
              concat rest = tail) ∧
     (Z.of_nat (length tail) < struct_unpack_I header →
      get_packet_from_stream loads s = (Raise ValueError, []))).
Proof.
  intros Hs. split.
  - intros Hshort. destruct (read_exact_segments 4 s Hs) as [_ Hend].
    unfold get_packet_from_stream, bind. by rewrite (Hend Hshort).
  - intros header tail Hlen Hcat.
    destruct (read_exact_segments 4 s Hs) as [Hhead _].
    destruct Hhead as (rest1 & Hread1 & Hcat1 & Hs1).
    { rewrite Hcat, length_app. lia. }
    rewrite Hcat in Hread1, Hcat1.
    rewrite take_app_length' in Hread1 by done.
    rewrite drop_app_length' in Hcat1 by done.
    destruct header as [|b header]; [done|]. split.
    + intros Hzero. exists rest1. split; [|done].
      unfold get_packet_from_stream, bind at 1. rewrite Hread1.
      rewrite Hzero. unfold bind, lift. by simpl.
    + intros Hmore.
      destruct (read_exact_segments (Z.to_nat (struct_unpack_I (b :: header))) rest1 Hs1)
        as [_ Hend].
      unfold get_packet_from_stream, bind at 1. rewrite Hread1.
      unfold bind, lift. cbv zeta. rewrite Hend; [done|]. rewrite Hcat1. lia.
Qed.

(** Witness of [frame_errors]: a stream of two bytes; a stream whose four
    bytes announce no payload; a stream that announces two bytes and has
    one. *)
Lemma frame_errors_witness :
  get_packet_from_stream tiny_loads [["000"; "000"]%byte] = (Ok (None, 0), []) ∧
  (∃ rest, get_packet_from_stream tiny_loads [["000"; "000"; "000"; "000"; "007"]%byte]
           = (Raise ValueError, rest) ∧ concat rest = ["007"%byte]) ∧
  get_packet_from_stream tiny_loads [["000"; "000"; "000"; "002"]%byte; ["007"%byte]]
    = (Raise ValueError, []).
Proof.
  split; [|split].
  - apply (frame_errors tiny_loads [["000"; "000"]%byte]).
    + repeat constructor; discriminate.
    + simpl. lia.
  - destruct (frame_errors tiny_loads [["000"; "000"; "000"; "000"; "007"]%byte])
      as [_ Hheader].
    + repeat constructor; discriminate.
    + destruct (Hheader ["000"; "000"; "000"; "000"]%byte ["007"%byte]) as [Hzero _];
        [done|done|]. by apply Hzero.
  - destruct (frame_errors tiny_loads
                [["000"; "000"; "000"; "002"]%byte; ["007"%byte]]) as [_ Hheader].
    + repeat constructor; discriminate.
    + destruct (Hheader ["000"; "000"; "000"; "002"]%byte ["007"%byte]) as [_ Hshort];
        [done|done|]. apply Hshort. vm_compute. reflexivity.
Defined.

(** Witness of [frame_round_trip]: the frame of the record with
    timestamps 5 and 7, followed by one more byte, arriving in pieces of
    three, two and two bytes. *)
Lemma frame_round_trip_witness :
  let s := [["000"; "000"; "000"]; ["002"; "005"]; ["007"; "009"]]%byte in
  ∃ rest,
    get_packet_from_stream tiny_loads s = (Ok (Some (tiny_packet [5; 7]), 6), rest) ∧
    concat rest = ["009"%byte] ∧ Forall (λ seg, seg ≠ []) rest.
Proof.
  intros s.
  apply (frame_round_trip tiny_loads tiny_dumps (tiny_packet [5; 7])
           ["000"; "000"; "000"; "002"; "005"; "007"]%byte ["009"%byte] s).
  - reflexivity.
  - discriminate.
  - vm_compute. reflexivity.
  - repeat constructor; discriminate.
  - reflexivity.
Defined.

(** ** The ingestion loop on its standard input *)

Lemma frame_length dumps p bytes :
  frame dumps p = Some bytes → (5 ≤ length bytes)%nat ∨ dumps p = [].
Proof.
  unfold frame.
  destruct (struct_pack_I (shape0 (dumps p))) as [header|] eqn:Hpack; [|done].
  intros [= <-]. destruct (struct_pack_I_shape _ _ Hpack) as (Hlen & _).
  rewrite length_app. destruct (dumps p); [by right|simpl; lia].
Qed.

(** The loop on a stream made of the frames of the records [ps]: it does
    what [add_packets ps] does, and counts. *)
Lemma write_loop_frames loads dumps ps frames :
  Forall (λ p, loads (dumps p) = Ok p ∧ dumps p ≠ []) ps →
  Forall2 (λ p bytes, frame dumps p = Some bytes) ps frames →
  ∀ rounds s w total written,
    (length ps < rounds)%nat →
    Forall (λ seg, seg ≠ []) s →
    concat s = concat frames →
    ∃ rest,
      write_loop loads rounds total written (s, w) =
        (match (add_packets ps w).1 with
         | Ok _ => Ok (written + Z.of_nat (length ps), total + shape0 (concat s))
         | Raise e => Raise e
         end, (rest, (add_packets ps w).2)) ∧
      ((add_packets ps w).1 = Ok tt → rest = []).
Proof.
  intros Hcodec Hframes. induction Hframes as [|p bytes ps frames Hframe _ IH];
    intros rounds s w total written Hrounds Hs Hcat.
  - destruct rounds as [|rounds]; [simpl in Hrounds; lia|].
    assert (s = []) as ->.
    { destruct s as [|seg s]; [done|]. apply Forall_cons in Hs as [Hseg _].
      simpl in Hcat. by destruct seg. }
    exists []. split; [|done]. simpl. unfold bind, on_stdin. simpl.
    unfold ret, shape0. simpl. by rewrite !Z.add_0_r.
  - apply Forall_cons in Hcodec as [[Hloads Hne] Hcodec].
    destruct rounds as [|rounds]; [simpl in Hrounds; lia|].
    assert (∃ rest1, get_packet_from_stream loads s
                       = (Ok (Some p, shape0 bytes), rest1) ∧
                     concat rest1 = concat frames ∧
                     Forall (λ seg, seg ≠ []) rest1) as (rest1 & Hget & Hcat1 & Hs1).
    { unfold frame in Hframe.
      destruct (struct_pack_I (shape0 (dumps p))) as [header|] eqn:Hpack; [|done].
      simpl in Hframe. injection Hframe as <-.
      destruct (get_packet_payload loads s header (dumps p) (concat frames))
        as (rest1 & Hget & Hrest);
        [done|done|done|rewrite Hcat; cbn [concat]; by rewrite <- app_assoc|].
      exists rest1. split; [|done]. rewrite Hget, Hloads.
      destruct (struct_pack_I_shape _ _ Hpack) as (Hlen & _).
      do 3 f_equal. unfold shape0. rewrite length_app. lia. }
    cbn [write_loop]. unfold bind at 1. unfold on_stdin. cbn [fst snd].
    rewrite Hget. cbn [fst snd]. unfold bind at 1. unfold on_writer at 1.
    cbn [fst snd].
    destruct (add_packet p w) as [[[]|e] w1] eqn:Hadd.
    + assert (add_packets (p :: ps) w = add_packets ps w1) as ->
        by (cbn [add_packets]; unfold bind; by rewrite Hadd).
      destruct (IH Hcodec rounds rest1 w1 (total + shape0 bytes) (written + 1))
        as (rest & Hloop & Hrest); [simpl in Hrounds; lia|done|done|].
      exists rest. split; [|done]. rewrite Hloop.
      destruct (add_packets ps w1) as [[[]|e] w2]; [|done]. cbn [fst snd].
      do 3 f_equal; [simpl; lia|].
      rewrite Hcat, Hcat1. unfold shape0. cbn [concat]. rewrite length_app. lia.
    + assert (add_packets (p :: ps) w = (Raise e, w1)) as ->
        by (cbn [add_packets]; unfold bind; by rewrite Hadd).
      exists rest1. by split.
Qed.

Lemma frames_length loads dumps ps frames :
  Forall (λ p, loads (dumps p) = Ok p ∧ dumps p ≠ []) ps →
  Forall2 (λ p bytes, frame dumps p = Some bytes) ps frames →
  (length ps ≤ length (concat frames))%nat.
Proof.
  intros Hcodec Hframes.
  induction Hframes as [|p bytes ps frames Hframe _ IH]; [done|].
  apply Forall_cons in Hcodec as [[_ Hne] Hcodec].
  destruct (frame_length dumps p bytes Hframe) as [Hlen|Hnil]; [|done].
  cbn [concat]. rewrite length_app. specialize (IH Hcodec). simpl. lia.
Qed.

(** [cmd_write] on a stream of frames. *)
Lemma cmd_write_stream_run (loads : list byte → result Packet)
    (dumps : Packet → list byte) (ps : list Packet) (frames : list (list byte))
    (s : list (list byte)) (d : Disk) :
  Forall (λ p, loads (dumps p) = Ok p ∧ dumps p ≠ []) ps →
  Forall2 (λ p bytes, frame dumps p = Some bytes) ps frames →
  Forall (λ seg, seg ≠ []) s →
  concat s = concat frames →
  ∃ rest,
    cmd_write_stream loads s d =
      (match (cmd_write ps d).1 with
       | Ok _ => Ok (Z.of_nat (length ps), shape0 (concat s))
       | Raise e => Raise e
       end, (rest, (cmd_write ps d).2)) ∧
    ((cmd_write ps d).1 = Ok tt → rest = []).
Proof.
  intros Hcodec Hframes Hs Hcat.
  pose proof (frames_length loads dumps ps frames Hcodec Hframes) as Hlen.
  destruct (write_loop_frames loads dumps ps frames Hcodec Hframes
              (S (length (concat s))) s (ChunkWriter_init d) 0 0)
    as (rest & Hloop & Hrest); [rewrite Hcat; lia|done|done|].
  exists rest.
  destruct (add_packets ps (ChunkWriter_init d)) as [r1 w1] eqn:Hadd.
  assert (cmd_write ps d =
            match r1 with Ok _ => flush w1 | Raise e => (Raise e, w1) end) as ->.
  { unfold cmd_write, bind. rewrite Hadd. by destruct r1 as [[]|]. }
  unfold cmd_write_stream. unfold bind at 1. rewrite Hloop. cbn [fst snd] in *.
  destruct r1 as [[]|e]; [|by split].
  unfold bind, on_writer, ret. cbn [fst snd].
  destruct (flush w1) as [[[]|e] w]; cbn [fst snd]; split; auto.
Qed.

(** X14. Fed with the frames of the records [ps], cut in any way into
    non-empty pieces, [cmd_write] on its standard input does to the
    directory what the ingestion of [ps] does, reads the stream to its
    end, and reports as many packets as there are records and as many
    bytes as the stream has; if a call on the writer raises, so does the
    command. *)
Theorem cmd_write_stream_frames (loads : list byte → result Packet)
    (dumps : Packet → list byte) (ps : list Packet) (frames : list (list byte))
    (s : list (list byte)) (d : Disk) :
  Forall (λ p, loads (dumps p) = Ok p ∧ dumps p ≠ []) ps →
  Forall2 (λ p bytes, frame dumps p = Some bytes) ps frames →
  Forall (λ seg, seg ≠ []) s →
  concat s = concat frames →
  ∃ rest,
    cmd_write_stream loads s d =
      (match (cmd_write ps d).1 with
       | Ok _ => Ok (Z.of_nat (length ps), shape0 (concat s))
       | Raise e => Raise e
       end, (rest, (cmd_write ps d).2)) ∧
    ((cmd_write ps d).1 = Ok tt → rest = []).
Proof. apply cmd_write_stream_run. Qed.

(** Witness of [cmd_write_stream_frames]: the frames of two small records,
    eleven bytes that arrive in pieces of four, five and two. *)
Lemma cmd_write_stream_frames_witness :
  let ps := [tiny_packet [5; 7]; tiny_packet [9]] in
  let s := [["000"; "000"; "000"; "002"]; ["005"; "007"; "000"; "000"; "000"];
            ["001"; "009"]]%byte in
  ∃ rest,
    cmd_write_stream tiny_loads s empty_disk =
      (Ok (2, 11), (rest, (cmd_write ps empty_disk).2)) ∧ rest = [].
Proof.
  intros ps s.
  destruct (cmd_write_stream_frames tiny_loads tiny_dumps ps
              [["000"; "000"; "000"; "002"; "005"; "007"];
               ["000"; "000"; "000"; "001"; "009"]]%byte s empty_disk)
    as (rest & Hrun & Hrest).
  - repeat constructor; discriminate.
  - repeat constructor.
  - repeat constructor; discriminate.
  - reflexivity.
  - exists rest. split; [|by apply Hrest].
    rewrite Hrun. vm_compute. reflexivity.
Defined.

(** A round of the loop that goes on has taken at least five bytes from
    the stream, so the number of rounds allowed never cuts the loop
    short: the result is the same for every larger number. *)
Lemma get_packet_consumes loads s p raw rest :
  get_packet_from_stream loads s = (Ok (Some p, raw), rest) →
  (length (concat rest) + 5 ≤ length (concat s))%nat.
Proof.
  unfold get_packet_from_stream, bind at 1.
  destruct (read_exact_cases 4 s) as (header & rest1 & -> & Hhead).
  destruct header as [|b header]; [done|].
  destruct Hhead as [[Hlen1 Hcat1]|[? _]]; [|done].
  cbv zeta. unfold bind at 1.
  destruct (read_exact_cases
              (Z.to_nat (struct_unpack_I (b :: header))) rest1)
    as (payload & rest2 & -> & Hbody).
  destruct payload as [|c payload]; [done|].
  destruct Hbody as [[Hlen2 Hcat2]|[? _]]; [|done].
  unfold bind, lift, ret. destruct (loads (c :: payload)); [|done].
  intros [= _ _ <-]. rewrite Hcat1, Hcat2, !length_app. simpl in *. lia.
Qed.

Lemma write_loop_rounds loads n :
  ∀ rounds s w total written,
    (length (concat s) < n)%nat → (n ≤ rounds)%nat →
    write_loop loads rounds total written (s, w)
    = write_loop loads n total written (s, w).
Proof.
  induction n as [|n IH]; intros rounds s w total written Hs Hrounds; [lia|].
  destruct rounds as [|rounds]; [lia|]. cbn [write_loop].
  unfold bind at 1 3. unfold on_stdin. cbn [fst snd].
  destruct (get_packet_from_stream loads s) as [[[[p|] raw]|e] rest] eqn:Hget;
    cbn [fst snd]; [|done|done].
  apply get_packet_consumes in Hget.
  unfold bind. unfold on_writer. cbn [fst snd].
  destruct (add_packet p w) as [[[]|e] w1]; [|done].
  apply IH; lia.
Qed.

(** * The generator *)

Lemma array3_length n rows cols cell : length (array3 n rows cols cell) = n.
Proof. unfold array3. by rewrite length_map, length_seq. Qed.

Lemma array3_flat n rows cols cell block :
  block ∈ array3 n rows cols cell → length (concat block) = (rows * cols)%nat.
Proof.
  unfold array3. intros (i & -> & _)%elem_of_map.
  assert (∀ js : list nat,
            length (concat (map (λ j, map (λ k, cell i j k) (seq 0 cols)) js))
            = (length js * cols)%nat) as Hflat.
  { induction js as [|j js IH]; [done|].
    cbn [map concat]. rewrite length_app, IH, length_map, length_seq. simpl. lia. }
  by rewrite Hflat, length_seq.
Qed.

Lemma generate_packet_times r t :
  t ∈ timestamps (generate_packet r) → t = draw_now r.
Proof.
  unfold generate_packet. cbn [timestamps].
  intros (one & -> & Hone)%elem_of_map.
  apply list_elem_of_In, repeat_spec in Hone. subst one. lia.
Qed.

Lemma generate_packet_particles r :
  0 ≤ draw_n r → shape0 (scattering (generate_packet r)) = draw_n r.
Proof.
  intros Hn. unfold generate_packet, shape0. cbn [scattering].
  rewrite array3_length. lia.
Qed.

Lemma generate_packet_consistent r : shape_consistent (generate_packet r).
Proof.
  unfold shape_consistent, generate_packet. cbn [timestamps scattering spectral].
  by rewrite !array3_length, length_map, repeat_length.
Qed.

Lemma array3_shape n rows cols cell :
  Forall (λ block, item_shape block = replicate rows cols) (array3 n rows cols cell).
Proof.
  unfold array3. apply Forall_forall. intros block (i & -> & _)%elem_of_map.
  unfold item_shape, block_shaped.
  assert (∀ js : list nat,
            map length (map (λ j, map (λ k, cell i j k) (seq 0 cols)) js)
            = replicate (length js) cols) as Hrows.
  { induction js as [|j js IH]; [done|].
    cbn [map length replicate]. by rewrite IH, length_map, length_seq. }
  by rewrite Hrows, length_seq.
Qed.

Lemma array3_cells (P : Z → Prop) n rows cols cell :
  (∀ i j k, P (cell i j k)) →
  Forall (λ block, Forall P (concat block)) (array3 n rows cols cell).
Proof.
  intros Hcell. unfold array3. apply Forall_forall.
  intros block (i & -> & _)%elem_of_map. apply Forall_forall.
  intros c (row & Hc & (j & -> & _)%elem_of_map)%elem_of_concat.
  apply elem_of_map in Hc as (k & -> & _). apply Hcell.
Qed.

Lemma generate_packet_record r :
  1 ≤ draw_n r → record_of (64, 16)%nat (32, 16)%nat (generate_packet r).
Proof.
  intros Hn. split; [apply generate_packet_consistent|].
  unfold matrices_of, generate_packet. cbn [scattering spectral fst snd].
  split; [lia|]. split; [lia|].
  destruct (Z.to_nat (draw_n r)) as [|n] eqn:Hnat; [lia|].
  split; [done|]. split; [done|]. split; apply array3_shape.
Qed.

(** X15. Whatever it draws within the ranges numpy promises,
    [generate_packet] returns a Record of the data model, with 64 by 16
    and 32 by 16 matrices and 1 to 1000 particles, all stamped with the
    one clock reading of the call; each particle flattens to 1024
    scattering cells and 512 spectral cells, the columns of a chunk row,
    and every cell is an int32 value, below the greatest one. *)
Theorem generate_packet_shape (r : Draw) :
  valid_draw r →
  record_of (64, 16)%nat (32, 16)%nat (generate_packet r) ∧
  shape0 (scattering (generate_packet r)) = draw_n r ∧
  1 ≤ shape0 (timestamps (generate_packet r)) ≤ 1000 ∧
  ∀ row, row ∈ particle_rows (generate_packet r) →
    ts_0 row = Some (draw_now r) ∧
    ∃ a b, scat row = Some a ∧ spec row = Some b ∧
           length a = 1024%nat ∧ length b = 512%nat ∧
           Forall (λ c, - 2 ^ 31 ≤ c < 2 ^ 31 - 1) a ∧
           Forall (λ c, - 2 ^ 31 ≤ c < 2 ^ 31 - 1) b.
Proof.
  intros (Hn & Hsc & Hsp).
  pose proof (generate_packet_consistent r) as Hcons.
  pose proof (generate_packet_particles r ltac:(lia)) as Hparts.
  split; [apply generate_packet_record; lia|]. split; [done|]. split.
  { destruct Hcons as [H1 _]. unfold shape0 in *. lia. }
  intros row (t & ab & -> & Ht & Hab)%elem_of_zip_with. simpl.
  apply generate_packet_times in Ht as ->. split; [done|].
  destruct ab as [a b].
  pose proof (elem_of_zip_l _ _ _ _ Hab) as Ha.
  pose proof (elem_of_zip_r _ _ _ _ Hab) as Hb.
  exists (concat a), (concat b). split; [done|]. split; [done|].
  pose proof (array3_cells (λ c, - 2 ^ 31 ≤ c < 2 ^ 31 - 1)
                (Z.to_nat (draw_n r)) 64 16 (draw_scattering r) Hsc) as Hca.
  pose proof (array3_cells (λ c, - 2 ^ 31 ≤ c < 2 ^ 31 - 1)
                (Z.to_nat (draw_n r)) 32 16 (draw_spectral r) Hsp) as Hcb.
  rewrite Forall_forall in Hca, Hcb.
  split; [by apply (array3_flat _ 64 16) in Ha|].
  split; [by apply (array3_flat _ 32 16) in Hb|].
  split; [by apply Hca|by apply Hcb].
Qed.

(** Draws for the witnesses: [n] particles at clock [now], scattering
    cells 0 and spectral cells 1. *)
Lemma flat_draw_valid n now :
  1 ≤ n ≤ 1000 →
  valid_draw {| draw_n := n; draw_now := now;
                draw_scattering := λ i j k, 0;
                draw_spectral := λ i j k, 1 |}.
Proof. intros Hn. split; [done|]. split; intros; simpl; lia. Qed.

(** Witness of [generate_packet_shape]: a draw of two particles. *)
Lemma generate_packet_shape_witness :
  let r := {| draw_n := 2; draw_now := 5;
              draw_scattering := λ i j k, 0; draw_spectral := λ i j k, 1 |} in
  record_of (64, 16)%nat (32, 16)%nat (generate_packet r) ∧
  shape0 (scattering (generate_packet r)) = 2 ∧
  1 ≤ shape0 (timestamps (generate_packet r)) ≤ 1000 ∧
  ∀ row, row ∈ particle_rows (generate_packet r) →
    ts_0 row = Some 5 ∧
    ∃ a b, scat row = Some a ∧ spec row = Some b ∧
           length a = 1024%nat ∧ length b = 512%nat ∧
           Forall (λ c, - 2 ^ 31 ≤ c < 2 ^ 31 - 1) a ∧
           Forall (λ c, - 2 ^ 31 ≤ c < 2 ^ 31 - 1) b.
Proof.
  intros r. apply (generate_packet_shape r). apply flat_draw_valid. lia.
Defined.

(** ** Generated streams *)

Lemma generated_consistent draws :
  Forall shape_consistent (map generate_packet draws).
Proof.
  apply Forall_forall. intros p (r & -> & _)%elem_of_map.
  apply generate_packet_consistent.
Qed.

Lemma generated_records draws :
  Forall valid_draw draws →
  Forall (record_of (64, 16)%nat (32, 16)%nat) (map generate_packet draws).
Proof.
  intros Hvalid. apply Forall_forall. intros p (r & -> & Hr)%elem_of_map.
  rewrite Forall_forall in Hvalid. destruct (Hvalid r Hr) as ((Hn & _) & _).
  by apply generate_packet_record.
Qed.

Lemma generated_distinct_times draws :
  NoDup (map draw_now draws) → distinct_times (map generate_packet draws).
Proof.
  intros Hnd i j p q t Hi Hj Hp Hq.
  change (map generate_packet draws) with (generate_packet <$> draws) in Hi, Hj.
  rewrite list_lookup_fmap in Hi, Hj.
  destruct (draws !! i) as [ri|] eqn:Hri; [|done].
  destruct (draws !! j) as [rj|] eqn:Hrj; [|done].
  simpl in Hi, Hj. simplify_eq.
  apply generate_packet_times in Hp, Hq. subst t.
  apply (NoDup_lookup _ i j (draw_now ri) Hnd).
  - change (map draw_now draws) with (draw_now <$> draws).
    by rewrite list_lookup_fmap, Hri.
  - change (map draw_now draws) with (draw_now <$> draws).
    rewrite list_lookup_fmap, Hrj. simpl. by rewrite Hq.
Qed.

Lemma generated_rows draws :
  Forall valid_draw draws → draws ≠ [] →
  ingested_rows (map generate_packet draws) ≠ [].
Proof.
  intros Hvalid Hne. destruct draws as [|r draws]; [done|].
  apply Forall_cons in Hvalid as [(Hn & _) _].
  unfold ingested_rows. cbn [map concat]. intros Hnil.
  apply app_eq_nil in Hnil as [Hnil _].
  apply (f_equal length) in Hnil. unfold particle_rows in Hnil.
  destruct (generate_packet_consistent r) as [H1 H2].
  rewrite length_zip_with_l_eq in Hnil
    by (rewrite length_zip_with_l_eq by lia; lia).
  pose proof (generate_packet_particles r ltac:(lia)) as Hparts.
  unfold shape0 in Hparts. rewrite Hnil in H1. rewrite H1 in Hparts.
  simpl in Hparts. lia.
Qed.

(** X16. Records generated at pairwise different clock readings and
    written by [cmd_write] into an empty directory: the ingestion does not
    raise, no two chunks get the same name, and the query for any window
    opens the chunks whose range overlaps it and returns exactly the
    generated particles whose time lies in the window, in the order of
    generation. *)
Theorem generated_stream_round_trip (draws : list Draw) (start_ts stop_ts : Z) :
  Forall valid_draw draws →
  draws ≠ [] →
  NoDup (map draw_now draws) →
  ∃ w o,
    cmd_write (map generate_packet draws) empty_disk = (Ok tt, w) ∧
    NoDup (map filename (index_rows (output_path w))) ∧
    cmd_read (output_path w) start_ts stop_ts [] =
      (Ok o, map filename
               (filter (λ r, start_ts ≤ max_ts r ∧ min_ts r ≤ stop_ts)
                       (index_rows (output_path w)))) ∧
    outcome_rows o =
      filter (in_window start_ts stop_ts)
             (ingested_rows (map generate_packet draws)).
Proof.
  intros Hvalid Hne Hclock.
  set (ps := map generate_packet draws).
  pose proof (generated_records draws Hvalid) as Hps. fold ps in Hps.
  pose proof (generated_distinct_times draws Hclock) as Hdis. fold ps in Hdis.
  destruct (taken_in_add_packets _ _ [] ps _ Hps (taken_in_init _ _))
    as (w1 & Hadd & Hw1).
  destruct (taken_in_flush _ _ _ _ Hw1) as (w & Hf & _ & Hst). simpl in Hst.
  destruct (named_add_packets [] ps _ _ _ Hdis named_init Hadd)
    as (done & Hnamed & Hdd & _).
  pose proof (named_flush done w1 _ _ Hdd Hnamed Hf) as (fl & buf & _ & _ & Hnd & _).
  destruct (stored_read (output_path w) (ingested_rows ps) start_ts stop_ts)
    as (o & Hread & Hrows); [done|by apply generated_rows|done|].
  exists w, o. split; [|done].
  unfold cmd_write, bind. by rewrite Hadd.
Qed.

(** Witness of [generated_stream_round_trip]: two particles generated at
    clock 5, then one at clock 9; the window [6, 9]. *)
Lemma generated_stream_round_trip_witness :
  let draws := [ {| draw_n := 2; draw_now := 5;
                    draw_scattering := λ i j k, 0; draw_spectral := λ i j k, 1 |};
                 {| draw_n := 1; draw_now := 9;
                    draw_scattering := λ i j k, 0; draw_spectral := λ i j k, 1 |} ] in
  ∃ w o,
    cmd_write (map generate_packet draws) empty_disk = (Ok tt, w) ∧
    NoDup (map filename (index_rows (output_path w))) ∧
    cmd_read (output_path w) 6 9 [] =
      (Ok o, map filename
               (filter (λ r, 6 ≤ max_ts r ∧ min_ts r ≤ 9)
                       (index_rows (output_path w)))) ∧
    outcome_rows o =
      filter (in_window 6 9) (ingested_rows (map generate_packet draws)).
Proof.
  intros draws. apply (generated_stream_round_trip draws 6 9).
  - repeat constructor; simpl; lia.
  - discriminate.
  - simpl. apply NoDup_cons. split; [|apply NoDup_singleton].
    intros Hin. apply list_elem_of_singleton in Hin. discriminate Hin.
Defined.

(** ** The playground *)

Lemma generated_particles draws :
  Forall valid_draw draws →
  Z.of_nat (length draws) ≤ particles (map generate_packet draws)
    ≤ 1000 * Z.of_nat (length draws).
Proof.
  induction 1 as [|r draws (Hn & _) _ IH]; [done|].
  cbn [map particles foldr length]. fold (particles (map generate_packet draws)).
  rewrite generate_packet_particles by lia. lia.
Qed.

Lemma generated_times draws t :
  Forall valid_draw draws →
  t ∈ concat (map timestamps (map generate_packet draws)) ↔ t ∈ map draw_now draws.
Proof.
  intros Hvalid. split.
  - intros (l & Ht & (p & -> & (r & -> & Hr)%elem_of_map)%elem_of_map)%elem_of_concat.
    apply generate_packet_times in Ht as ->. apply elem_of_map. by exists r.
  - intros (r & -> & Hr)%elem_of_map.
    apply elem_of_concat. exists (timestamps (generate_packet r)). split.
    + rewrite Forall_forall in Hvalid. destruct (Hvalid r Hr) as ((Hn & _) & _).
      unfold generate_packet. cbn [timestamps].
      destruct (Z.to_nat (draw_n r)) as [|n] eqn:Hnat; [lia|].
      simpl. rewrite Z.mul_1_l. left.
    + apply elem_of_map. exists (generate_packet r). split; [done|].
      apply elem_of_map. by exists r.
Qed.

(** X17. The playground script on an empty directory, with up to 199
    generated records instead of its five.  The records stay below the
    threshold, so the final flush writes them as one chunk whose index row
    records the least and the greatest clock reading, [lo] and [hi].  The
    query runs on what the ISO text makes of the two: when the window
    [start, stop] that comes back still overlaps [lo, hi] the script gets
    the generated particles stamped inside the window, in order, and
    otherwise it ends in the [AttributeError] of [None.shape].  It gets
    every generated particle when the conversion has not moved [lo] up nor
    [hi] down. *)
Theorem playground_window (via_iso : Z → result Z) (draws : list Draw) :
  Forall valid_draw draws →
  draws ≠ [] →
  (length draws ≤ 199)%nat →
  ∃ lo hi,
    is_min lo (map draw_now draws) ∧
    is_max hi (map draw_now draws) ∧
    ∀ start stop,
      via_iso lo = Ok start → via_iso hi = Ok stop →
      (playground via_iso empty_disk draws).1 =
        (if decide (start ≤ hi ∧ lo ≤ stop)
         then Ok (filter (in_window start stop)
                         (ingested_rows (map generate_packet draws)))
         else Raise (AttributeError "shape")) ∧
      (start ≤ lo → hi ≤ stop →
       (playground via_iso empty_disk draws).1 =
         Ok (ingested_rows (map generate_packet draws))).
Proof.
  intros Hvalid Hne Hlen.
  set (ps := map generate_packet draws).
  pose proof (generated_records draws Hvalid) as Hps. fold ps in Hps.
  pose proof (generated_particles draws Hvalid) as Hparts. fold ps in Hparts.
  assert (1 ≤ Z.of_nat (length draws)) by (destruct draws; [done|simpl; lia]).
  destruct (add_packets_buffered ps (ChunkWriter_init empty_disk))
    as (w1 & Hadd & Hdisk & Hcount & Hbuf); [simpl; lia|].
  destruct (consistent_add_packets _ _ ps _ Hps (consistent_init _ _ empty_disk))
    as (w1' & Hadd' & Hw1). rewrite Hadd in Hadd'. injection Hadd' as <-.
  destruct (consistent_flush _ _ w1 Hw1) as (t0 & ts & Hts & Hf);
    [rewrite Hcount; simpl; lia|].
  assert (_buffer w1 = buffer_of ps) as Hb by (by rewrite Hbuf).
  rewrite Hb in Hts. simpl in Hts.
  set (e := chunk_entry t0 ts).
  set (c := {| csv_header := index_columns; csv_rows := [e] |}).
  assert (index_csv (output_path (flushed w1 t0 ts)) = Some c) as Hidx.
  { simpl. by rewrite Hdisk. }
  assert (chunk (output_path (flushed w1 t0 ts)) (filename e) = ingested_rows ps)
    as Hchunk.
  { unfold chunk. simpl. rewrite lookup_insert_eq. simpl.
    rewrite Hb. by eapply chunk_table_buffer_of, records_consistent. }
  assert ((playground via_iso empty_disk draws).1 =
              match via_iso (min_ts e) with
              | Raise x => Raise x
              | Ok start =>
                  match via_iso (max_ts e) with
                  | Raise x => Raise x
                  | Ok stop =>
                      if decide (overlaps start stop e)
                      then Ok (filter (in_window start stop) (ingested_rows ps))
                      else Raise (AttributeError "shape")
                end
            end) as Hrun.
  { unfold playground, bind at 1. fold ps. rewrite Hadd, Hf.
    unfold bind at 1 2 3 4 5, lift at 1 2 3 4 5, read_csv, column.
    rewrite Hidx. change (csv_header c) with index_columns.
    rewrite !decide_True by (apply list_elem_of_In; simpl; auto).
    change (csv_rows c) with [e]. cbn [map np_min np_max foldl].
    change (foldl Z.min t0 ts) with (min_ts e).
    change (foldl Z.max t0 ts) with (max_ts e).
    unfold bind at 1, lift at 1.
    destruct (via_iso (min_ts e)) as [start|x]; [|done].
    unfold bind at 1, lift at 1.
    destruct (via_iso (max_ts e)) as [stop|x]; [|done].
    rewrite (cmd_read_ok _ c start stop Hidx).
    - change (csv_rows c) with [e]. unfold bind, lift, ret.
      destruct (decide (overlaps start stop e)) as [Hov|Hov].
      + rewrite filter_cons_True by done. rewrite filter_nil.
        cbn [map concat fst]. by rewrite app_nil_r, Hchunk.
      + rewrite filter_cons_False by done. by rewrite filter_nil.
    - done.
    - change (csv_rows c) with [e].
      destruct (decide (overlaps start stop e)) as [Hov|Hov].
      + rewrite filter_cons_True by done. rewrite filter_nil.
        constructor; [|constructor]. simpl. rewrite lookup_insert_eq. by eexists.
      + rewrite filter_cons_False by done. rewrite filter_nil. constructor. }
  assert (is_min (min_ts e) (map draw_now draws)) as Hmin.
  { destruct (foldl_min_spec t0 ts) as [Hin Hle]. rewrite <- Hts in Hin, Hle.
    split.
    - by apply generated_times.
    - intros x Hx. by apply Hle, generated_times. }
  assert (is_max (max_ts e) (map draw_now draws)) as Hmax.
  { destruct (foldl_max_spec t0 ts) as [Hin Hle]. rewrite <- Hts in Hin, Hle.
    split.
    - by apply generated_times.
    - intros x Hx. by apply Hle, generated_times. }
  exists (min_ts e), (max_ts e). split; [done|]. split; [done|].
  intros start stop Hstart Hstop.
  rewrite Hrun, Hstart, Hstop. fold ps. split.
  - destruct (decide (overlaps start stop e)) as [Hov|Hov];
      destruct (decide (start ≤ max_ts e ∧ min_ts e ≤ stop)) as [Hd|Hd];
      done.
  - intros Hlo Hhi. pose proof (chunk_entry_ordered t0 ts) as Hord. fold e in Hord.
    rewrite decide_True by (split; lia). f_equal.
    apply filter_all, Forall_forall. intros row Hrow.
    destruct (ingested_rows_timestamp ps row Hrow) as (t & Ht & Hin).
    unfold in_window. rewrite Ht.
    destruct (foldl_min_spec t0 ts) as [_ Hle1].
    destruct (foldl_max_spec t0 ts) as [_ Hle2].
    rewrite Hts in Hin. specialize (Hle1 t Hin). specialize (Hle2 t Hin).
    simpl in Hlo, Hhi. lia.
Qed.

(** Witness of [playground_window]: five draws, read back through a text
    that rounds to the nearest ten.  The clock readings 16 and 24 both come
    back as 20, and the records stamped 16 and 24 are not in the result. *)
Lemma playground_window_witness :
  let via_iso := λ t, Ok ((t + 5) / 10 * 10) in
  let draw := λ n now, {| draw_n := n; draw_now := now;
                          draw_scattering := λ i j k, 0;
                          draw_spectral := λ i j k, 1 |} in
  let draws := [draw 2 16; draw 1 20; draw 3 20; draw 1 20; draw 2 24] in
  ∃ lo hi,
    is_min lo (map draw_now draws) ∧
    is_max hi (map draw_now draws) ∧
    ∀ start stop,
      via_iso lo = Ok start → via_iso hi = Ok stop →
      (playground via_iso empty_disk draws).1 =
        (if decide (start ≤ hi ∧ lo ≤ stop)
         then Ok (filter (in_window start stop)
                         (ingested_rows (map generate_packet draws)))
         else Raise (AttributeError "shape")) ∧
      (start ≤ lo → hi ≤ stop →
       (playground via_iso empty_disk draws).1 =
         Ok (ingested_rows (map generate_packet draws))).
Proof.
  intros via_iso draw draws. apply (playground_window via_iso draws).
  - repeat constructor; simpl; lia.
  - discriminate.
  - simpl. lia.
Defined.

(** * The baseline store *)

(** The loop of the baseline [cmd_write] on a stream made of the frames of
    the records [ps]: the records go onto the end of the file. *)
Lemma basic_write_loop_frames loads dumps path ps frames :
  Forall (λ p, loads (dumps p) = Ok p ∧ dumps p ≠ []) ps →
  Forall2 (λ p bytes, frame dumps p = Some bytes) ps frames →
  ∀ rounds s fs total written,
    (length ps < rounds)%nat →
    Forall (λ seg, seg ≠ []) s →
    concat s = concat frames →
    basic_storage.write_loop loads rounds path total written (s, fs) =
      (Ok (written + Z.of_nat (length ps), total + shape0 (concat s)),
       ([], match ps with
            | [] => fs
            | _ => <[path := default [] (fs !! path) ++ ps]> fs
            end)).
Proof.
  intros Hcodec Hframes. induction Hframes as [|p bytes ps frames Hframe _ IH];
    intros rounds s fs total written Hrounds Hs Hcat.
  - destruct rounds as [|rounds]; [simpl in Hrounds; lia|].
    assert (s = []) as ->.
    { destruct s as [|seg s]; [done|]. apply Forall_cons in Hs as [Hseg _].
      simpl in Hcat. by destruct seg. }
    simpl. unfold bind, basic_storage.on_stdin. simpl.
    unfold ret, shape0. simpl. by rewrite !Z.add_0_r.
  - apply Forall_cons in Hcodec as [[Hloads Hne] Hcodec].
    destruct rounds as [|rounds]; [simpl in Hrounds; lia|].
    assert (∃ rest1, get_packet_from_stream loads s
                       = (Ok (Some p, shape0 bytes), rest1) ∧
                     concat rest1 = concat frames ∧
                     Forall (λ seg, seg ≠ []) rest1) as (rest1 & Hget & Hcat1 & Hs1).
    { unfold frame in Hframe.
      destruct (struct_pack_I (shape0 (dumps p))) as [header|] eqn:Hpack; [|done].
      simpl in Hframe. injection Hframe as <-.
      destruct (get_packet_payload loads s header (dumps p) (concat frames))
        as (rest1 & Hget & Hrest);
        [done|done|done|rewrite Hcat; cbn [concat]; by rewrite <- app_assoc|].
      exists rest1. split; [|done]. rewrite Hget, Hloads.
      destruct (struct_pack_I_shape _ _ Hpack) as (Hlen & _).
      do 3 f_equal. unfold shape0. rewrite length_app. lia. }
    cbn [basic_storage.write_loop]. unfold bind at 1.
    unfold basic_storage.on_stdin. cbn [fst snd].
    rewrite Hget. cbn [fst snd]. unfold bind at 1.
    unfold basic_storage.on_files at 1, basic_storage.write_to_storage, modify.
    cbn [fst snd].
    rewrite (IH Hcodec rounds rest1 _ (total + shape0 bytes) (written + 1));
      [|simpl in Hrounds; lia|done|done].
    f_equal; [f_equal; f_equal|f_equal].
    + simpl. lia.
    + rewrite Hcat, Hcat1. unfold shape0. cbn [concat]. rewrite length_app. lia.
    + destruct ps as [|q ps]; [done|].
      rewrite lookup_insert_eq, insert_insert_eq. simpl.
      by rewrite <- app_assoc.
Qed.

(** X18. The baseline [cmd_write], fed with the frames of the records
    [ps] cut in any way into non-empty pieces, never raises: it reads the
    stream to its end, leaves the records on the end of the storage file,
    after what the file held, and reports as many packets as there are
    records and as many bytes as the stream has.  It creates the file with
    the first record: on an empty stream the files are as they were. *)
Theorem basic_cmd_write_appends (loads : list byte → result Packet)
    (dumps : Packet → list byte) (path : string) (ps : list Packet)
    (frames : list (list byte)) (s : list (list byte))
    (fs : gmap string (list Packet)) :
  Forall (λ p, loads (dumps p) = Ok p ∧ dumps p ≠ []) ps →
  Forall2 (λ p bytes, frame dumps p = Some bytes) ps frames →
  Forall (λ seg, seg ≠ []) s →
  concat s = concat frames →
  basic_storage.cmd_write loads path s fs =
    (Ok (Z.of_nat (length ps), shape0 (concat s)),
     ([], match ps with
          | [] => fs
          | _ => <[path := default [] (fs !! path) ++ ps]> fs
          end)).
Proof.
  intros Hcodec Hframes Hs Hcat.
  pose proof (frames_length loads dumps ps frames Hcodec Hframes) as Hlen.
  unfold basic_storage.cmd_write.
  rewrite (basic_write_loop_frames loads dumps path ps frames Hcodec Hframes);
    [done|rewrite Hcat; lia|done|done].
Qed.

(** Witness of [basic_cmd_write_appends]: the frames of two small records,
    eleven bytes in pieces of four, five and two, onto a file that holds
    one record. *)
Lemma basic_cmd_write_appends_witness :
  let ps := [tiny_packet [5; 7]; tiny_packet [9]] in
  let s := [["000"; "000"; "000"; "002"]; ["005"; "007"; "000"; "000"; "000"];
            ["001"; "009"]]%byte in
  let fs : gmap string (list Packet) := {[ "output.pkl" := [tiny_packet [1]] ]} in
  basic_storage.cmd_write tiny_loads "output.pkl" s fs =
    (Ok (2, 11),
     ([], <["output.pkl" := default [] (fs !! "output.pkl") ++ ps]> fs)).
Proof.
  intros ps s fs.
  apply (basic_cmd_write_appends tiny_loads tiny_dumps "output.pkl" ps
           [["000"; "000"; "000"; "002"; "005"; "007"];
            ["000"; "000"; "000"; "001"; "009"]]%byte s fs).
  - repeat constructor; discriminate.
  - repeat constructor.
  - repeat constructor; discriminate.
  - reflexivity.
Defined.

(** The positions [np.where] returns are those where the condition
    holds. *)
Lemma np_where_from_spec cond : ∀ k i,
  i ∈ basic_storage.np_where_from k cond ↔
  ∃ j, i = (k + j)%nat ∧ cond !! j = Some true.
Proof.
  induction cond as [|b cond IH]; intros k i; simpl.
  - split; [by intros ?%elem_of_nil|by intros (j & _ & ?)].
  - destruct b.
    + rewrite elem_of_cons, IH. split.
      * intros [->|(j & -> & Hj)]; [exists O; split; [lia|done]|].
        exists (S j). split; [lia|done].
      * intros ([|j] & -> & Hj); [left; lia|].
        right. exists j. split; [lia|done].
    + rewrite IH. split.
      * intros (j & -> & Hj). exists (S j). split; [lia|done].
      * intros ([|j] & -> & Hj); [done|]. exists j. split; [lia|done].
Qed.

(** Taking the rows at the positions of a mask no longer than the array
    is selecting by the mask. *)
Lemma take_rows_where {A} (cond : list bool) : ∀ (a pre : list A),
  (length cond ≤ length a)%nat →
  basic_storage.take_rows (pre ++ a)
    (basic_storage.np_where_from (length pre) cond) = Ok (select a cond).
Proof.
  induction cond as [|b cond IH]; intros a pre Hlen.
  { by destruct a. }
  destruct a as [|x a]; [simpl in Hlen; lia|].
  assert (basic_storage.take_rows (pre ++ x :: a)
            (basic_storage.np_where_from (S (length pre)) cond)
          = Ok (select a cond)) as Hrest.
  { specialize (IH a (pre ++ [x])). rewrite <- app_assoc, length_app in IH.
    simpl in IH. rewrite Nat.add_1_r in IH. apply IH. simpl in Hlen. lia. }
  cbn [basic_storage.np_where_from select]. destruct b; [|done].
  cbn [basic_storage.take_rows]. rewrite list_lookup_middle by done.
  by rewrite Hrest.
Qed.

(** [take_rows] raises nothing but [IndexError], and raises it when one of
    the positions lies outside the array. *)
Lemma take_rows_outside {A} (a : list A) mask i :
  i ∈ mask → (length a ≤ i)%nat →
  basic_storage.take_rows a mask = Raise IndexError.
Proof.
  intros Hi Hout. induction mask as [|j mask IH]; [by apply elem_of_nil in Hi|].
  cbn [basic_storage.take_rows].
  destruct (a !! j) as [row|] eqn:Hj; [|done].
  apply elem_of_cons in Hi as [->|Hi].
  - apply lookup_lt_Some in Hj. lia.
  - by rewrite (IH Hi).
Qed.

(** The mask of the window selects the particles in the window. *)
Lemma select_window_blocks s e : ∀ (ts : list Z) (sc sp : list (list (list Z))),
  length sc = length ts → length sp = length ts →
  let mask := mask_and (basic_storage.array_ge ts s) (basic_storage.array_le ts e) in
  select sc mask = map (λ x, x.2.1) (filter (λ x, s ≤ x.1 ≤ e) (zip ts (zip sc sp))) ∧
  select sp mask = map (λ x, x.2.2) (filter (λ x, s ≤ x.1 ≤ e) (zip ts (zip sc sp))).
Proof.
  induction ts as [|t ts IH]; intros [|a sc] [|b sp] H1 H2; try done.
  destruct (IH sc sp) as [IH1 IH2]; [simpl in *; lia|simpl in *; lia|].
  cbv zeta in IH1, IH2 |- *.
  unfold mask_and, basic_storage.array_ge, basic_storage.array_le in *.
  cbn [map zip_with select]. rewrite filter_cons. cbn [fst snd].
  destruct (decide (s ≤ t ≤ e)) as [[Hs He]|Hout].
  - apply Z.leb_le in Hs, He. rewrite Hs, He. cbn [andb map fst snd].
    by rewrite IH1, IH2.
  - destruct (s <=? t) eqn:E1; destruct (t <=? e) eqn:E2; cbn [andb]; try done.
    exfalso. apply Hout. split; by apply Z.leb_le.
Qed.

Lemma mask_length s e (ts : list Z) :
  length (mask_and (basic_storage.array_ge ts s) (basic_storage.array_le ts e))
  = length ts.
Proof.
  unfold mask_and, basic_storage.array_ge, basic_storage.array_le.
  rewrite length_zip_with, !length_map. lia.
Qed.

(** The particles of shape-consistent records, record after record, are
    those of the three concatenated arrays. *)
Lemma particle_blocks_concat ps :
  Forall shape_consistent ps →
  concat (map particle_blocks ps) =
    zip (concat (map timestamps ps))
        (zip (concat (map scattering ps)) (concat (map spectral ps))).
Proof.
  induction 1 as [|p ps [H1 H2] Hps IH]; [done|]. simpl.
  destruct (consistent_lengths ps Hps) as [H3 H4].
  rewrite (zip_with_app pair (scattering p) _ (spectral p)) by lia.
  rewrite (zip_with_app pair (timestamps p)) by (rewrite length_zip_with_l_eq; lia).
  by rewrite IH.
Qed.

Lemma item_last_cons {A} (x : A) l :
  ∃ y, basic_storage.item_last (x :: l) = Ok y ∧ y ∈ x :: l.
Proof.
  unfold basic_storage.item_last.
  destruct (last (x :: l)) as [y|] eqn:Hlast.
  - exists y. split; [done|]. rewrite last_lookup in Hlast.
    by apply list_elem_of_lookup_2 in Hlast.
  - by apply last_None in Hlast.
Qed.

Lemma matrices_same_shape A B ps :
  Forall (matrices_of A B) ps →
  same_shape (concat (map scattering ps)) ∧ same_shape (concat (map spectral ps)).
Proof.
  intros Hps.
  split; [apply (same_shape_all _ (replicate A.1 A.2))
         |apply (same_shape_all _ (replicate B.1 B.2))];
    induction Hps as [|p ps (_ & _ & _ & _ & Ha & Hb) _ IH];
    cbn [map concat]; first [done|by apply Forall_app].
Qed.

Lemma matrices_nonempty A B ps :
  Forall (matrices_of A B) ps → ps ≠ [] →
  concat (map scattering ps) ≠ [] ∧ concat (map spectral ps) ≠ [].
Proof.
  intros Hps Hne. destruct Hps as [|p ps (_ & _ & Hsc & Hsp & _) _]; [done|].
  cbn [map concat]. split; intros [Hnil _]%app_eq_nil; done.
Qed.

Lemma records_matrices A B ps :
  Forall (record_of A B) ps → Forall (matrices_of A B) ps.
Proof. intros Hps. eapply Forall_impl; [exact Hps|]. by intros p [_ Hp]. Qed.

(** The baseline query up to the two matrices, on a file of records with
    at least one timestamp, all of them in the calendar. *)
Lemma basic_cmd_read_unfold fromtimestamp path fs ps s e :
  fs !! path = Some ps →
  concat (map timestamps ps) ≠ [] →
  (∀ t, t ∈ concat (map timestamps ps) → fromtimestamp t = Ok tt) →
  let mask := basic_storage.np_where
                (mask_and (basic_storage.array_ge (concat (map timestamps ps)) s)
                          (basic_storage.array_le (concat (map timestamps ps)) e)) in
  basic_storage.cmd_read fromtimestamp path fs s e =
    match np_concatenate (map scattering ps) with
    | Raise x => Raise x
    | Ok scat =>
        match basic_storage.take_rows scat mask with
        | Raise x => Raise x
        | Ok sc =>
            match np_concatenate (map spectral ps) with
            | Raise x => Raise x
            | Ok spec =>
                match basic_storage.take_rows spec mask with
                | Raise x => Raise x
                | Ok sp => Ok {| timestamps := concat (map timestamps ps);
                                 scattering := sc; spectral := sp |}
                end
            end
        end
    end.
Proof.
  intros Hfile Hne Hcal mask. unfold basic_storage.cmd_read. rewrite Hfile.
  rewrite (np_concatenate_ok (map timestamps ps))
    by first [done|apply same_shape_numbers].
  subst mask.
  destruct (concat (map timestamps ps)) as [|t0 ts]; [done|].
  unfold mbind, basic_storage.result_bind. cbn [item0].
  rewrite (Hcal t0) by left.
  destruct (item_last_cons t0 ts) as (y & -> & Hy). rewrite (Hcal y Hy).
  destruct (np_concatenate (map scattering ps)) as [scat|x]; [|done].
  destruct (basic_storage.take_rows scat _) as [sc|x]; [|done].
  destruct (np_concatenate (map spectral ps)) as [spec|x]; [|done].
  by destruct (basic_storage.take_rows spec _).
Qed.

(** The baseline query on a file of Records of the data model: the three
    arrays it returns. *)
Lemma basic_read_selected A B fromtimestamp path fs ps s e :
  fs !! path = Some ps →
  Forall (record_of A B) ps →
  ps ≠ [] →
  (∀ t, t ∈ concat (map timestamps ps) → fromtimestamp t = Ok tt) →
  basic_storage.cmd_read fromtimestamp path fs s e =
    Ok {| timestamps := concat (map timestamps ps);
          scattering :=
            map (λ x, x.2.1)
                (filter (λ x, s ≤ x.1 ≤ e) (concat (map particle_blocks ps)));
          spectral :=
            map (λ x, x.2.2)
                (filter (λ x, s ≤ x.1 ≤ e) (concat (map particle_blocks ps))) |}.
Proof.
  intros Hfile Hps Hsome Hcal.
  pose proof (records_consistent A B ps Hps) as Hcons.
  pose proof (records_matrices A B ps Hps) as Hmat.
  destruct (consistent_lengths ps Hcons) as [H1 H2].
  destruct (matrices_same_shape A B ps Hmat) as [Hsame_sc Hsame_sp].
  destruct (matrices_nonempty A B ps Hmat Hsome) as [Hsc Hsp].
  assert (concat (map timestamps ps) ≠ []) as Hne.
  { intros Hnil. rewrite Hnil in H1. by destruct (concat (map scattering ps)). }
  rewrite (basic_cmd_read_unfold fromtimestamp path fs ps s e Hfile Hne Hcal).
  rewrite !np_concatenate_ok by done.
  unfold basic_storage.np_where.
  rewrite (take_rows_where _ (concat (map scattering ps)) [])
    by (rewrite mask_length; lia).
  rewrite (take_rows_where _ (concat (map spectral ps)) [])
    by (rewrite mask_length; lia).
  destruct (select_window_blocks s e _ _ _ H1 H2) as [-> ->].
  by rewrite particle_blocks_concat.
Qed.

(** X19. The baseline query on a storage file of Records of the data
    model, all of one shape, at least one of them and all stamped within
    the calendar: it does not raise; the two matrices it returns hold the
    blocks of the particles stamped inside the window, in the order of
    the file; the timestamps it returns are those of the whole file, the
    window notwithstanding. *)
Theorem basic_read_window (A B : nat * nat) (fromtimestamp : Z → result unit)
    (path : string) (fs : gmap string (list Packet)) (ps : list Packet)
    (start_ts stop_ts : Z) :
  fs !! path = Some ps →
  Forall (record_of A B) ps →
  ps ≠ [] →
  (∀ t, t ∈ concat (map timestamps ps) → fromtimestamp t = Ok tt) →
  ∃ data,
    basic_storage.cmd_read fromtimestamp path fs start_ts stop_ts = Ok data ∧
    timestamps data = concat (map timestamps ps) ∧
    zip (scattering data) (spectral data) =
      map snd (filter (λ x, start_ts ≤ x.1 ≤ stop_ts)
                      (concat (map particle_blocks ps))) ∧
    length (scattering data) = length (spectral data).
Proof.
  intros Hfile Hps Hsome Hcal. eexists. split.
  { by apply (basic_read_selected A B). }
  cbn [timestamps scattering spectral]. split; [done|].
  split; [|by rewrite !length_map].
  induction (filter _ _) as [|[t [a b]] l IH]; [done|].
  cbn [map zip zip_with fst snd]. f_equal. apply IH.
Qed.

(** Witness of [basic_read_window]: a file of two records, the window
    from 6 to 9, a calendar that holds every timestamp. *)
Lemma basic_read_window_witness :
  let ps := [Examples.two_at_5_7; Examples.one_at_9] in
  ∃ data,
    basic_storage.cmd_read (λ _, Ok tt) "output.pkl" {[ "output.pkl" := ps ]} 6 9
      = Ok data ∧
    timestamps data = concat (map timestamps ps) ∧
    zip (scattering data) (spectral data) =
      map snd (filter (λ x, 6 ≤ x.1 ≤ 9) (concat (map particle_blocks ps))) ∧
    length (scattering data) = length (spectral data).
Proof.
  intros ps.
  apply (basic_read_window (1, 2)%nat (1, 1)%nat (λ _, Ok tt) "output.pkl"
           {[ "output.pkl" := ps ]} ps 6 9).
  - reflexivity.
  - apply Forall_cons. split; [apply two_at_5_7_record|].
    apply Forall_cons. split; [apply one_at_9_record|]. apply Forall_nil_2.
  - discriminate.
  - reflexivity.
Defined.

Lemma take_rows_raises {A} (a : list A) mask x :
  basic_storage.take_rows a mask = Raise x → x = IndexError.
Proof.
  induction mask as [|i mask IH]; [done|]. cbn [basic_storage.take_rows].
  destruct (a !! i); [|by intros [= <-]].
  unfold mbind, basic_storage.result_bind.
  destruct (basic_storage.take_rows a mask) as [rows|y]; [done|].
  intros [= <-]. by apply IH.
Qed.

Lemma mask_lookup s e (ts : list Z) i t :
  ts !! i = Some t → s ≤ t ≤ e →
  mask_and (basic_storage.array_ge ts s) (basic_storage.array_le ts e) !! i
  = Some true.
Proof.
  intros Hi [Hs He]. unfold mask_and, basic_storage.array_ge, basic_storage.array_le.
  apply lookup_zip_with_Some. exists true, true. split; [done|].
  change (map ?f ts !! i) with ((f <$> ts) !! i).
  rewrite !list_lookup_fmap, Hi. simpl.
  apply Z.leb_le in Hs, He. by rewrite Hs, He.
Qed.

(** X20. How the baseline query fails.  A storage file that does not
    exist is a [FileNotFoundError]; a file without a record a
    [ValueError], raised by [np.hstack]; records without a timestamp an
    [IndexError], raised for the message about the first timestamp.
    Scattering blocks that differ in shape are a [ValueError], raised by
    [np.vstack].  And there is no padding of arrays that are too short:
    when the matrices are those of the data model, all of one shape, and a
    timestamp in the window stands at a position that the scattering or
    the spectral array does not have, the query raises [IndexError]. *)
Theorem basic_read_errors (fromtimestamp : Z → result unit) (path : string)
    (fs : gmap string (list Packet)) (start_ts stop_ts : Z) :
  (fs !! path = None →
   basic_storage.cmd_read fromtimestamp path fs start_ts stop_ts
   = Raise (FileNotFoundError path)) ∧
  (fs !! path = Some [] →
   basic_storage.cmd_read fromtimestamp path fs start_ts stop_ts
   = Raise ValueError) ∧
  (∀ ps, fs !! path = Some ps → ps ≠ [] → concat (map timestamps ps) = [] →
   basic_storage.cmd_read fromtimestamp path fs start_ts stop_ts
   = Raise IndexError) ∧
  (∀ ps,
     fs !! path = Some ps →
     concat (map timestamps ps) ≠ [] →
     (∀ t, t ∈ concat (map timestamps ps) → fromtimestamp t = Ok tt) →
     ¬ same_shape (concat (map scattering ps)) →
     basic_storage.cmd_read fromtimestamp path fs start_ts stop_ts
     = Raise ValueError) ∧
  (∀ A B ps i t,
     fs !! path = Some ps →
     Forall (matrices_of A B) ps →
     (∀ t, t ∈ concat (map timestamps ps) → fromtimestamp t = Ok tt) →
     concat (map timestamps ps) !! i = Some t →
     start_ts ≤ t ≤ stop_ts →
     (length (concat (map scattering ps)) ≤ i ∨
      length (concat (map spectral ps)) ≤ i)%nat →
     basic_storage.cmd_read fromtimestamp path fs start_ts stop_ts
     = Raise IndexError).
Proof.
  split; [|split; [|split; [|split]]].
  - intros Hfile. unfold basic_storage.cmd_read. by rewrite Hfile.
  - intros Hfile. unfold basic_storage.cmd_read. by rewrite Hfile.
  - intros ps Hfile Hne Hts. unfold basic_storage.cmd_read. rewrite Hfile.
    rewrite np_concatenate_numbers by (by destruct ps). by rewrite Hts.
  - intros ps Hfile Hne Hcal Hdiffer.
    rewrite (basic_cmd_read_unfold fromtimestamp path fs ps start_ts stop_ts
               Hfile Hne Hcal).
    cbv zeta. unfold np_concatenate at 1.
    destruct (map scattering ps); [done|]. by rewrite decide_False.
  - intros A B ps i t Hfile Hmat Hcal Hi Hin Hshort.
    assert (ps ≠ []) as Hsome by (intros ->; done).
    destruct (matrices_same_shape A B ps Hmat) as [Hsame_sc Hsame_sp].
    destruct (matrices_nonempty A B ps Hmat Hsome) as [Hsc Hsp].
    rewrite (basic_cmd_read_unfold fromtimestamp path fs ps start_ts stop_ts
               Hfile); [|by intros Hnil; rewrite Hnil in Hi|done].
    cbv zeta. rewrite !np_concatenate_ok by done.
    assert (i ∈ basic_storage.np_where
                  (mask_and (basic_storage.array_ge (concat (map timestamps ps)) start_ts)
                            (basic_storage.array_le (concat (map timestamps ps)) stop_ts)))
      as Hpos.
    { apply np_where_from_spec. exists i. split; [done|]. by eapply mask_lookup. }
    destruct (basic_storage.take_rows (concat (map scattering ps)) _)
      as [sc|x] eqn:Htake.
    + destruct Hshort as [Hshort|Hshort].
      * by rewrite (take_rows_outside _ _ i Hpos Hshort) in Htake.
      * by rewrite (take_rows_outside _ _ i Hpos Hshort).
    + by apply take_rows_raises in Htake as ->.
Qed.

(** Witness of [basic_read_errors]: a file that holds one record with
    five timestamps, 1 to 5, and four particles in both matrices; the
    window from 5 to 5 selects position 4, which the matrices lack. *)
Lemma basic_read_errors_witness :
  let short := {| timestamps := [1; 2; 3; 4; 5];
                  scattering := [[[1]]; [[2]]; [[3]]; [[4]]];
                  spectral := [[[1]]; [[2]]; [[3]]; [[4]]] |} in
  basic_storage.cmd_read (λ _, Ok tt) "output.pkl" {[ "output.pkl" := [short] ]} 5 5
  = Raise IndexError.
Proof.
  intros short.
  destruct (basic_read_errors (λ _, Ok tt) "output.pkl"
              {[ "output.pkl" := [short] ]} 5 5) as (_ & _ & _ & _ & Hshort).
  apply (Hshort (1, 1)%nat (1, 1)%nat [short] 4%nat 5).
  - reflexivity.
  - apply Forall_cons. split; [|apply Forall_nil_2].
    apply (bool_decide_unpack _). vm_compute. exact I.
  - reflexivity.
  - reflexivity.
  - lia.
  - left. simpl. lia.
Defined.






(** * The producer *)

Lemma generate_packet_ends r :
  1 ≤ draw_n r →
  is_Some (head (timestamps (generate_packet r))) ∧
  is_Some (last (timestamps (generate_packet r))).
Proof.
  intros Hn. unfold generate_packet. cbn [timestamps].
  destruct (Z.to_nat (draw_n r)) as [|n] eqn:Hnat; [lia|].
  split; [by eexists|].
  destruct (last (map (λ one, one * draw_now r) (repeat 1 (S n)))) eqn:Hlast;
    [by eexists|].
  by apply last_None in Hlast.
Qed.

Lemma generated_frame dumps r :
  shape0 (dumps (generate_packet r)) < 2 ^ 32 →
  ∃ header,
    struct_pack_I (shape0 (dumps (generate_packet r))) = Some header ∧
    length header = 4%nat ∧
    frame dumps (generate_packet r) = Some (header ++ dumps (generate_packet r)).
Proof.
  intros Hsize. unfold frame, struct_pack_I.
  rewrite decide_True by (unfold shape0 in *; lia).
  eexists. split; [done|]. by split.
Qed.

(** The loop of [main], from any state: it has sent the frames of the
    first [n] draws, whole, and either it was interrupted, all draws
    used, or it stopped at the first frame that brought the total to
    [max_bytes]. *)
Lemma main_loop_spec dumps max_bytes : ∀ draws sent,
  Forall valid_draw draws →
  Forall (λ r, shape0 (dumps (generate_packet r)) < 2 ^ 32) draws →
  ∃ n frames sent',
    data_generator.main_loop dumps max_bytes draws sent = Some sent' ∧
    (n ≤ length draws)%nat ∧
    Forall2 (λ r bytes, frame dumps (generate_packet r) = Some bytes)
            (take n draws) frames ∧
    concat (data_generator.stdout sent')
      = concat (data_generator.stdout sent) ++ concat frames ∧
    data_generator.total_bytes sent'
      = data_generator.total_bytes sent + shape0 (concat frames) ∧
    data_generator.packet_count sent'
      = data_generator.packet_count sent + Z.of_nat n ∧
    data_generator.particle_count sent'
      = data_generator.particle_count sent
        + particles (map generate_packet (take n draws)) ∧
    (4 * Z.of_nat n ≤ shape0 (concat frames)) ∧
    ((n = length draws ∧
      (0 < max_bytes → draws ≠ [] → data_generator.total_bytes sent' < max_bytes)) ∨
     (0 < max_bytes ≤ data_generator.total_bytes sent' ∧
      ∃ before last_frame,
        frames = before ++ [last_frame] ∧
        (before ≠ [] →
         data_generator.total_bytes sent + shape0 (concat before) < max_bytes))).
Proof.
  induction draws as [|r draws IH]; intros sent Hvalid Hsize.
  { exists O, [], sent. cbn [data_generator.main_loop take concat map particles foldr].
    unfold shape0. simpl. rewrite app_nil_r, !Z.add_0_r.
    repeat split; try done. left. by split. }
  apply Forall_cons in Hvalid as [Hr Hvalid].
  apply Forall_cons in Hsize as [Hsr Hsize].
  destruct (generated_frame dumps r Hsr) as (header & Hpack & Hlen & Hframe).
  destruct Hr as ((Hn & Hn') & _).
  destruct (generate_packet_ends r Hn) as [[t Hhead] [t' Hlast]].
  pose proof (generate_packet_consistent r) as [Hsc _].
  cbn [data_generator.main_loop]. cbv zeta. rewrite Hpack. cbn [mbind option_bind].
  set (sent1 := {| data_generator.stdout := _ |}).
  assert (concat (data_generator.stdout sent1)
          = concat (data_generator.stdout sent)
            ++ (header ++ dumps (generate_packet r))) as Hout1.
  { unfold sent1. cbn [data_generator.stdout]. rewrite concat_app.
    cbn [concat]. by rewrite app_nil_r. }
  assert (data_generator.total_bytes sent1
          = data_generator.total_bytes sent
            + shape0 (header ++ dumps (generate_packet r))) as Htot1.
  { unfold sent1, shape0. cbn [data_generator.total_bytes].
    rewrite length_app. unfold shape0. lia. }
  assert (4 ≤ shape0 (header ++ dumps (generate_packet r))) as Hfour.
  { unfold shape0. rewrite length_app. lia. }
  assert (∃ z, (if decide (data_generator.packet_count sent1 = 1)
                then head (timestamps (generate_packet r)) else Some 0) = Some z)
    as [z ->].
  { case_decide; by eexists. }
  cbn [mbind option_bind].
  destruct (decide (0 < max_bytes ∧ max_bytes ≤ data_generator.total_bytes sent1))
    as [Hstop|Hgo].
  - rewrite Hlast. cbn [mbind option_bind].
    exists 1%nat, [header ++ dumps (generate_packet r)], sent1.
    cbn [take map particles foldr concat length]. rewrite take_0, app_nil_r.
    cbn [map foldr].
    split; [done|]. split; [lia|]. split; [by repeat constructor|].
    split; [done|]. split; [done|]. split; [done|].
    split. { unfold sent1. cbn [data_generator.particle_count].
             unfold shape0. rewrite Hsc. lia. }
    split; [lia|]. right. split; [done|].
    by exists [], (header ++ dumps (generate_packet r)).
  - destruct (IH sent1 Hvalid Hsize)
      as (n & frames & sent' & Hloop & Hle & Hfr & Hout & Htot & Hpk & Hpt & Hsz & Hend).
    rewrite Hloop.
    exists (S n), ((header ++ dumps (generate_packet r)) :: frames), sent'.
    cbn [take map particles foldr concat length].
    fold (particles (map generate_packet (take n draws))).
    split; [done|]. split; [lia|]. split; [by constructor|].
    split. { by rewrite Hout, Hout1, <- app_assoc. }
    split. { rewrite Htot, Htot1. unfold shape0. rewrite !length_app. lia. }
    split. { rewrite Hpk. unfold sent1. cbn [data_generator.packet_count]. lia. }
    split. { rewrite Hpt. unfold sent1. cbn [data_generator.particle_count].
             unfold shape0. rewrite Hsc. lia. }
    split. { unfold shape0 in *. rewrite !length_app in *. lia. }
    destruct Hend as [[-> Hlt]|[Hmax (before & last_frame & -> & Hbefore)]].
    + left. split; [done|]. intros Hpos _.
      destruct draws as [|r' draws].
      * apply Forall2_nil_inv_l in Hfr as ->. rewrite Htot.
        change (shape0 (concat [])) with 0. lia.
      * by apply Hlt.
    + right. split; [done|].
      exists ((header ++ dumps (generate_packet r)) :: before), last_frame.
      split; [done|]. intros _. destruct before as [|b before].
      * cbn [concat]. rewrite app_nil_r. lia.
      * specialize (Hbefore ltac:(done)). rewrite Htot1 in Hbefore.
        cbn [concat] in *. unfold shape0 in *. rewrite !length_app in *. lia.
Qed.

(** X22. [main] of the generator with a byte limit, given rounds enough
    to reach it: it raises nothing and stops by itself, having written
    whole frames only, those of the records it generated, in order; the
    frame it stops after is the first that brings the total to the limit,
    the total standing below the limit before it; and its counters are
    the number of frames, the number of bytes written and the number of
    particles generated. *)
Theorem generator_stops_at_limit (dumps : Packet → list byte) (max_bytes : Z)
    (draws : list Draw) :
  0 < max_bytes ≤ 4 * Z.of_nat (length draws) →
  Forall valid_draw draws →
  Forall (λ r, shape0 (dumps (generate_packet r)) < 2 ^ 32) draws →
  ∃ sent n before last_frame,
    data_generator.main dumps max_bytes draws = Some sent ∧
    (n ≤ length draws)%nat ∧
    Forall2 (λ r bytes, frame dumps (generate_packet r) = Some bytes)
            (take n draws) (before ++ [last_frame]) ∧
    concat (data_generator.stdout sent) = concat (before ++ [last_frame]) ∧
    data_generator.packet_count sent = Z.of_nat n ∧
    data_generator.particle_count sent
      = particles (map generate_packet (take n draws)) ∧
    data_generator.total_bytes sent = shape0 (concat (data_generator.stdout sent)) ∧
    shape0 (concat before) < max_bytes ≤ data_generator.total_bytes sent.
Proof.
  intros Hmax Hvalid Hsize.
  destruct (main_loop_spec dumps max_bytes draws data_generator.nothing_sent
              Hvalid Hsize)
    as (n & frames & sent & Hloop & Hle & Hfr & Hout & Htot & Hpk & Hpt & Hsz & Hend).
  cbn [data_generator.nothing_sent data_generator.stdout
       data_generator.total_bytes data_generator.packet_count
       data_generator.particle_count concat app] in *.
  destruct Hend as [[-> Hlt]|[Hstop (before & last_frame & -> & Hbefore)]].
  { assert (draws ≠ []) as Hne by (intros ->; simpl in Hmax; lia).
    specialize (Hlt ltac:(lia) Hne). lia. }
  exists sent, n, before, last_frame.
  split; [done|]. split; [done|]. split; [done|]. split; [done|].
  split; [lia|]. split; [lia|]. split; [rewrite Hout; lia|].
  split; [|lia]. destruct before as [|b before].
  - change (shape0 (concat [])) with 0. lia.
  - specialize (Hbefore ltac:(done)). lia.
Qed.

(** Witness of [generator_stops_at_limit]: records pickled by the small
    codec, one byte for each timestamp, and a limit of 12 bytes: the
    frames have 6, 5 and 7 bytes, and the third one reaches the limit. *)
Lemma generator_stops_at_limit_witness :
  let draw := λ n now, {| draw_n := n; draw_now := now;
                          draw_scattering := λ i j k, 0;
                          draw_spectral := λ i j k, 1 |} in
  let draws := [draw 2 5; draw 1 6; draw 3 7; draw 1 8] in
  ∃ sent n before last_frame,
    data_generator.main tiny_dumps 12 draws = Some sent ∧
    (n ≤ length draws)%nat ∧
    Forall2 (λ r bytes, frame tiny_dumps (generate_packet r) = Some bytes)
            (take n draws) (before ++ [last_frame]) ∧
    concat (data_generator.stdout sent) = concat (before ++ [last_frame]) ∧
    data_generator.packet_count sent = Z.of_nat n ∧
    data_generator.particle_count sent
      = particles (map generate_packet (take n draws)) ∧
    data_generator.total_bytes sent = shape0 (concat (data_generator.stdout sent)) ∧
    shape0 (concat before) < 12 ≤ data_generator.total_bytes sent.
Proof.
  intros draw draws. apply (generator_stops_at_limit tiny_dumps 12 draws).
  - simpl. lia.
  - repeat constructor; simpl; lia.
  - repeat constructor.
Defined.

(** X23. The generator piped into the chunked store.  Whatever the limit
    and wherever the generator is interrupted between two rounds, for
    records that pickle to a non-empty payload below 4 GiB and unpickle
    to themselves, generated at pairwise different clock readings: the
    bytes the generator has written, cut into non-empty pieces in any
    way, are ingested by [cmd_write] without error and to the end, it
    counts the packets and the bytes the generator counted, and the query
    for any window then returns exactly the generated particles stamped
    inside the window, in the order of generation. *)
Theorem pipeline_round_trip (loads : list byte → result Packet)
    (dumps : Packet → list byte) (max_bytes : Z) (draws : list Draw)
    (start_ts stop_ts : Z) :
  Forall valid_draw draws →
  Forall (λ r, shape0 (dumps (generate_packet r)) < 2 ^ 32 ∧
               loads (dumps (generate_packet r)) = Ok (generate_packet r) ∧
               dumps (generate_packet r) ≠ []) draws →
  NoDup (map draw_now draws) →
  draws ≠ [] →
  ∃ sent n,
    data_generator.main dumps max_bytes draws = Some sent ∧
    data_generator.packet_count sent = Z.of_nat n ∧
    (1 ≤ n ≤ length draws)%nat ∧
    ∀ s, Forall (λ seg, seg ≠ []) s →
         concat s = concat (data_generator.stdout sent) →
         ∃ w o opened,
           cmd_write_stream loads s empty_disk =
             (Ok (data_generator.packet_count sent,
                  data_generator.total_bytes sent), ([], w)) ∧
           cmd_read (output_path w) start_ts stop_ts [] = (Ok o, opened) ∧
           outcome_rows o =
             filter (in_window start_ts stop_ts)
                    (ingested_rows (map generate_packet (take n draws))).
Proof.
  intros Hvalid Hcodec Hclock Hne.
  assert (Forall (λ r, shape0 (dumps (generate_packet r)) < 2 ^ 32) draws) as Hsize.
  { eapply Forall_impl; [exact Hcodec|]. by intros r (? & _). }
  destruct (main_loop_spec dumps max_bytes draws data_generator.nothing_sent
              Hvalid Hsize)
    as (n & frames & sent & Hloop & Hle & Hfr & Hout & Htot & Hpk & Hpt & Hsz & Hend).
  cbn [data_generator.nothing_sent data_generator.stdout
       data_generator.total_bytes data_generator.packet_count
       data_generator.particle_count concat app] in *.
  assert (1 ≤ n)%nat as Hn.
  { destruct Hend as [[-> _]|(_ & before & last_frame & -> & _)].
    - destruct draws; [done|simpl; lia].
    - destruct n; [|lia]. rewrite take_0 in Hfr.
      apply Forall2_nil_inv_l in Hfr. by destruct before. }
  exists sent, n. split; [done|]. split; [lia|]. split; [lia|].
  intros s Hs Hcat.
  set (ps := map generate_packet (take n draws)).
  pose proof (generated_records (take n draws) (Forall_take _ _ _ Hvalid)) as Hps.
  fold ps in Hps.
  assert (NoDup (map draw_now (take n draws))) as Hclock'.
  { change (map draw_now (take n draws)) with (draw_now <$> take n draws).
    rewrite fmap_take.
    apply (sublist_NoDup _ (draw_now <$> draws)); first [done|apply sublist_take]. }
  pose proof (generated_distinct_times (take n draws) Hclock') as Hdis. fold ps in Hdis.
  destruct (taken_in_add_packets _ _ [] ps _ Hps (taken_in_init _ _))
    as (w1 & Hadd & Hw1).
  destruct (taken_in_flush _ _ _ _ Hw1) as (w & Hf & _ & Hst). simpl in Hst.
  destruct (named_add_packets [] ps _ _ _ Hdis named_init Hadd)
    as (done & Hnamed & Hdd & _).
  pose proof (named_flush done w1 _ _ Hdd Hnamed Hf) as (fl & buf & _ & _ & Hnd & _).
  assert (cmd_write ps empty_disk = (Ok tt, w)) as Hwrite.
  { unfold cmd_write, bind. by rewrite Hadd. }
  destruct (stored_read (output_path w) (ingested_rows ps) start_ts stop_ts)
    as (o & Hread & Hrows); [done| |done|].
  { apply generated_rows; [by apply Forall_take|].
    destruct draws; [done|]. by destruct n; [lia|]. }
  destruct (cmd_write_stream_run loads dumps ps frames s empty_disk)
    as (rest & Hrun & Hrest).
  { apply Forall_forall. intros p (r & -> & Hr)%elem_of_map.
    rewrite Forall_forall in Hcodec.
    destruct (Hcodec r) as (_ & Hl & Hd); [|done].
    rewrite <- (take_drop n draws). apply elem_of_app. by left. }
  { change ps with (generate_packet <$> take n draws). by apply Forall2_fmap_l. }
  { done. }
  { by rewrite Hcat, Hout. }
  rewrite Hwrite in Hrun, Hrest. cbn [fst snd] in Hrun, Hrest.
  rewrite (Hrest eq_refl) in Hrun.
  exists w, o. eexists. split; [|by split].
  rewrite Hrun. do 3 f_equal.
  - unfold ps. rewrite length_map, length_take. lia.
  - rewrite Hcat, Hout. lia.
Qed.

(** Witness of [pipeline_round_trip]: four draws at the clock readings 5
    to 8, the small codec, a limit of 12 bytes, the window from 6 to 7. *)
Lemma pipeline_round_trip_witness :
  let draw := λ n now, {| draw_n := n; draw_now := now;
                          draw_scattering := λ i j k, 0;
                          draw_spectral := λ i j k, 1 |} in
  let draws := [draw 2 5; draw 1 6; draw 3 7; draw 1 8] in
  let loads := λ payload,
    Ok (generate_packet (draw (Z.of_nat (length payload))
                              (default 0 (head (map byte_to_Z payload))))) in
  ∃ sent n,
    data_generator.main tiny_dumps 12 draws = Some sent ∧
    data_generator.packet_count sent = Z.of_nat n ∧
    (1 ≤ n ≤ length draws)%nat ∧
    ∀ s, Forall (λ seg, seg ≠ []) s →
         concat s = concat (data_generator.stdout sent) →
         ∃ w o opened,
           cmd_write_stream loads s empty_disk =
             (Ok (data_generator.packet_count sent,
                  data_generator.total_bytes sent), ([], w)) ∧
           cmd_read (output_path w) 6 7 [] = (Ok o, opened) ∧
           outcome_rows o =
             filter (in_window 6 7)
                    (ingested_rows (map generate_packet (take n draws))).
Proof.
  intros draw draws loads.
  apply (pipeline_round_trip loads tiny_dumps 12 draws 6 7).
  - repeat constructor; simpl; lia.
  - repeat constructor; try discriminate; vm_compute; reflexivity.
  - vm_compute. repeat constructor; intros Hin; inversion Hin; subst;
      repeat match goal with H : _ ∈ _ |- _ => inversion H; clear H; subst end.
  - discriminate.
Defined.
